(** * rslurp: a shallow embedding of [rslurp.go] and its properties

    The development follows the single source file of the program:
    the byte-counting reader, the transfer of one order ([slurp]), the
    worker loop ([slurper]), the resolution of listing pages into download
    addresses ([downloadDirs]) and the exit status computed by [main].

    Everything the program reaches through the operating system, the
    network or the output sink is explicit: the sink is a type class over
    an abstract store, the server and the scratch file are oracles of an
    environment record, and every call that leaves the program is written
    to a trace. *)

From Stdlib Require Import ZArith Lia Ascii String.
From Stdlib.Strings Require Import Byte.
From stdpp Require Import base strings list gmap pretty.

Open Scope Z_scope.

(** ** Machine integers

    Go's fixed-width integers are integers of [Z] with the wrap-around
    written out. *)
Module GoInt.

Definition wrapU32 (z : Z) : Z := z mod 2 ^ 32.
Definition wrapU64 (z : Z) : Z := z mod 2 ^ 64.
Definition wrapS64 (z : Z) : Z := (z + 2 ^ 63) mod 2 ^ 64 - 2 ^ 63.

(** [atomic.AddUint32], [atomic.AddUint64] and [int64] addition. *)
Definition addU32 (a b : Z) : Z := wrapU32 (a + b).
Definition addU64 (a b : Z) : Z := wrapU64 (a + b).
Definition addS64 (a b : Z) : Z := wrapS64 (a + b).

Definition isU32 (z : Z) : Prop := 0 <= z < 2 ^ 32.
Definition isU64 (z : Z) : Prop := 0 <= z < 2 ^ 64.
Definition isS64 (z : Z) : Prop := - 2 ^ 63 <= z < 2 ^ 63.

End GoInt.

(** ** The parts of Go's [strings] and [path] packages the program calls

    Go strings are byte sequences; so are [string]s here. *)
Module GoStrings.

Definition slash : ascii := "/"%char.

Fixpoint dropS (n : nat) (s : string) : string :=
  match n, s with
  | O, _ => s
  | S n', String _ s' => dropS n' s'
  | S _, EmptyString => EmptyString
  end.

(** [strings.HasPrefix]. *)
Fixpoint HasPrefix (s prefix : string) : bool :=
  match prefix, s with
  | EmptyString, _ => true
  | String _ _, EmptyString => false
  | String c p', String d s' => if Ascii.eqb c d then HasPrefix s' p' else false
  end.

(** [strings.HasSuffix]:
    [len(s) >= len(suffix) && s[len(s)-len(suffix):] == suffix]. *)
Definition HasSuffix (s suffix : string) : bool :=
  (String.length suffix <=? String.length s)%nat
  && String.eqb (dropS (String.length s - String.length suffix) s) suffix.

(** [strings.Contains]: some position of [s] starts with [substr]. *)
Fixpoint Contains (s substr : string) : bool :=
  HasPrefix s substr
  || match s with
     | EmptyString => false
     | String _ s' => Contains s' substr
     end.

(** The elements of [s] between slashes, in order: [splitSlash "a//b"]
    is ["a"; ""; "b"]. [cur] holds the element being read, reversed. *)
Fixpoint splitSlashAux (s : string) (cur : string) : list string :=
  match s with
  | EmptyString => [String.rev cur]
  | String c s' =>
      if Ascii.eqb c slash
      then String.rev cur :: splitSlashAux s' EmptyString
      else splitSlashAux s' (String c cur)
  end.

Definition splitSlash (s : string) : list string := splitSlashAux s EmptyString.

Fixpoint joinWith (sep : string) (l : list string) : string :=
  match l with
  | [] => EmptyString
  | [x] => x
  | x :: rest => x +:+ sep +:+ joinWith sep rest
  end.

Definition joinSlash : list string -> string := joinWith "/".

End GoStrings.

Module GoPath.
Import GoStrings.

(** Leading slashes removed. *)
Fixpoint stripSlashes (s : string) : string :=
  match s with
  | String c s' => if Ascii.eqb c slash then stripSlashes s' else s
  | EmptyString => EmptyString
  end.

(** The characters before the first slash. *)
Fixpoint untilSlash (s : string) : string :=
  match s with
  | String c s' => if Ascii.eqb c slash then EmptyString else String c (untilSlash s')
  | EmptyString => EmptyString
  end.

(** [path.Base]: the last element of the path. Trailing slashes go first;
    the empty path gives ".", a path of slashes only gives "/". The scan
    from the end of the Go code is a scan from the start of the reversed
    string. *)
Definition Base (p : string) : string :=
  match p with
  | EmptyString => "."
  | _ =>
      let last := String.rev (untilSlash (stripSlashes (String.rev p))) in
      match last with
      | EmptyString => "/"
      | _ => last
      end
  end.

(** The element loop of [path.Clean], on the elements between slashes.
    [out] is the output so far, last element first. The Go code keeps an
    index [dotdot] below which the output may not be cut: it covers
    exactly the ".." elements a relative path starts with, so an element
    can be dropped if and only if the output's last element is not "..". *)
Fixpoint cleanElems (rooted : bool) (elems : list string) (out : list string)
  : list string :=
  match elems with
  | [] => out
  | e :: rest =>
      if String.eqb e EmptyString then cleanElems rooted rest out
      else if String.eqb e "." then cleanElems rooted rest out
      else if String.eqb e ".." then
        match out with
        | top :: out' =>
            if String.eqb top ".."
            then cleanElems rooted rest (".." :: out)
            else cleanElems rooted rest out'
        | [] =>
            if rooted then cleanElems rooted rest out
            else cleanElems rooted rest [".."]
        end
      else cleanElems rooted rest (e :: out)
  end.

(** [path.Clean]. *)
Definition Clean (p : string) : string :=
  match p with
  | EmptyString => "."
  | String c _ =>
      let rooted := Ascii.eqb c slash in
      let body := joinSlash (rev (cleanElems rooted (splitSlash p) [])) in
      if rooted then String slash body
      else match body with
           | EmptyString => "."
           | _ => body
           end
  end.

(** [path.Join]: the non-empty elements joined by slashes, then cleaned;
    the empty string when there is none. *)
Definition Join (elem : list string) : string :=
  match filter (fun e => e ≠ EmptyString) elem with
  | [] => EmptyString
  | es => Clean (joinSlash es)
  end.

End GoPath.

(** ** Formatting

    The verbs of [fmt] the program uses: [%d] and [%v] of an integer are
    its decimal digits ([pretty]); [%q] is [strconv.Quote]. *)
Module GoFmt.

Definition dquote : ascii := "034"%char.
Definition backslash : ascii := "\"%char.
Definition newline : string := String "010"%char EmptyString.

Definition hexDigit (n : nat) : ascii :=
  match n with
  | 0 => "0" | 1 => "1" | 2 => "2" | 3 => "3" | 4 => "4" | 5 => "5"
  | 6 => "6" | 7 => "7" | 8 => "8" | 9 => "9" | 10 => "a" | 11 => "b"
  | 12 => "c" | 13 => "d" | 14 => "e" | _ => "f"
  end%nat%char.

(** One byte of a quoted string. Exact for ASCII; a byte from 128 on is
    kept as it is (Go keeps it inside printable UTF-8 and escapes it
    otherwise). *)
Definition quoteChar (c : ascii) : string :=
  let n := nat_of_ascii c in
  let esc (x : ascii) := String backslash (String x EmptyString) in
  if Ascii.eqb c dquote then esc dquote
  else if Ascii.eqb c backslash then esc backslash
  else match n with
       | 7 => esc "a" | 8 => esc "b" | 12 => esc "f" | 10 => esc "n"
       | 13 => esc "r" | 9 => esc "t" | 11 => esc "v"
       | _ =>
           if ((n <? 32) || (n =? 127))%nat
           then String backslash
                  (String "x" (String (hexDigit (n / 16))
                                 (String (hexDigit (n mod 16)) EmptyString)))
           else String c EmptyString
       end%nat%char.

Fixpoint quoteBody (s : string) : string :=
  match s with
  | EmptyString => EmptyString
  | String c s' => quoteChar c +:+ quoteBody s'
  end.

(** [%q]. *)
Definition q (s : string) : string :=
  String dquote (quoteBody s +:+ String dquote EmptyString).

(** [%q] of a slice of strings. *)
Definition qs (l : list string) : string :=
  "[" +:+ GoStrings.joinWith " " (map q l) +:+ "]".

(** [%d], [%v] of an integer. *)
Definition d (z : Z) : string := pretty z.

End GoFmt.

(** ** Errors

    The two errors [slurp] builds itself, their two wrappers, the two
    errors of [io.Copy], and the errors that come from outside (net/http,
    os, the sink) with their message. *)
Inductive error : Type :=
| ErrExt (msg : string)
| ErrShortWrite
| ErrInvalidWrite
| ErrStatus (url : string) (code : Z)
| ErrTempfile (cause : error)
| ErrSeek (cause : error).

(** [err.Error()], what [%v] prints. *)
Fixpoint errorString (e : error) : string :=
  match e with
  | ErrExt msg => msg
  | ErrShortWrite => "short write"
  | ErrInvalidWrite => "invalid write result"
  | ErrStatus url code => "status not OK for " +:+ GoFmt.q url +:+ ": " +:+ GoFmt.d code
  | ErrTempfile cause => "creating tempfile: " +:+ errorString cause
  | ErrSeek cause => "seek(0,0) in tmpfile: " +:+ errorString cause
  end.

(** ** HTTP *)

(** What one [Read] returns besides the bytes: nothing, [io.EOF], or
    another error. *)
Inductive readErr : Type :=
| EOF
| ReadFailed (e : error).

(** One [Read]: the bytes delivered ([n] is their number) and the error. *)
Record ReadResult : Type := mkRead {
  rr_data : list byte;
  rr_err : option readErr
}.

(** A reader is the sequence of results its [Read]s will give; past its
    end every [Read] gives [(0, io.EOF)]. *)
Definition Reader : Type := list ReadResult.

Record Request : Type := mkRequest {
  req_method : string;
  req_url : string;
  req_header : gmap string string
}.

Record Response : Type := mkResponse {
  StatusCode : Z;
  ContentLength : Z;   (* int64; -1 when the length is not declared *)
  Body : Reader
}.

Definition StatusOK : Z := 200.
Definition StatusPartialContent : Z := 206.
Definition StatusRequestedRangeNotSatisfiable : Z := 416.

(** ** Orders and user-interface messages *)

(** A channel is known by its number. *)
Definition chan : Type := nat.

(** [uiMsg], with Go's nil-able pointer fields as options. *)
Record uiMsg : Type := mkUiMsg {
  fileDone : option string;
  bytes : option Z;
  msg : option string
}.

Definition msgFileDone (s : string) : uiMsg :=
  {| fileDone := Some s; bytes := None; msg := None |}.
Definition msgBytes (n : Z) : uiMsg :=
  {| fileDone := None; bytes := Some n; msg := None |}.

Record order : Type := mkOrder {
  url : string;
  ui : chan
}.

(** ** The output sink

    [fileout.FileOut] is an interface; its writers are [io.WriteCloser]s.
    Both act on a store [S] (the files or the container behind the sink);
    a writer is a handle [H] into it. The package is not among the
    sources: the methods and their types are those of the calls in
    [rslurp.go]. [HasPartial] and [FixedSizeOnly] take no argument and say
    what the sink can do; they answer the same at every call. *)
Class FileOut (S H : Type) : Type := {
  HasPartial : bool;
  FixedSizeOnly : bool;
  Create : string -> Z -> S -> (error + H) * S;
  Append : string -> Z -> S -> (error + H) * S;
  (** [Write] of a writer the sink handed out: [(n, err)]. *)
  Write : H -> list byte -> S -> (Z * option error) * S;
  (** [Close] of such a writer. *)
  CloseWriter : H -> S -> S;
  (** [Close] of the sink itself. *)
  CloseSink : S -> S
}.

(** ** The program *)
Section Program.
Context {S H : Type} `{!FileOut S H}.

(** Every call that leaves the program, in the order the calls are made. *)
Inductive Event : Type :=
| EvDo (req : Request)                 (* client.Do(req) *)
| EvBodyRead (n : Z)                   (* a Read of the response body gave n bytes *)
| EvBodyClose                          (* resp.Body.Close() *)
| EvTempFile                           (* ioutil.TempFile *)
| EvTempWrite (p : list byte)
| EvTempSeek
| EvTempRead (n : Z)
| EvTempClose
| EvTempRemove                         (* os.Remove(tmpf.Name()) *)
| EvCreate (fn : string) (size : Z)    (* fileoutImpl.Create *)
| EvAppend (fn : string) (size : Z)    (* fileoutImpl.Append *)
| EvWrite (h : H) (p : list byte)      (* Write of a sink writer *)
| EvCloseWriter (h : H).               (* Close of a sink writer *)

(** The state the program runs on: the sink's store, the scratch file of
    the transfer under way, the shared byte counter ([uint64]), the global
    [errorCount] ([uint32]), what was sent on the channels, the log and
    standard output, and the trace. *)
Record World : Type := mkWorld {
  sink : S;
  scratch : option (list byte);
  counter : Z;
  errorCount : Z;
  sends : list (chan * uiMsg);
  logs : list string;
  stdout : list string;
  trace : list Event
}.

(** The flags, and what the outside answers. [env_do] sees the calls made
    so far: a server may answer the same request differently each time. *)
Record Env : Type := mkEnv {
  numWorkers : Z;
  dryRun : bool;
  matchString : string -> bool;   (* fileRE.MatchString, fileRE compiled from -matching *)
  verbose : bool;
  out : string;
  tarOut : bool;
  uiChan : chan;                                       (* the channel uiStart returns *)
  env_stat : S -> string -> option Z;                  (* os.Stat: the size, when err == nil *)
  env_newRequest : string -> option error;             (* the error of http.NewRequest *)
  env_do : list Event -> Request -> error + Response;  (* client.Do *)
  env_tempFile : option error;                         (* the error of ioutil.TempFile *)
  env_tmpWrite : list byte -> list byte -> Z * option error;
                                                       (* Write on the scratch file holding the first argument *)
  env_tmpSeek : option error;                          (* the error of tmpf.Seek(0, 0) *)
  env_list : string -> error + list string;            (* list(url): the links of a listing page *)
  env_tarCreate : option error                         (* the error of os.Create(out) under -tar *)
}.

Variable env : Env.

Definition emit (ev : Event) (w : World) : World :=
  mkWorld (sink w) (scratch w) (counter w) (errorCount w) (sends w) (logs w)
          (stdout w) (trace w ++ [ev]).
Definition setSink (s : S) (w : World) : World :=
  mkWorld s (scratch w) (counter w) (errorCount w) (sends w) (logs w)
          (stdout w) (trace w).
Definition setScratch (t : option (list byte)) (w : World) : World :=
  mkWorld (sink w) t (counter w) (errorCount w) (sends w) (logs w)
          (stdout w) (trace w).
Definition setCounter (c : Z) (w : World) : World :=
  mkWorld (sink w) (scratch w) c (errorCount w) (sends w) (logs w)
          (stdout w) (trace w).
Definition setErrorCount (c : Z) (w : World) : World :=
  mkWorld (sink w) (scratch w) (counter w) c (sends w) (logs w)
          (stdout w) (trace w).
(** [log.Printf] (without the time stamp it puts in front). *)
Definition logPrint (line : string) (w : World) : World :=
  mkWorld (sink w) (scratch w) (counter w) (errorCount w) (sends w)
          (logs w ++ [line]) (stdout w) (trace w).
Definition printOut (text : string) (w : World) : World :=
  mkWorld (sink w) (scratch w) (counter w) (errorCount w) (sends w) (logs w)
          (stdout w ++ [text]) (trace w).
(** [c <- m], with a receiver that takes every message. *)
Definition send (c : chan) (m : uiMsg) (w : World) : World :=
  mkWorld (sink w) (scratch w) (counter w) (errorCount w)
          (sends w ++ [(c, m)]) (logs w) (stdout w) (trace w).

(** *** Function bodies with [return] and [defer]

    A statement either goes on with a value or returns from the function;
    [defer] pushes a call that runs when the function returns, last
    pushed first. *)
Inductive Flow (A : Type) : Type :=
| Next (a : A)
| Return (e : option error).
Arguments Next {A} a.
Arguments Return {A} e.

Definition Deferred : Type := list (World -> World).
Definition M (A : Type) : Type := World -> Deferred -> Flow A * World * Deferred.

#[local] Instance M_ret : MRet M := fun A a w ds => (Next a, w, ds).
#[local] Instance M_bind : MBind M := fun A B k m w ds =>
  match m w ds with
  | (Next a, w', ds') => k a w' ds'
  | (Return e, w', ds') => (Return e, w', ds')
  end.

Definition return_ {A : Type} (e : option error) : M A :=
  fun w ds => (Return e, w, ds).
Definition defer (d : World -> World) : M unit :=
  fun w ds => (Next tt, w, d :: ds).
Definition getWorld : M World := fun w ds => (Next w, w, ds).
(** A call with results [(x, err)], followed by
    [if err != nil { return wrap(err) }]. *)
Definition tryAs {A : Type} (wrap : error -> error)
    (call : World -> (error + A) * World) : M A :=
  fun w ds =>
    match call w with
    | (inl e, w') => (Return (Some (wrap e)), w', ds)
    | (inr a, w') => (Next a, w', ds)
    end.
Definition try {A : Type} := @tryAs A id.

Definition runDeferred (ds : Deferred) (w : World) : World :=
  fold_left (fun w d => d w) ds w.

(** A call of a function with body [m]; falling off the end returns nil. *)
Definition call (m : M unit) (w : World) : option error * World :=
  match m w [] with
  | (Next _, w', ds) => (None, runDeferred ds w')
  | (Return e, w', ds) => (e, runDeferred ds w')
  end.

(** *** Readers and writers *)

(** [readWrapper.Read], given what the child's [Read] returned: the
    count goes to the counter, the result is passed on. *)
Definition readWrapper_Read (r : ReadResult) (w : World) : World :=
  let n := Z.of_nat (length (rr_data r)) in
  emit (EvBodyRead n) (setCounter (GoInt.addU64 (counter w) (GoInt.wrapU64 n)) w).

Definition tmpf_Read (r : ReadResult) (w : World) : World :=
  emit (EvTempRead (Z.of_nat (length (rr_data r)))) w.

(** What [slurp] writes to: the scratch file, or a writer of the sink. *)
Inductive WriteCloser : Type :=
| TmpFile
| SinkWriter (h : H).

Definition wcWrite (dst : WriteCloser) (p : list byte) (w : World)
  : (Z * option error) * World :=
  match dst with
  | TmpFile =>
      let content := default [] (scratch w) in
      let '(n, err) := env_tmpWrite env content p in
      ((n, err),
       emit (EvTempWrite p) (setScratch (Some (content ++ take (Z.to_nat n) p)) w))
  | SinkWriter h =>
      let '(r, s') := Write h p (sink w) in
      (r, emit (EvWrite h p) (setSink s' w))
  end.

Definition wcClose (dst : WriteCloser) (w : World) : World :=
  match dst with
  | TmpFile => emit EvTempClose w
  | SinkWriter h => emit (EvCloseWriter h) (setSink (CloseWriter h (sink w)) w)
  end.

(** The loop of [io.Copy]: read, write what was read, stop at the first
    error; [io.EOF] from the reader ends the copy without error. Returns
    [(written, err)]. [onRead] is what a [Read] of the source does besides
    returning. A write that reports more bytes than it was given, or fewer
    than zero, counts as zero bytes and an invalid write; one that reports
    fewer bytes without an error is a short write. The shortcuts [io.Copy]
    takes for files ([ReadFrom], [WriteTo]) move the same bytes and are not
    told apart here. *)
Fixpoint ioCopy (dst : WriteCloser) (onRead : ReadResult -> World -> World)
    (src : Reader) (written : Z) (w : World) : (Z * option error) * World :=
  match src with
  | [] => ((written, None), onRead (mkRead [] (Some EOF)) w)
  | r :: src' =>
      let w := onRead r w in
      let nr := Z.of_nat (length (rr_data r)) in
      let after (written : Z) (w : World) :=
        match rr_err r with
        | Some EOF => ((written, None), w)
        | Some (ReadFailed e) => ((written, Some e), w)
        | None => ioCopy dst onRead src' written w
        end in
      if 0 <? nr then
        let '((nw, ew), w) := wcWrite dst (rr_data r) w in
        let '(nw, ew) :=
          if (nw <? 0) || (nr <? nw)
          then (0, Some (default ErrInvalidWrite ew))
          else (nw, ew) in
        let written := GoInt.addS64 written nw in
        match ew with
        | Some e => ((written, Some e), w)
        | None =>
            if negb (nr =? nw) then ((written, Some ErrShortWrite), w)
            else after written w
        end
      else after written w
  end.

(** [io.Copy(dst, src)] followed by [if err != nil { return err }]. *)
Definition copyOrReturn (dst : WriteCloser) (onRead : ReadResult -> World -> World)
    (src : Reader) : M Z :=
  fun w ds =>
    match ioCopy dst onRead src 0 w with
    | ((_, Some e), w') => (Return (Some e), w', ds)
    | ((n, None), w') => (Next n, w', ds)
    end.

(** The size of the buffer [io.Copy] reads with. *)
Definition copyBuf : nat := Z.to_nat 32768.

(** [l] cut into pieces of [size] bytes, the last one shorter. *)
Fixpoint chunksFuel (size fuel : nat) (l : list byte) : list (list byte) :=
  match fuel, l with
  | O, _ | _, [] => []
  | Datatypes.S f, _ => take size l :: chunksFuel size f (drop size l)
  end.

(** Reading the scratch file from its start: its content, a buffer at a
    time. *)
Definition tmpReader (content : list byte) : Reader :=
  map (fun c => mkRead c None) (chunksFuel copyBuf (length content) content).

(** *** [newRequest] and [slurp] *)

Definition newRequest (url : string) : error + Request :=
  match env_newRequest env url with
  | Some err => inl err
  | None =>
      inr (mkRequest "GET" url (<["User-Agent" := "rslurp 0.1"]> ∅))
  end.

Definition setHeader (k v : string) (req : Request) : Request :=
  mkRequest (req_method req) (req_url req) (<[k := v]> (req_header req)).

Definition rangeFrom (size : Z) : string := "bytes=" +:+ GoFmt.d size +:+ "-".

Definition clientDo (req : Request) (w : World) : (error + Response) * World :=
  (env_do env (trace w) req, emit (EvDo req) w).

Definition tempFile (w : World) : (error + WriteCloser) * World :=
  match env_tempFile env with
  | Some e => (inl e, emit EvTempFile w)
  | None => (inr TmpFile, emit EvTempFile (setScratch (Some []) w))
  end.

Definition osRemoveTmp (w : World) : World :=
  emit EvTempRemove (setScratch None w).

Definition tmpSeek (w : World) : (error + unit) * World :=
  match env_tmpSeek env with
  | Some e => (inl e, emit EvTempSeek w)
  | None => (inr tt, emit EvTempSeek w)
  end.

Definition sinkCreate (fn : string) (size : Z) (w : World)
  : (error + WriteCloser) * World :=
  let '(r, s') := Create fn size (sink w) in
  (match r with inl e => inl e | inr h => inr (SinkWriter h) end,
   emit (EvCreate fn size) (setSink s' w)).

Definition sinkAppend (fn : string) (size : Z) (w : World)
  : (error + WriteCloser) * World :=
  let '(r, s') := Append fn size (sink w) in
  (match r with inl e => inl e | inr h => inr (SinkWriter h) end,
   emit (EvAppend fn size) (setSink s' w)).

(** The destination of an order: the flag [out] joined with
    [path.Base(o.url)]. *)
Definition fullFilenameOf (o : order) : string :=
  GoPath.Join [out env; GoPath.Base (url o)].

(** The test that sends a transfer through the scratch file. *)
Definition viaTemp (resp : Response) : bool :=
  FixedSizeOnly && (ContentLength resp <? 0).

(** The body of [slurp], statement by statement. *)
Definition slurpBody (o : order) : M unit :=
  if dryRun env then return_ None else
  let fn := GoPath.Base (url o) in
  let fullFilename := GoPath.Join [out env; fn] in
  req ← try (fun w => (newRequest (url o), w));
  w0 ← getWorld;
  let req :=
    if HasPartial then
      match env_stat env (sink w0) fullFilename with
      | Some size => setHeader "Range" (rangeFrom size) req
      | None => req
      end
    else req in
  resp ← try (clientDo req);
  let partial := false in
  _ ← defer (emit EvBodyClose);
  partial ←
    (if StatusCode resp =? StatusOK then mret partial
     else if StatusCode resp =? StatusPartialContent then mret true
     else if StatusCode resp =? StatusRequestedRangeNotSatisfiable
          then return_ None
     else return_ (Some (ErrStatus (url o) (StatusCode resp))));
  readTo ←
    (if viaTemp resp then
       tmpf ← tryAs ErrTempfile tempFile;
       _ ← defer osRemoveTmp;
       mret tmpf
     else
       if (partial : bool)
       then try (sinkAppend fullFilename (ContentLength resp))
       else try (sinkCreate fullFilename (ContentLength resp)));
  _ ← defer (wcClose readTo);
  fileLength ← copyOrReturn readTo readWrapper_Read (Body resp);
  _ ←
    (if viaTemp resp then
       _ ← tryAs ErrSeek tmpSeek;
       of_ ← try (sinkCreate fullFilename fileLength);
       _ ← defer (wcClose of_);
       w1 ← getWorld;
       _ ← copyOrReturn of_ tmpf_Read (tmpReader (default [] (scratch w1)));
       mret tt
     else mret tt);
  return_ None.

Definition slurp (o : order) (w : World) : option error * World :=
  call (slurpBody o) w.

(** *** The worker loop *)

Definition startingLine (o : order) : string :=
  "Starting " +:+ GoFmt.q (GoPath.Base (url o)).

Definition failedLine (o : order) (err : error) : string :=
  "Failed downloading " +:+ GoFmt.q (GoPath.Base (url o)) +:+ ": "
  +:+ errorString err.

(** One turn of the loop of [slurper]. *)
Definition slurperStep (o : order) (w : World) : World :=
  let w := if verbose env then logPrint (startingLine o) w else w in
  match slurp o w with
  | (Some err, w') =>
      setErrorCount (GoInt.addU32 (errorCount w') 1) (logPrint (failedLine o err) w')
  | (None, w') => send (ui o) (msgFileDone (url o)) w'
  end.

(** [slurper] on the orders it receives until the channel is closed.
    (The closing of its [done] channel at the end has no part in what
    follows and is left out.) *)
Fixpoint slurper (orders : list order) (w : World) : World :=
  match orders with
  | [] => w
  | o :: rest => slurper rest (slurperStep o w)
  end.

(** A pool: each worker gets a share of the queue. Transfers are taken
    whole, one worker after the other; the interleaving inside transfers
    is not part of the model. *)
Definition pool (shares : list (list order)) (w : World) : World :=
  fold_left (fun w share => slurper share w) shares w.

(** *** From listing pages to orders *)

(** The inner loop of [downloadDirs]: the links of one page, appended to
    [files]. *)
Fixpoint qualify (d : string) (fs : list string) (files : list string)
  : list string :=
  match fs with
  | [] => files
  | fn :: rest =>
      if GoStrings.Contains fn "/" then qualify d rest files
      else if matchString env fn then qualify d rest (files ++ [d +:+ fn])
      else qualify d rest files
  end.

Definition withSlash (d : string) : string :=
  if negb (GoStrings.HasSuffix d "/") then d +:+ "/" else d.

(** The outer loop of [downloadDirs]. *)
Fixpoint resolve (urls : list string) (files : list string)
  : error + list string :=
  match urls with
  | [] => inr files
  | d :: rest =>
      match env_list env d with
      | inl err => inl err
      | inr fs => resolve rest (qualify (withSlash d) fs files)
      end
  end.

(** [downloadFiles], when it runs to its end: one order per file on the
    queue, the workers, and the last snapshot of the counter sent to the
    user interface. Without a worker it does not come back ([done[0]] of
    an empty slice). Ticks of the timer and signals are not part of the
    model. *)
Definition downloadFiles (files : list string) (w : World) : option World :=
  if 0 <? numWorkers env then
    let w := slurper (map (fun fn => mkOrder fn (uiChan env)) files) w in
    Some (send (uiChan env) (msgBytes (counter w)) w)
  else None.

Definition downloadDirs (urls : list string) (w : World)
  : option (option error * World) :=
  match resolve urls [] with
  | inl err => Some (Some err, w)
  | inr files =>
      match downloadFiles files w with
      | Some w' => Some (None, w')
      | None => None
      end
  end.

(** *** [main] *)

Definition errorsLine (n : Z) : string :=
  "Number of errors: " +:+ GoFmt.d n +:+ GoFmt.newline.

(** [main] after [flag.Parse], on the positional arguments: the exit
    status of the process and the final state, or nothing when
    [downloadFiles] does not come back. [log.Fatalf] and [os.Exit] leave
    at once, without the deferred [Close] of the sink. *)
Definition main (args : list string) (w : World) : option (Z * World) :=
  match (if tarOut env then env_tarCreate env else None) with
  | Some err =>
      Some (1, logPrint ("Opening output tar file " +:+ GoFmt.q (out env)
                          +:+ ": " +:+ errorString err) w)
  | None =>
      match args with
      | [] => Some (0, setSink (CloseSink (sink w)) w)
      | _ =>
          match downloadDirs args w with
          | None => None
          | Some (Some err, w') =>
              Some (1, logPrint ("Failed to start download of " +:+ GoFmt.qs args
                                  +:+ ": " +:+ errorString err) w')
          | Some (None, w') =>
              if 0 <? errorCount w'
              then Some (1, printOut (errorsLine (errorCount w')) w')
              else Some (0, setSink (CloseSink (sink w')) w')
          end
      end
  end.

End Program.

(** ** What a trace shows *)
Section Observations.
Context {S H : Type} `{!FileOut S H}.

(** The calls that reach the sink, and those that open a destination. *)
Definition touchesSink (ev : @Event H) : bool :=
  match ev with
  | EvCreate _ _ | EvAppend _ _ | EvWrite _ _ | EvCloseWriter _ => true
  | _ => false
  end.

Definition opensSink (ev : @Event H) : bool :=
  match ev with
  | EvCreate _ _ | EvAppend _ _ => true
  | _ => false
  end.

Definition isAppend (ev : @Event H) : bool :=
  match ev with
  | EvAppend _ _ => true
  | _ => false
  end.

Definition usesTemp (ev : @Event H) : bool :=
  match ev with
  | EvTempFile | EvTempWrite _ | EvTempSeek | EvTempRead _ | EvTempClose
  | EvTempRemove => true
  | _ => false
  end.

Definition isDo (ev : @Event H) : bool :=
  match ev with
  | EvDo _ => true
  | _ => false
  end.

(** The byte counts of the body reads of a trace. *)
Definition bodyReads (evs : list (@Event H)) : list Z :=
  omap (fun ev => match ev with EvBodyRead n => Some n | _ => None end) evs.

Definition readTotal (evs : list (@Event H)) : Z :=
  foldr Z.add 0 (bodyReads evs).

(** The counter after the events [evs], from the value [c]: the value a
    snapshot taken at that point of the trace sees. *)
Definition countFrom (c : Z) (evs : list (@Event H)) : Z :=
  fold_left (fun c n => GoInt.addU64 c (GoInt.wrapU64 n)) (bodyReads evs) c.

(** The bytes a reader delivers up to its first error or end. *)
Fixpoint received (src : Reader) : list byte :=
  match src with
  | [] => []
  | r :: src' =>
      rr_data r ++ match rr_err r with
                   | None => received src'
                   | Some _ => []
                   end
  end.

(** The events of a copy that meets no error: each read, followed by the
    write of what it delivered. *)
Fixpoint copyTrace (rdEv : Z -> @Event H) (wrEv : list byte -> @Event H)
    (src : Reader) : list (@Event H) :=
  match src with
  | [] => [rdEv 0]
  | r :: src' =>
      rdEv (Z.of_nat (length (rr_data r)))
      :: (if 0 <? Z.of_nat (length (rr_data r)) then [wrEv (rr_data r)] else [])
      ++ match rr_err r with
         | None => copyTrace rdEv wrEv src'
         | Some _ => []
         end
  end.

(** The bytes handed to the writes of a trace, in order. *)
Definition sinkWritten (evs : list (@Event H)) : list byte :=
  concat (omap (fun ev => match ev with EvWrite _ p => Some p | _ => None end) evs).

Definition tempWritten (evs : list (@Event H)) : list byte :=
  concat (omap (fun ev => match ev with EvTempWrite p => Some p | _ => None end) evs).

(** The request [slurp] sends for [o] from the state [w], [req] being
    what [newRequest] built. *)
Definition sentRequest (env : @Env S H) (o : order) (w : @World S H)
    (req : Request) : Request :=
  if HasPartial then
    match env_stat env (sink w) (fullFilenameOf env o) with
    | Some size => setHeader "Range" (rangeFrom size) req
    | None => req
    end
  else req.

End Observations.

(** ** How a state can come from another

    [Evolves P w w']: [w'] comes from [w] by calls whose events all
    satisfy [P]; the counter moved by the body reads among them and by
    nothing else; the sink's store is the same unless a call reached the
    sink; the worker's books (error count, channels, log, output) are
    untouched. *)
Section Evolution.
Context {S H : Type} `{!FileOut S H}.

Record Evolves (P : @Event H -> Prop) (w w' : @World S H) : Prop := mkEvolves {
  ev_errorCount : errorCount w' = errorCount w;
  ev_sends : sends w' = sends w;
  ev_logs : logs w' = logs w;
  ev_stdout : stdout w' = stdout w;
  ev_trace : exists evs,
      trace w' = trace w ++ evs
      /\ Forall P evs
      /\ counter w' = countFrom (counter w) evs
      /\ (Forall (fun ev => touchesSink ev = false) evs -> sink w' = sink w)
}.

(** The events a copy from [src] to [dst] may leave. *)
Definition copyEvent (dst : @WriteCloser H) (fromBody : bool) (ev : @Event H)
  : Prop :=
  match ev with
  | EvBodyRead n => fromBody = true /\ 0 <= n
  | EvTempRead n => fromBody = false /\ 0 <= n
  | EvTempWrite _ => dst = TmpFile
  | EvWrite h _ => dst = SinkWriter h
  | _ => False
  end.

End Evolution.

Section CopyObservations.
Context {H : Type}.

(** The write event of a destination. *)
Definition writeEvent (dst : @WriteCloser H) : list byte -> @Event H :=
  match dst with
  | TmpFile => EvTempWrite
  | SinkWriter h => EvWrite h
  end.

End CopyObservations.

(** ** The two ways through an accepted response, in straight-line form

    [slurp] is one function with returns and deferred calls; after a
    200 or 206 it runs as one of the two functions below, depending on
    [viaTemp] (lemmas [slurp_direct] and [slurp_buffered]). *)
Section Paths.
Context {S H : Type} `{!FileOut S H}.
Variable env : @Env S H.

Definition directTransfer (fullFilename : string) (resp : Response)
    (w1 : @World S H) : option error * @World S H :=
  match (if StatusCode resp =? StatusPartialContent
         then sinkAppend fullFilename (ContentLength resp) w1
         else sinkCreate fullFilename (ContentLength resp) w1) with
  | (inl e, w2) => (Some e, emit EvBodyClose w2)
  | (inr dst, w2) =>
      let '((_, err), w3) := ioCopy env dst readWrapper_Read (Body resp) 0 w2 in
      (err, emit EvBodyClose (wcClose dst w3))
  end.

(** The deferred calls of the buffered way: close and remove the scratch
    file, close the body. *)
Definition bufferedCleanup (w : @World S H) : @World S H :=
  emit EvBodyClose (osRemoveTmp (wcClose TmpFile w)).

Definition secondPass (fullFilename : string) (fileLength : Z)
    (w3 : @World S H) : option error * @World S H :=
  match tmpSeek env w3 with
  | (inl e, w4) => (Some (ErrSeek e), bufferedCleanup w4)
  | (inr _, w4) =>
      match sinkCreate fullFilename fileLength w4 with
      | (inl e, w5) => (Some e, bufferedCleanup w5)
      | (inr of_, w5) =>
          let '((_, err), w6) :=
            ioCopy env of_ tmpf_Read (tmpReader (default [] (scratch w5))) 0 w5 in
          (err, bufferedCleanup (wcClose of_ w6))
      end
  end.

Definition bufferedTransfer (fullFilename : string) (resp : Response)
    (w1 : @World S H) : option error * @World S H :=
  match tempFile env w1 with
  | (inl e, w2) => (Some (ErrTempfile e), emit EvBodyClose w2)
  | (inr tmpf, w2) =>
      match ioCopy env tmpf readWrapper_Read (Body resp) 0 w2 with
      | ((_, Some e), w3) => (Some e, bufferedCleanup w3)
      | ((fileLength, None), w3) => secondPass fullFilename fileLength w3
      end
  end.

End Paths.

Section Opens.
Context {H : Type}.

(** The path a call opens at the sink. *)
Definition openedPath (ev : @Event H) : option string :=
  match ev with
  | EvCreate fn _ | EvAppend fn _ => Some fn
  | _ => None
  end.

(** The events that came after the state with trace [before]. *)
Definition eventsSince (before after : list (@Event H)) : list (@Event H) :=
  drop (length before) after.

End Opens.

Section Runs.
Context {S H : Type} `{!FileOut S H}.
Variable env : @Env S H.

(** Reads deliver a number of bytes that is not negative. *)
Definition okEvent (ev : @Event H) : Prop :=
  match ev with
  | EvBodyRead n | EvTempRead n => 0 <= n
  | _ => True
  end.

(** The ways a call of [slurp] can go, with the result of each. *)
Inductive SlurpRun (o : order) (w : @World S H)
  : option error * @World S H -> Prop :=
| RunDry :
    dryRun env = true ->
    SlurpRun o w (None, w)
| RunBadRequest e :
    dryRun env = false ->
    newRequest env (url o) = inl e ->
    SlurpRun o w (Some e, w)
| RunNoResponse req e :
    dryRun env = false ->
    newRequest env (url o) = inr req ->
    env_do env (trace w) (sentRequest env o w req) = inl e ->
    SlurpRun o w (Some e, emit (EvDo (sentRequest env o w req)) w)
| RunNotSatisfiable req resp :
    dryRun env = false ->
    newRequest env (url o) = inr req ->
    env_do env (trace w) (sentRequest env o w req) = inr resp ->
    StatusCode resp = StatusRequestedRangeNotSatisfiable ->
    SlurpRun o w
      (None, emit EvBodyClose (emit (EvDo (sentRequest env o w req)) w))
| RunBadStatus req resp :
    dryRun env = false ->
    newRequest env (url o) = inr req ->
    env_do env (trace w) (sentRequest env o w req) = inr resp ->
    StatusCode resp <> StatusOK ->
    StatusCode resp <> StatusPartialContent ->
    StatusCode resp <> StatusRequestedRangeNotSatisfiable ->
    SlurpRun o w
      (Some (ErrStatus (url o) (StatusCode resp)),
       emit EvBodyClose (emit (EvDo (sentRequest env o w req)) w))
| RunDirect req resp :
    dryRun env = false ->
    newRequest env (url o) = inr req ->
    env_do env (trace w) (sentRequest env o w req) = inr resp ->
    StatusCode resp = StatusOK \/ StatusCode resp = StatusPartialContent ->
    viaTemp resp = false ->
    SlurpRun o w
      (directTransfer env (fullFilenameOf env o) resp
         (emit (EvDo (sentRequest env o w req)) w))
| RunBuffered req resp :
    dryRun env = false ->
    newRequest env (url o) = inr req ->
    env_do env (trace w) (sentRequest env o w req) = inr resp ->
    StatusCode resp = StatusOK \/ StatusCode resp = StatusPartialContent ->
    viaTemp resp = true ->
    SlurpRun o w
      (bufferedTransfer env (fullFilenameOf env o) resp
         (emit (EvDo (sentRequest env o w req)) w)).

(** What may follow the opening of the destination on the direct way. *)
Definition afterOpen (ev : @Event H) : Prop :=
  okEvent ev /\ opensSink ev = false /\ usesTemp ev = false /\ isDo ev = false.

(** What a buffered transfer may leave at all, and what may follow its
    [Create]. *)
Definition bufferedEvent (ev : @Event H) : Prop :=
  okEvent ev /\ isAppend ev = false /\ isDo ev = false.

Definition afterCreate (ev : @Event H) : Prop :=
  okEvent ev /\ opensSink ev = false /\ isDo ev = false.

(** The event that opens the destination on the direct way. *)
Definition openEvent (fullFilename : string) (resp : Response) : @Event H :=
  if StatusCode resp =? StatusPartialContent
  then EvAppend fullFilename (ContentLength resp)
  else EvCreate fullFilename (ContentLength resp).

(** What the events of a call of [slurp] look like: nothing at all, or
    one request and then events that are no request and open nothing but
    the order's destination. *)
Definition afterRequest (o : order) (ev : @Event H) : Prop :=
  isDo ev = false
  /\ forall fn, openedPath ev = Some fn -> fn = fullFilenameOf env o.

(** The events of a direct transfer that meets no error, after the
    request: open, stream the body to the writer [h], close. *)
Definition directEvents (fullFilename : string) (resp : Response) (h : H)
  : list (@Event H) :=
  openEvent fullFilename resp
  :: copyTrace EvBodyRead (EvWrite h) (Body resp)
  ++ [EvCloseWriter h; EvBodyClose].

(** The events of buffering the body, up to and including the [Create]
    of the destination. *)
Definition bufferingEvents (fullFilename : string) (resp : Response)
  : list (@Event H) :=
  EvTempFile
  :: copyTrace EvBodyRead EvTempWrite (Body resp)
  ++ [EvTempSeek;
      EvCreate fullFilename
        (GoInt.wrapS64 (Z.of_nat (length (received (Body resp)))))].

(** The events of a buffered transfer that meets no error, after the
    request. *)
Definition bufferedEvents (fullFilename : string) (resp : Response) (h : H)
  : list (@Event H) :=
  bufferingEvents fullFilename resp
  ++ copyTrace EvTempRead (EvWrite h) (tmpReader (received (Body resp)))
  ++ [EvCloseWriter h; EvTempClose; EvTempRemove; EvBodyClose].

End Runs.

(** ** What the worker loop leaves behind *)
Section Reports.
Context {S H : Type} `{!FileOut S H}.
Variable env : @Env S H.

(** The state in which the loop calls [slurp]: after the line of [-v]. *)
Definition started (o : order) (w : @World S H) : @World S H :=
  if verbose env then logPrint (startingLine o) w else w.

Definition isFailedLine (line : string) : bool :=
  GoStrings.HasPrefix line "Failed downloading ".

Definition isFileDone (cm : chan * uiMsg) : bool :=
  match fileDone cm.2 with
  | Some _ => true
  | None => false
  end.

(** The orders reported as failed, and as done. *)
Definition failures (w : @World S H) : nat :=
  length (List.filter isFailedLine (logs w)).

Definition dones (w : @World S H) : nat :=
  length (List.filter isFileDone (sends w)).

End Reports.

Section Growth.
Context {S H : Type} `{!FileOut S H}.

(** [w'] comes from [w] by a stretch of the worker loop: the trace grew
    by well-formed events, and the counter moved by their body reads. *)
Definition Grows (w w' : @World S H) : Prop :=
  exists evs,
    trace w' = trace w ++ evs
    /\ Forall okEvent evs
    /\ counter w' = countFrom (counter w) evs.

End Growth.

Section Listing.
Context {S H : Type}.
Variable env : @Env S H.

(** The test of the inner loop of [downloadDirs] on a link. *)
Definition keeps (fn : string) : bool :=
  negb (GoStrings.Contains fn "/") && matchString env fn.

(** The addresses one listing page contributes. *)
Definition qualified (d : string) (fs : list string) : list string :=
  map (fun fn => withSlash d +:+ fn) (List.filter keeps fs).

End Listing.

(** ** The two sinks of the spec *)

Module DirectSink.

(** Modelled from the spec: the package [fileout], with the sink that
    writes loose files, is not among the sources. Each destination is a
    file of its own; [Create] opens it empty, [Append] opens it at its
    end, a write adds to it. It supports partial writes and does not need
    the size beforehand. The store is the file system, by path. *)
Definition Store : Type := gmap string (list byte).

Definition create (fn : string) (size : Z) (s : Store)
  : (error + string) * Store :=
  (inr fn, <[fn := []]> s).

Definition append (fn : string) (size : Z) (s : Store)
  : (error + string) * Store :=
  (inr fn, <[fn := default [] (s !! fn)]> s).

Definition write (h : string) (p : list byte) (s : Store)
  : (Z * option error) * Store :=
  ((Z.of_nat (length p), None), <[h := default [] (s !! h) ++ p]> s).

(** Modelled from the spec: the sink for loose files, of the package
    [fileout] that is not among the sources: partial writes, no need of
    the size beforehand. *)
Definition fileOut : FileOut Store string :=
  {| HasPartial := true;
     FixedSizeOnly := false;
     Create := create;
     Append := append;
     Write := write;
     CloseWriter := fun _ s => s;
     CloseSink := fun s => s |}.

(** [os.Stat] on that file system. *)
Definition stat (s : Store) (fn : string) : option Z :=
  (fun c => Z.of_nat (length c)) <$> s !! fn.

End DirectSink.

Module ArchiveSink.

(** Modelled from the spec: the package [fileout], with the sink that
    writes one container, is not among the sources. Every destination is
    an entry of the container, written in sequence: a header with the
    name and the declared size, then the bytes. It has no partial writes
    and needs the size beforehand. *)
Record Entry : Type := mkEntry {
  e_name : string;
  e_size : Z;
  e_data : list byte
}.

Definition Store : Type := list Entry.

Definition create (fn : string) (size : Z) (s : Store)
  : (error + nat) * Store :=
  (inr (length s), s ++ [mkEntry fn size []]).

Definition append (fn : string) (size : Z) (s : Store)
  : (error + nat) * Store :=
  (inl (ErrExt "append not supported"), s).

Definition write (h : nat) (p : list byte) (s : Store)
  : (Z * option error) * Store :=
  ((Z.of_nat (length p), None),
   alter (fun e => mkEntry (e_name e) (e_size e) (e_data e ++ p)) h s).

(** Modelled from the spec: the sink for one container, of the package
    [fileout] that is not among the sources: no partial writes (so
    [Append] is refused), the size is needed beforehand. *)
Definition fileOut : FileOut Store nat :=
  {| HasPartial := false;
     FixedSizeOnly := true;
     Create := create;
     Append := append;
     Write := write;
     CloseWriter := fun _ s => s;
     CloseSink := fun s => s |}.

End ArchiveSink.

(** ** Concrete runs

    A server and a listing page to run the program on: the page
    [http://example/dir/] of the spec's scenario, and a few answers a
    server can give for [a.txt]. *)
Module Scenario.

Definition abc : list byte := [x61; x62; x63].

Definition listing (d : string) : error + list string :=
  if String.eqb d "http://example/dir/"
  then inr ["a.txt"; "b.txt"; "sub/c.txt"]
  else inl (ErrExt "404 Not Found").

(** The filter of the scenario, [.*\.txt$]: the names that end in
    [.txt]. *)
Definition endsInTxt (fn : string) : bool := GoStrings.HasSuffix fn ".txt".

(** An environment with one worker, no flag set but [-matching], every
    call of the operating system succeeding, and a server that gives the
    same answer to every request. *)
Definition envWith {S H : Type} (dry : bool) (stat : S -> string -> option Z)
    (answer : error + Response) : @Env S H :=
  {| numWorkers := 1;
     dryRun := dry;
     matchString := endsInTxt;
     verbose := false;
     out := ".";
     tarOut := false;
     uiChan := 0%nat;
     env_stat := stat;
     env_newRequest := fun _ => None;
     env_do := fun _ _ => answer;
     env_tempFile := None;
     env_tmpWrite := fun _ p => (Z.of_nat (length p), None);
     env_tmpSeek := None;
     env_list := listing;
     env_tarCreate := None |}.

Definition directEnv (answer : error + Response)
  : @Env DirectSink.Store string :=
  envWith false DirectSink.stat answer.

Definition archiveEnv (answer : error + Response)
  : @Env ArchiveSink.Store nat :=
  envWith false (fun _ _ => None) answer.

Definition worldOf {S H : Type} (s : S) (count : Z) : @World S H :=
  mkWorld s None count 0 [] [] [] [].

Definition a_txt : order := mkOrder "http://example/dir/a.txt" 0%nat.
Definition other_a_txt : order := mkOrder "http://mirror/pub/a.txt" 0%nat.

(** Answers: the whole file; the rest of it, without a declared length;
    range not satisfiable; not found; a body that breaks off. *)
Definition ok200 : Response := mkResponse 200 3 [mkRead abc None].
Definition partial206 : Response := mkResponse 206 (-1) [mkRead abc (Some EOF)].
Definition done416 : Response := mkResponse 416 0 [].
Definition missing404 : Response := mkResponse 404 0 [].
Definition broken200 : Response :=
  mkResponse 200 10
    [mkRead [x61] None; mkRead [] (Some (ReadFailed (ErrExt "unexpected EOF")))].

(** A file system that holds the first two bytes of [a.txt]. *)
Definition halfDone : DirectSink.Store := {["a.txt" := [x61; x62]]}.

(** What [newRequest] builds for [a.txt]. *)
Definition req_a_txt : Request :=
  mkRequest "GET" "http://example/dir/a.txt"
    (<["User-Agent" := "rslurp 0.1"]> ∅).

End Scenario.

(** ** Reading a listing page

    [list] fetches a page, collects into a map used as a set what its
    pattern captures (the text [href=], a double quote, one or more bytes
    that are no double quote, captured, and a double quote), and returns
    the keys of the map in the order the iteration over the map gives
    them. *)
Module Links.

(** The fixed text the pattern starts with: [href=] and a double quote. *)
Definition hrefOpen : string := "href=" +:+ String GoFmt.dquote EmptyString.

Fixpoint hasQuote (s : string) : bool :=
  match s with
  | EmptyString => false
  | String c s' => Ascii.eqb c GoFmt.dquote || hasQuote s'
  end.

(** The longest run of bytes other than the double quote at the start of
    [s], and what follows it: what the greedy class of the pattern takes. *)
Fixpoint spanNonQuote (s : string) : string * string :=
  match s with
  | EmptyString => (EmptyString, EmptyString)
  | String c s' =>
      if Ascii.eqb c GoFmt.dquote then (EmptyString, s)
      else let '(a, b) := spanNonQuote s' in (String c a, b)
  end.

(** A match of the pattern at the start of [s]: the captured text and
    what comes after the closing quote. The run must not be empty and a
    quote must follow it. *)
Definition matchHref (s : string) : option (string * string) :=
  if GoStrings.HasPrefix s hrefOpen then
    match spanNonQuote (GoStrings.dropS (String.length hrefOpen) s) with
    | (String c g, String _ rest) => Some (String c g, rest)
    | _ => None
    end
  else None.

(** [FindAllStringSubmatch(s, -1)], first group: the matches from left to
    right, none overlapping another; where no match starts the search
    moves on by one byte. Every step shortens the text, so a fuel of its
    length is enough. *)
Fixpoint hrefsFuel (fuel : nat) (s : string) : list string :=
  match fuel with
  | O => []
  | Datatypes.S f =>
      match s with
      | EmptyString => []
      | String _ s' =>
          match matchHref s with
          | Some (g, rest) => g :: hrefsFuel f rest
          | None => hrefsFuel f s'
          end
      end
  end.

Definition hrefs (s : string) : list string := hrefsFuel (String.length s) s.

(** The network and the runtime, as [list] sees them: what fetching and
    reading a page gives (the body, or the error of [http.Get] or of
    [ioutil.ReadAll]), and the order in which the iteration over a map
    with the given keys yields them. *)
Record Web : Type := mkWeb {
  web_get : string -> error + string;
  web_keys : list string -> list string
}.

(** The iteration over a map yields each key once, in some order. *)
Definition keysOnce (web : Web) : Prop :=
  forall keys, web_keys web keys ≡ₚ keys.

(** [list]; the name is taken by the type of lists. *)
Definition list_ (web : Web) (url : string) : error + list string :=
  match web_get web url with
  | inl err => inl err
  | inr s => inr (web_keys web (remove_dups (hrefs s)))
  end.

(** A page written piece by piece: before each link some text, then the
    opening, the link and the closing quote; [tail] after the last link. *)
Fixpoint page (items : list (string * string)) (tail : string) : string :=
  match items with
  | [] => tail
  | (before, x) :: rest =>
      before +:+ hrefOpen +:+ x +:+ String GoFmt.dquote (page rest tail)
  end.

End Links.

(** ** Counting calls *)
Section Counting.
Context {H : Type}.

Definition count (p : @Event H -> bool) (evs : list (@Event H)) : nat :=
  length (List.filter p evs).

Definition isBodyClose (ev : @Event H) : bool :=
  match ev with EvBodyClose => true | _ => false end.
Definition isTempFile (ev : @Event H) : bool :=
  match ev with EvTempFile => true | _ => false end.
Definition isTempClose (ev : @Event H) : bool :=
  match ev with EvTempClose => true | _ => false end.
Definition isTempRemove (ev : @Event H) : bool :=
  match ev with EvTempRemove => true | _ => false end.
Definition isCloseWriter (ev : @Event H) : bool :=
  match ev with EvCloseWriter _ => true | _ => false end.
Definition isWrite (ev : @Event H) : bool :=
  match ev with EvWrite _ _ => true | _ => false end.


(** The calls that open, close or remove something; the reads and writes
    of a copy are none of them. *)
Definition lifecycle (p : @Event H -> bool) : Prop :=
  forall ev, p ev = true -> opensSink ev = true \/ isBodyClose ev = true
    \/ isTempFile ev = true \/ isTempClose ev = true \/ isTempRemove ev = true
    \/ isCloseWriter ev = true.

End Counting.

Section Shapes.
Context {H : Type}.

(** What a buffered transfer can leave between the buffering of the body
    and the closing of the scratch file: nothing (the body broke off), a
    seek (that failed, or after which [Create] was refused), or the seek,
    the [Create] and the copy into the writer [Create] gave, closed at the
    end. *)
Definition secondPassEvents (fullFilename : string) (tail : list (@Event H))
  : Prop :=
  tail = []
  \/ tail = [EvTempSeek]
  \/ (exists n, tail = [EvTempSeek; EvCreate fullFilename n])
  \/ (exists n h cevs,
        tail = [EvTempSeek; EvCreate fullFilename n] ++ cevs ++ [EvCloseWriter h]
        /\ Forall (copyEvent (SinkWriter h) false) cevs).

(** The events of a call of [slurp] after its request was answered, in
    every outcome: the answer is turned down by its status; the
    destination is opened (and, if that gave a writer, the body copied
    and the writer closed); or the scratch file is asked for (and, if
    there is one, filled, the second pass run and the scratch file
    closed and removed). The closing of the body is the last event. *)
Inductive AfterResponse (fullFilename : string) : list (@Event H) -> Prop :=
| TurnedDown :
    AfterResponse fullFilename [EvBodyClose]
| NotOpened ev :
    opensSink ev = true ->
    AfterResponse fullFilename [ev; EvBodyClose]
| Streamed ev h cevs :
    opensSink ev = true ->
    Forall (copyEvent (SinkWriter h) true) cevs ->
    AfterResponse fullFilename (ev :: cevs ++ [EvCloseWriter h; EvBodyClose])
| NoScratch :
    AfterResponse fullFilename [EvTempFile; EvBodyClose]
| Buffered cevs tail :
    Forall (copyEvent TmpFile true) cevs ->
    secondPassEvents fullFilename tail ->
    AfterResponse fullFilename
      (EvTempFile :: cevs ++ tail ++ [EvTempClose; EvTempRemove; EvBodyClose]).

End Shapes.

(** A listing page as a server sends it, and the environment that reads
    its pages with [list]. *)
Module PageScenario.

(** Four links, one of them twice, one into a subdirectory. *)
Definition indexPage : string :=
  Links.page [("<html><a ", "a.txt"); (">a</a> <a ", "b.txt");
              (">b</a> <a ", "sub/c.txt"); (">c</a> <a ", "a.txt")]
             ">again</a></html>".

(** One page at [http://example/dir/]; the keys of a map come out in the
    reverse of the order they went in. *)
Definition web : Links.Web :=
  Links.mkWeb
    (fun url => if String.eqb url "http://example/dir/"
                then inr indexPage
                else inl (ErrExt "404 Not Found"))
    reverse.

Definition withWeb {S H : Type} (web : Links.Web) (env : @Env S H) : @Env S H :=
  {| numWorkers := numWorkers env;
     dryRun := dryRun env;
     matchString := matchString env;
     verbose := verbose env;
     out := out env;
     tarOut := tarOut env;
     uiChan := uiChan env;
     env_stat := env_stat env;
     env_newRequest := env_newRequest env;
     env_do := env_do env;
     env_tempFile := env_tempFile env;
     env_tmpWrite := env_tmpWrite env;
     env_tmpSeek := env_tmpSeek env;
     env_list := Links.list_ web;
     env_tarCreate := env_tarCreate env |}.

End PageScenario.

(** * Properties *)

Section PathExamples.
Import GoPath GoStrings.

Example Base_url : Base "http://example/dir/a.txt" = "a.txt".
Proof. reflexivity. Qed.

Example Base_trailing : Base "http://example/dir/" = "dir".
Proof. reflexivity. Qed.

Example Base_slashes : Base "//" = "/".
Proof. reflexivity. Qed.

Example Join_cwd : Join ["."; "a.txt"] = "a.txt".
Proof. vm_compute. reflexivity. Qed.

Example Join_dir : Join ["/tmp/out/"; "a.txt"] = "/tmp/out/a.txt".
Proof. vm_compute. reflexivity. Qed.

Example Join_parent : Join ["out"; ".."] = ".".
Proof. vm_compute. reflexivity. Qed.

Example Clean_dotdot : Clean "../../a/../b" = "../../b".
Proof. vm_compute. reflexivity. Qed.

Example HasSuffix_slash : HasSuffix "http://example/dir/" "/" = true.
Proof. reflexivity. Qed.

Example Contains_sub : Contains "sub/c.txt" "/" = true.
Proof. reflexivity. Qed.
End PathExamples.

Module IntFacts.
Import GoInt.

Lemma wrapU64_small z : isU64 z -> wrapU64 z = z.
Proof. unfold wrapU64, isU64. intros. apply Z.mod_small. lia. Qed.

Lemma wrapU64_range z : isU64 (wrapU64 z).
Proof. unfold wrapU64, isU64. apply Z.mod_pos_bound. lia. Qed.

Lemma addU64_wrap_r a b : addU64 a (wrapU64 b) = wrapU64 (a + b).
Proof. unfold addU64, wrapU64. apply Zplus_mod_idemp_r. Qed.

Lemma wrapS64_small z : isS64 z -> wrapS64 z = z.
Proof. unfold wrapS64, isS64. intros. rewrite Z.mod_small; lia. Qed.

Lemma wrapS64_range z : isS64 (wrapS64 z).
Proof.
  unfold wrapS64, isS64.
  pose proof (Z.mod_pos_bound (z + 2 ^ 63) (2 ^ 64)). lia.
Qed.

Lemma wrapS64_add_l a b : wrapS64 (wrapS64 a + b) = wrapS64 (a + b).
Proof.
  unfold wrapS64.
  replace ((a + 2 ^ 63) mod 2 ^ 64 - 2 ^ 63 + b + 2 ^ 63)
    with ((a + 2 ^ 63) mod 2 ^ 64 + b) by lia.
  rewrite Zplus_mod_idemp_l. f_equal. f_equal. lia.
Qed.

Lemma wrapU32_range z : isU32 (wrapU32 z).
Proof. unfold wrapU32, isU32. apply Z.mod_pos_bound. lia. Qed.

Lemma addU32_small a : isU32 a -> a + 1 < 2 ^ 32 -> addU32 a 1 = a + 1.
Proof. unfold addU32, wrapU32, isU32. intros. apply Z.mod_small. lia. Qed.

End IntFacts.

Section StringFacts.

Lemma length_append (s t : string) :
  String.length (s +:+ t) = (String.length s + String.length t)%nat.
Proof. induction s as [|c s IH]; simpl; [done | by rewrite IH]. Qed.

Lemma append_inj_r (s1 s2 t : string) : s1 +:+ t = s2 +:+ t -> s1 = s2.
Proof.
  revert s2. induction s1 as [|c s1 IH]; intros [|d s2] Heq; simpl in Heq.
  - done.
  - apply (f_equal String.length) in Heq.
    rewrite !length_append in Heq. simpl in Heq. lia.
  - apply (f_equal String.length) in Heq.
    rewrite !length_append in Heq. simpl in Heq. lia.
  - injection Heq as -> Heq. f_equal. by apply IH.
Qed.

Lemma rangeFrom_inj a b : rangeFrom a = rangeFrom b -> a = b.
Proof.
  unfold rangeFrom, GoFmt.d. intros Heq.
  apply String.app_inj in Heq. apply append_inj_r in Heq.
  by apply pretty_Z_inj in Heq.
Qed.

End StringFacts.

Section EvolutionFacts.
Context {S H : Type} `{!FileOut S H}.
Variable env : @Env S H.
Implicit Types (w : @World S H) (evs : list (@Event H)) (P : @Event H -> Prop).

Lemma bodyReads_app evs1 evs2 :
  bodyReads (evs1 ++ evs2) = bodyReads evs1 ++ bodyReads evs2.
Proof. apply omap_app. Qed.

Lemma countFrom_app c evs1 evs2 :
  countFrom c (evs1 ++ evs2) = countFrom (countFrom c evs1) evs2.
Proof. unfold countFrom. rewrite bodyReads_app. apply fold_left_app. Qed.

Lemma readTotal_app evs1 evs2 :
  readTotal (evs1 ++ evs2) = readTotal evs1 + readTotal evs2.
Proof.
  unfold readTotal. rewrite bodyReads_app.
  induction (bodyReads evs1) as [|n l IH]; simpl; [reflexivity | lia].
Qed.

Lemma Evolves_refl P w : Evolves P w w.
Proof.
  split; try reflexivity. exists []. rewrite app_nil_r. auto.
Qed.

Lemma Evolves_trans P w1 w2 w3 :
  Evolves P w1 w2 -> Evolves P w2 w3 -> Evolves P w1 w3.
Proof.
  intros [e1 c1 l1 s1 (evs1 & t1 & f1 & n1 & k1)]
         [e2 c2 l2 s2 (evs2 & t2 & f2 & n2 & k2)].
  split; try congruence.
  exists (evs1 ++ evs2). repeat split.
  - rewrite t2, t1. by rewrite <- app_assoc.
  - apply Forall_app; auto.
  - rewrite countFrom_app. congruence.
  - intros [a b]%Forall_app. rewrite k2, k1; auto.
Qed.

Lemma Evolves_weaken (P Q : @Event H -> Prop) w w' :
  (forall ev, P ev -> Q ev) -> Evolves P w w' -> Evolves Q w w'.
Proof.
  intros HPQ [e c l s (evs & t & f & n & k)].
  split; auto. exists evs. repeat split; auto.
  eapply Forall_impl; eauto.
Qed.

(** One call: an event, and possibly a new store, scratch file or
    counter. *)
Lemma Evolves_call P w ev s' t' c' :
  P ev ->
  c' = countFrom (counter w) [ev] ->
  (touchesSink ev = false -> s' = sink w) ->
  Evolves P w (mkWorld s' t' c' (errorCount w) (sends w) (logs w) (stdout w)
                       (trace w ++ [ev])).
Proof.
  intros HP Hc Hs. split; try reflexivity.
  exists [ev]. simpl. repeat split; auto.
  intros Hf. apply Hs. by inversion Hf.
Qed.

Lemma Evolves_emit P w ev :
  P ev -> touchesSink ev = false -> bodyReads [ev] = [] ->
  Evolves P w (emit ev w).
Proof.
  intros HP Ht Hb. apply Evolves_call; auto.
  unfold countFrom. by rewrite Hb.
Qed.

Lemma Evolves_setScratch P w t : Evolves P w (setScratch t w).
Proof. split; try reflexivity. exists []. simpl. rewrite app_nil_r. auto. Qed.

Lemma readWrapper_Read_evolves dst r w :
  Evolves (copyEvent dst true) w (readWrapper_Read r w).
Proof.
  unfold readWrapper_Read, emit, setCounter; simpl.
  apply Evolves_call; simpl; auto. split; [reflexivity | lia].
Qed.

Lemma tmpf_Read_evolves dst r w :
  Evolves (copyEvent dst false) w (tmpf_Read r w).
Proof.
  unfold tmpf_Read. apply Evolves_emit; simpl; auto. split; [reflexivity | lia].
Qed.

Lemma wcWrite_evolves dst b p w :
  Evolves (copyEvent dst b) w (wcWrite env dst p w).2.
Proof.
  destruct dst as [|h]; simpl.
  - destruct (env_tmpWrite env (default [] (scratch w)) p) as [n e]; simpl.
    unfold emit, setScratch; simpl. apply Evolves_call; simpl; auto.
  - destruct (Write h p (sink w)) as [r s'] eqn:E; simpl.
    unfold emit, setSink; simpl. apply Evolves_call; simpl; auto. discriminate.
Qed.

(** Whatever its outcome, a copy leaves only its reads and its writes. *)
Lemma ioCopy_evolves dst b onRead :
  (forall r w, Evolves (copyEvent dst b) w (onRead r w)) ->
  forall src n w, Evolves (copyEvent dst b) w (ioCopy env dst onRead src n w).2.
Proof.
  intros Hread src. induction src as [|r src IH]; intros n w; simpl.
  - apply Hread.
  - eapply Evolves_trans; [apply Hread|].
    set (w1 := onRead r w).
    assert (Hafter : forall n' w',
      Evolves (copyEvent dst b) w1 w' ->
      Evolves (copyEvent dst b) w1
        (match rr_err r with
         | Some EOF => ((n', None), w')
         | Some (ReadFailed e) => ((n', Some e), w')
         | None => ioCopy env dst onRead src n' w'
         end).2).
    { intros n' w' Hw'. destruct (rr_err r) as [[|e]|]; simpl; auto.
      eapply Evolves_trans; [exact Hw' | apply IH]. }
    destruct (0 <? Z.of_nat (length (rr_data r))).
    + pose proof (wcWrite_evolves dst b (rr_data r) w1) as Hw.
      destruct (wcWrite env dst (rr_data r) w1) as [[nw ew] w2]; simpl in Hw.
      destruct ((nw <? 0) || (Z.of_nat (length (rr_data r)) <? nw)).
      * destruct (default ErrInvalidWrite ew); simpl; exact Hw.
      * destruct ew as [e|]; simpl; [exact Hw|].
        destruct (negb (Z.of_nat (length (rr_data r)) =? nw)); simpl; [exact Hw|].
        apply Hafter, Hw.
    + apply Hafter, Evolves_refl.
Qed.

End EvolutionFacts.

Section CopyFacts.
Context {S H : Type} `{!FileOut S H}.
Variable env : @Env S H.
Implicit Types (w : @World S H) (evs : list (@Event H)).

Lemma wcWrite_trace dst p w :
  trace (wcWrite env dst p w).2 = trace w ++ [writeEvent dst p].
Proof.
  destruct dst as [|h]; simpl.
  - by destruct (env_tmpWrite env (default [] (scratch w)) p).
  - by destruct (Write h p (sink w)).
Qed.

Lemma wcWrite_scratch_tmp p w :
  scratch (wcWrite env TmpFile p w).2
  = Some (default [] (scratch w)
          ++ take (Z.to_nat (wcWrite env TmpFile p w).1.1) p).
Proof.
  simpl. by destruct (env_tmpWrite env (default [] (scratch w)) p).
Qed.

Lemma wcWrite_scratch_sink h p w :
  scratch (wcWrite env (SinkWriter h) p w).2 = scratch w.
Proof. simpl. by destruct (Write h p (sink w)). Qed.

(** A copy that returns no error read its source to the end and wrote
    every byte of it: its trace, the count it returns, and the scratch
    file when that is where it wrote. *)
Lemma ioCopy_ok dst onRead rdEv :
  (forall r w, trace (onRead r w)
               = trace w ++ [rdEv (Z.of_nat (length (rr_data r)))]
               /\ scratch (onRead r w) = scratch w) ->
  forall src n w n' w',
    GoInt.isS64 n ->
    ioCopy env dst onRead src n w = ((n', None), w') ->
    trace w' = trace w ++ copyTrace rdEv (writeEvent dst) src
    /\ n' = GoInt.wrapS64 (n + Z.of_nat (length (received src)))
    /\ default [] (scratch w')
       = match dst with
         | TmpFile => default [] (scratch w) ++ received src
         | SinkWriter _ => default [] (scratch w)
         end.
Proof.
  intros Hread src. induction src as [|r src IH]; intros n w n' w' Hn; simpl.
  - intros [= <- <-]. destruct (Hread (mkRead [] (Some EOF)) w) as [-> ->].
    simpl. rewrite Z.add_0_r, IntFacts.wrapS64_small by done.
    repeat split. destruct dst; by rewrite ?app_nil_r.
  - destruct (Hread r w) as [Ht Hs].
    set (w1 := onRead r w) in *. set (nr := Z.of_nat (length (rr_data r))).
    assert (Hafter : forall m w2 evs,
      GoInt.isS64 m ->
      trace w2 = trace w1 ++ evs ->
      (match rr_err r with
       | Some EOF => ((m, None), w2)
       | Some (ReadFailed e) => ((m, Some e), w2)
       | None => ioCopy env dst onRead src m w2
       end) = ((n', None), w') ->
      trace w' = trace w ++ rdEv nr :: evs
                   ++ match rr_err r with
                      | None => copyTrace rdEv (writeEvent dst) src
                      | Some _ => []
                      end
      /\ n' = GoInt.wrapS64
                (m + Z.of_nat (length match rr_err r with
                                      | None => received src
                                      | Some _ => []
                                      end))
      /\ default [] (scratch w')
         = match dst with
           | TmpFile => default [] (scratch w2)
                        ++ match rr_err r with
                           | None => received src
                           | Some _ => []
                           end
           | SinkWriter _ => default [] (scratch w2)
           end).
    { intros m w2 evs Hm Hw2. destruct (rr_err r) as [[|e]|].
      - intros [= <- <-]. rewrite Hw2, Ht, app_nil_r, <- app_assoc. simpl.
        rewrite Z.add_0_r, IntFacts.wrapS64_small by done.
        repeat split. destruct dst; by rewrite ?app_nil_r.
      - discriminate.
      - intros Hc. apply IH in Hc as (Hc1 & Hc2 & Hc3); [|done].
        rewrite Hc1, Hw2, Ht. rewrite <- !app_assoc. simpl. done. }
    destruct (0 <? nr) eqn:Hpos.
    + pose proof (wcWrite_trace dst (rr_data r) w1) as Hwt.
      assert (Hws : default [] (scratch (wcWrite env dst (rr_data r) w1).2)
                    = match dst with
                      | TmpFile =>
                          default [] (scratch w)
                          ++ take (Z.to_nat (wcWrite env dst (rr_data r) w1).1.1)
                                  (rr_data r)
                      | SinkWriter _ => default [] (scratch w)
                      end).
      { destruct dst as [|h].
        - rewrite wcWrite_scratch_tmp. simpl. by rewrite Hs.
        - rewrite wcWrite_scratch_sink. by rewrite Hs. }
      destruct (wcWrite env dst (rr_data r) w1) as [[nw ew] w2]; simpl in Hwt, Hws.
      destruct ((nw <? 0) || (nr <? nw)) eqn:Hbad.
      { destruct (default ErrInvalidWrite ew); discriminate. }
      destruct ew as [e|]; [discriminate|].
      destruct (nr =? nw) eqn:Heq; simpl; [|discriminate].
      apply Z.eqb_eq in Heq. subst nw.
      intros Hc. apply (Hafter _ _ [writeEvent dst (rr_data r)]) in Hc
        as (Hc1 & Hc2 & Hc3); [| apply IntFacts.wrapS64_range | exact Hwt].
      split; [|split].
      * rewrite Hc1. reflexivity.
      * rewrite Hc2. unfold GoInt.addS64. rewrite IntFacts.wrapS64_add_l.
        f_equal. rewrite length_app. unfold nr. lia.
      * rewrite Hc3, Hws. destruct dst; [|done].
        unfold nr. rewrite Nat2Z.id, firstn_all. by rewrite <- app_assoc.
    + intros Hc. apply (Hafter _ _ []) in Hc as (Hc1 & Hc2 & Hc3);
        [| done | by rewrite app_nil_r].
      assert (Hnil : rr_data r = []).
      { apply Z.ltb_ge in Hpos. destruct (rr_data r); [done | simpl in nr; lia]. }
      split; [|split].
      * rewrite Hc1. reflexivity.
      * rewrite Hc2, Hnil. reflexivity.
      * rewrite Hc3, Hnil. simpl. rewrite Hs. done.
Qed.

End CopyFacts.

Section SlurpPaths.
Context {S H : Type} `{!FileOut S H}.
Variable env : @Env S H.
Implicit Types (w : @World S H) (evs : list (@Event H)) (o : order).

Ltac run_body :=
  unfold slurp, call, slurpBody, mbind, M_bind, mret, M_ret, try, tryAs,
    defer, getWorld, return_, copyOrReturn, runDeferred, clientDo.

Lemma slurp_dry o w : dryRun env = true -> slurp env o w = (None, w).
Proof. intros Hd. run_body. by rewrite Hd. Qed.

Lemma slurp_badRequest o w e :
  dryRun env = false -> newRequest env (url o) = inl e ->
  slurp env o w = (Some e, w).
Proof. intros Hd Hn. run_body. by rewrite Hd, Hn. Qed.

Lemma slurp_noResponse o w req e :
  dryRun env = false -> newRequest env (url o) = inr req ->
  env_do env (trace w) (sentRequest env o w req) = inl e ->
  slurp env o w = (Some e, emit (EvDo (sentRequest env o w req)) w).
Proof.
  intros Hd Hn Hdo. run_body. rewrite Hd, Hn. simpl.
  fold (fullFilenameOf env o). fold (sentRequest env o w req). by rewrite Hdo.
Qed.

Lemma slurp_416 o w req resp :
  dryRun env = false -> newRequest env (url o) = inr req ->
  env_do env (trace w) (sentRequest env o w req) = inr resp ->
  StatusCode resp = StatusRequestedRangeNotSatisfiable ->
  slurp env o w
  = (None, emit EvBodyClose (emit (EvDo (sentRequest env o w req)) w)).
Proof.
  intros Hd Hn Hdo Hs. run_body. rewrite Hd, Hn. simpl.
  fold (fullFilenameOf env o). fold (sentRequest env o w req).
  rewrite Hdo. simpl. by rewrite Hs.
Qed.

Lemma slurp_badStatus o w req resp :
  dryRun env = false -> newRequest env (url o) = inr req ->
  env_do env (trace w) (sentRequest env o w req) = inr resp ->
  StatusCode resp <> StatusOK ->
  StatusCode resp <> StatusPartialContent ->
  StatusCode resp <> StatusRequestedRangeNotSatisfiable ->
  slurp env o w
  = (Some (ErrStatus (url o) (StatusCode resp)),
     emit EvBodyClose (emit (EvDo (sentRequest env o w req)) w)).
Proof.
  intros Hd Hn Hdo H1 H2 H3. run_body. rewrite Hd, Hn. simpl.
  fold (fullFilenameOf env o). fold (sentRequest env o w req).
  rewrite Hdo. simpl.
  apply Z.eqb_neq in H1, H2, H3. by rewrite H1, H2, H3.
Qed.

Lemma slurp_direct o w req resp :
  dryRun env = false -> newRequest env (url o) = inr req ->
  env_do env (trace w) (sentRequest env o w req) = inr resp ->
  StatusCode resp = StatusOK \/ StatusCode resp = StatusPartialContent ->
  viaTemp resp = false ->
  slurp env o w
  = directTransfer env (fullFilenameOf env o) resp
      (emit (EvDo (sentRequest env o w req)) w).
Proof.
  intros Hd Hn Hdo Hs Hv. run_body. rewrite Hd, Hn. simpl.
  fold (fullFilenameOf env o). fold (sentRequest env o w req).
  rewrite Hdo. simpl. unfold directTransfer.
  set (w1 := emit (EvDo (sentRequest env o w req)) w).
  destruct Hs as [Hs|Hs]; rewrite Hs; simpl; rewrite Hv.
  - destruct (sinkCreate (fullFilenameOf env o) (ContentLength resp) w1)
      as [[e|dst] w2]; [done|].
    by destruct (ioCopy env dst readWrapper_Read (Body resp) 0 w2)
      as [[n [e|]] w3].
  - destruct (sinkAppend (fullFilenameOf env o) (ContentLength resp) w1)
      as [[e|dst] w2]; [done|].
    by destruct (ioCopy env dst readWrapper_Read (Body resp) 0 w2)
      as [[n [e|]] w3].
Qed.

Lemma slurp_buffered o w req resp :
  dryRun env = false -> newRequest env (url o) = inr req ->
  env_do env (trace w) (sentRequest env o w req) = inr resp ->
  StatusCode resp = StatusOK \/ StatusCode resp = StatusPartialContent ->
  viaTemp resp = true ->
  slurp env o w
  = bufferedTransfer env (fullFilenameOf env o) resp
      (emit (EvDo (sentRequest env o w req)) w).
Proof.
  intros Hd Hn Hdo Hs Hv. run_body. rewrite Hd, Hn. simpl.
  fold (fullFilenameOf env o). fold (sentRequest env o w req).
  rewrite Hdo. simpl. unfold bufferedTransfer, secondPass, bufferedCleanup.
  set (w1 := emit (EvDo (sentRequest env o w req)) w).
  destruct Hs as [Hs|Hs]; rewrite Hs; simpl; rewrite Hv; unfold tempFile;
    destruct (env_tempFile env) as [e|]; simpl; try done.
  all: destruct (ioCopy env TmpFile readWrapper_Read (Body resp) 0
                   (emit EvTempFile (setScratch (Some []) w1)))
         as [[n [e|]] w3]; simpl; try done.
  all: unfold tmpSeek; destruct (env_tmpSeek env) as [e|]; simpl; try done.
  all: destruct (sinkCreate (fullFilenameOf env o) n (emit EvTempSeek w3))
         as [[e|dst] w5]; simpl; try done.
  all: by destruct (ioCopy env dst tmpf_Read (tmpReader (default [] (scratch w5))) 0 w5)
         as [[n2 [e|]] w6].
Qed.

End SlurpPaths.

Section TransferFacts.
Context {S H : Type} `{!FileOut S H}.
Variable env : @Env S H.
Implicit Types (w : @World S H) (evs : list (@Event H)) (o : order)
  (P : @Event H -> Prop).

Lemma slurp_run o w : SlurpRun env o w (slurp env o w).
Proof.
  destruct (dryRun env) eqn:Hd.
  { rewrite slurp_dry by done. by constructor. }
  destruct (newRequest env (url o)) as [e|req] eqn:Hn.
  { erewrite slurp_badRequest by done. by constructor. }
  destruct (env_do env (trace w) (sentRequest env o w req)) as [e|resp] eqn:Hdo.
  { erewrite slurp_noResponse by done. by econstructor. }
  destruct (decide (StatusCode resp = StatusRequestedRangeNotSatisfiable)) as [H416|H416].
  { erewrite slurp_416 by done. by econstructor. }
  destruct (decide (StatusCode resp = StatusOK)) as [H200|H200];
    [| destruct (decide (StatusCode resp = StatusPartialContent)) as [H206|H206]].
  3: { erewrite slurp_badStatus by done. by econstructor. }
  all: destruct (viaTemp resp) eqn:Hv;
    [ erewrite slurp_buffered by eauto; econstructor; eauto
    | erewrite slurp_direct by eauto; econstructor; eauto ].
Qed.

Lemma sinkCreate_evolves P fn size w :
  P (EvCreate fn size) -> Evolves P w (sinkCreate fn size w).2.
Proof.
  intros HP. unfold sinkCreate. destruct (Create fn size (sink w)) as [r s'].
  unfold emit, setSink; simpl. apply Evolves_call; simpl; auto. discriminate.
Qed.

Lemma sinkAppend_evolves P fn size w :
  P (EvAppend fn size) -> Evolves P w (sinkAppend fn size w).2.
Proof.
  intros HP. unfold sinkAppend. destruct (Append fn size (sink w)) as [r s'].
  unfold emit, setSink; simpl. apply Evolves_call; simpl; auto. discriminate.
Qed.

Lemma sinkCreate_trace fn size w :
  trace (sinkCreate fn size w).2 = trace w ++ [EvCreate fn size].
Proof. unfold sinkCreate. by destruct (Create fn size (sink w)). Qed.

Lemma sinkAppend_trace fn size w :
  trace (sinkAppend fn size w).2 = trace w ++ [EvAppend fn size].
Proof. unfold sinkAppend. by destruct (Append fn size (sink w)). Qed.

Lemma sinkCreate_writer fn size w dst w' :
  sinkCreate fn size w = (inr dst, w') -> exists h, dst = SinkWriter h.
Proof.
  unfold sinkCreate. destruct (Create fn size (sink w)) as [[e|h] s'];
    intros [= <- <-]; eauto.
Qed.

Lemma sinkAppend_writer fn size w dst w' :
  sinkAppend fn size w = (inr dst, w') -> exists h, dst = SinkWriter h.
Proof.
  unfold sinkAppend. destruct (Append fn size (sink w)) as [[e|h] s'];
    intros [= <- <-]; eauto.
Qed.

Lemma sinkCreate_scratch fn size w :
  scratch (sinkCreate fn size w).2 = scratch w.
Proof. unfold sinkCreate. by destruct (Create fn size (sink w)). Qed.

Lemma wcClose_evolves P dst w :
  P (match dst with TmpFile => EvTempClose | SinkWriter h => EvCloseWriter h end) ->
  Evolves P w (wcClose dst w).
Proof.
  intros HP. destruct dst as [|h]; simpl.
  - by apply Evolves_emit.
  - unfold emit, setSink; simpl. apply Evolves_call; simpl; auto. discriminate.
Qed.

Lemma osRemoveTmp_evolves P w : P EvTempRemove -> Evolves P w (osRemoveTmp w).
Proof.
  intros HP. unfold osRemoveTmp.
  eapply Evolves_trans; [apply Evolves_setScratch | by apply Evolves_emit].
Qed.

Lemma bufferedCleanup_evolves P w :
  P EvTempClose -> P EvTempRemove -> P EvBodyClose ->
  Evolves P w (bufferedCleanup w).
Proof.
  intros H1 H2 H3. unfold bufferedCleanup.
  eapply Evolves_trans; [by apply (wcClose_evolves P TmpFile)|].
  eapply Evolves_trans; [by apply osRemoveTmp_evolves|].
  by apply Evolves_emit.
Qed.

Lemma bufferedCleanup_trace w :
  trace (bufferedCleanup w) = trace w ++ [EvTempClose; EvTempRemove; EvBodyClose].
Proof. unfold bufferedCleanup. simpl. by rewrite <- !app_assoc. Qed.

Lemma readWrapper_Read_trace (r : ReadResult) w :
  trace (readWrapper_Read r w)
  = trace w ++ [EvBodyRead (Z.of_nat (length (rr_data r)))]
  /\ scratch (readWrapper_Read r w) = scratch w.
Proof. done. Qed.

Lemma tmpf_Read_trace (r : ReadResult) w :
  trace (tmpf_Read r w)
  = trace w ++ [EvTempRead (Z.of_nat (length (rr_data r)))]
  /\ scratch (tmpf_Read r w) = scratch w.
Proof. done. Qed.

Lemma isS64_0 : GoInt.isS64 0.
Proof. unfold GoInt.isS64. lia. Qed.

Lemma directTransfer_run fullFilename resp w1 r w' :
  directTransfer env fullFilename resp w1 = (r, w') ->
  Evolves okEvent w1 w'
  /\ exists rest,
      trace w' = trace w1 ++ openEvent fullFilename resp :: rest
      /\ Forall afterOpen rest
      /\ (r = None ->
          exists h, rest = copyTrace EvBodyRead (EvWrite h) (Body resp)
                           ++ [EvCloseWriter h; EvBodyClose]).
Proof.
  unfold directTransfer, openEvent.
  set (opened := if StatusCode resp =? StatusPartialContent
                 then sinkAppend fullFilename (ContentLength resp) w1
                 else sinkCreate fullFilename (ContentLength resp) w1).
  assert (Hopen : Evolves okEvent w1 opened.2
                  /\ trace opened.2
                     = trace w1 ++ [if StatusCode resp =? StatusPartialContent
                                    then EvAppend fullFilename (ContentLength resp)
                                    else EvCreate fullFilename (ContentLength resp)]
                  /\ forall dst, opened.1 = inr dst -> exists h, dst = SinkWriter h).
  { unfold opened. destruct (StatusCode resp =? StatusPartialContent).
    - split; [by apply sinkAppend_evolves|]. split; [apply sinkAppend_trace|].
      intros dst Hd. eapply sinkAppend_writer. apply injective_projections; simpl; eauto.
    - split; [by apply sinkCreate_evolves|]. split; [apply sinkCreate_trace|].
      intros dst Hd. eapply sinkCreate_writer. apply injective_projections; simpl; eauto. }
  destruct opened as [[e|dst] w2]; simpl in Hopen;
    destruct Hopen as (Hev & Htr & Hdst).
  - intros [= <- <-]. split.
    + eapply Evolves_trans; [exact Hev | by apply Evolves_emit].
    + exists [EvBodyClose]. simpl. rewrite Htr, <- app_assoc. simpl.
      repeat split; [| discriminate]. by repeat constructor.
  - destruct (Hdst dst eq_refl) as [h ->].
    pose proof (ioCopy_evolves env (SinkWriter h) true readWrapper_Read
                  (readWrapper_Read_evolves (SinkWriter h)) (Body resp) 0 w2) as Hcopy.
    pose proof (ioCopy_ok env (SinkWriter h) readWrapper_Read EvBodyRead
                  readWrapper_Read_trace (Body resp) 0 w2) as Hok.
    destruct (ioCopy env (SinkWriter h) readWrapper_Read (Body resp) 0 w2)
      as [[n err] w3]. simpl in Hcopy.
    intros [= <- <-].
    set (P := fun ev => copyEvent (SinkWriter h) true ev
                        \/ ev = EvCloseWriter h \/ ev = EvBodyClose).
    assert (Hrest : Evolves P w2 (emit EvBodyClose (wcClose (SinkWriter h) w3))).
    { eapply Evolves_trans; [eapply Evolves_weaken; [|exact Hcopy]; by left|].
      eapply Evolves_trans; [apply (wcClose_evolves P (SinkWriter h)); right; by left|].
      apply Evolves_emit; auto. right; by right. }
    assert (HP : forall ev, P ev -> afterOpen ev).
    { intros ev [Hc|[->| ->]]; [|done..].
      destruct ev; simpl in Hc; try done; unfold afterOpen; simpl; intuition. }
    split.
    + eapply Evolves_trans; [exact Hev|].
      eapply Evolves_weaken; [|exact Hrest]. intros ev Hp. by apply HP.
    + destruct Hrest as [_ _ _ _ (rest & Hr1 & Hr2 & _)].
      simpl in Hr1. exists rest. simpl. rewrite Hr1, Htr, <- app_assoc. simpl.
      repeat split.
      * eapply Forall_impl; [exact Hr2 | exact HP].
      * intros ->. exists h.
        destruct (Hok n w3 isS64_0 eq_refl) as (Ht & _).
        rewrite Ht, <- !app_assoc in Hr1.
        apply app_inv_head in Hr1. simpl in Hr1. by rewrite <- Hr1.
Qed.

End TransferFacts.

Section BufferedFacts.
Context {S H : Type} `{!FileOut S H}.
Variable env : @Env S H.
Implicit Types (w : @World S H) (evs : list (@Event H)) (o : order)
  (P : @Event H -> Prop).

Lemma Evolves_events P w w' :
  Evolves P w w' -> exists evs, trace w' = trace w ++ evs /\ Forall P evs.
Proof. intros [_ _ _ _ (evs & Ht & Hf & _)]. eauto. Qed.

Lemma copyEvent_tmp_body (ev : @Event H) :
  copyEvent TmpFile true ev ->
  touchesSink ev = false /\ bufferedEvent ev.
Proof.
  destruct ev; simpl; try done; unfold bufferedEvent; simpl; intuition.
Qed.

Lemma copyEvent_sink_tmp h (ev : @Event H) :
  copyEvent (SinkWriter h) false ev -> afterCreate ev /\ bufferedEvent ev.
Proof.
  destruct ev; simpl; try done; unfold afterCreate, bufferedEvent; simpl;
    intuition.
Qed.

Lemma cleanup_quiet :
  Forall (fun ev : @Event H =>
            touchesSink ev = false /\ bufferedEvent ev /\ afterCreate ev)
         [EvTempClose; EvTempRemove; EvBodyClose].
Proof. repeat constructor. Qed.

(** A buffered transfer, whatever its outcome. *)
Lemma bufferedTransfer_run fullFilename resp w1 r w' :
  bufferedTransfer env fullFilename resp w1 = (r, w') ->
  exists evs,
    trace w' = trace w1 ++ evs
    /\ Forall bufferedEvent evs
    /\ (Forall (fun ev => touchesSink ev = false) evs
        \/ exists rest,
            evs = bufferingEvents fullFilename resp ++ rest
            /\ Forall afterCreate rest)
    /\ (r = None -> exists h, evs = bufferedEvents fullFilename resp h).
Proof.
  unfold bufferedTransfer, tempFile.
  destruct (env_tempFile env) as [e|].
  { intros [= <- <-]. exists [EvTempFile; EvBodyClose]. simpl.
    rewrite <- app_assoc. repeat split; try discriminate.
    - by repeat constructor.
    - left. by repeat constructor. }
  set (w2 := emit EvTempFile (setScratch (Some []) w1)).
  pose proof (ioCopy_evolves env TmpFile true readWrapper_Read
                (readWrapper_Read_evolves TmpFile) (Body resp) 0 w2) as Hcopy.
  pose proof (ioCopy_ok env TmpFile readWrapper_Read EvBodyRead
                readWrapper_Read_trace (Body resp) 0 w2) as Hok.
  destruct (ioCopy env TmpFile readWrapper_Read (Body resp) 0 w2)
    as [[n err] w3]. simpl in Hcopy.
  apply Evolves_events in Hcopy as (cevs & Hc1 & Hc2).
  assert (Hcq : Forall (fun ev => touchesSink ev = false /\ bufferedEvent ev) cevs).
  { eapply Forall_impl; [exact Hc2 | apply copyEvent_tmp_body]. }
  pose proof cleanup_quiet as Hclean.
  destruct err as [e|].
  { intros [= <- <-].
    exists (EvTempFile :: cevs ++ [EvTempClose; EvTempRemove; EvBodyClose]).
    rewrite bufferedCleanup_trace, Hc1. simpl. rewrite <- !app_assoc. simpl.
    repeat split; try discriminate.
    - constructor; [done|]. apply Forall_app. split.
      + eapply Forall_impl; [exact Hcq|]. by intros ev [_ ?].
      + eapply Forall_impl; [exact Hclean|]. by intros ev (_ & ? & _).
    - left. constructor; [done|]. apply Forall_app. split.
      + eapply Forall_impl; [exact Hcq|]. by intros ev [? _].
      + eapply Forall_impl; [exact Hclean|]. by intros ev (? & _). }
  destruct (Hok n w3 isS64_0 eq_refl) as (Ht & Hn & Hscr).
  simpl in Hn, Hscr.
  assert (cevs = copyTrace EvBodyRead EvTempWrite (Body resp)) as ->.
  { rewrite Ht in Hc1. by apply app_inv_head in Hc1. }
  clear Hc1. unfold secondPass, tmpSeek.
  destruct (env_tmpSeek env) as [e|].
  { intros [= <- <-].
    exists (EvTempFile :: copyTrace EvBodyRead EvTempWrite (Body resp)
            ++ [EvTempSeek; EvTempClose; EvTempRemove; EvBodyClose]).
    rewrite bufferedCleanup_trace. simpl. rewrite Ht. simpl.
    rewrite <- !app_assoc. simpl.
    repeat split; try discriminate.
    - constructor; [done|]. apply Forall_app. split.
      + eapply Forall_impl; [exact Hcq|]. by intros ev [_ ?].
      + constructor; [done|]. eapply Forall_impl; [exact Hclean|].
        by intros ev (_ & ? & _).
    - left. constructor; [done|]. apply Forall_app. split.
      + eapply Forall_impl; [exact Hcq|]. by intros ev [? _].
      + constructor; [done|]. eapply Forall_impl; [exact Hclean|].
        by intros ev (? & _). }
  set (w4 := emit EvTempSeek w3).
  pose proof (sinkCreate_trace fullFilename n w4) as Hct.
  pose proof (sinkCreate_scratch fullFilename n w4) as Hcs.
  pose proof (sinkCreate_writer fullFilename n w4) as Hcw.
  assert (Hpre : trace w4 ++ [EvCreate fullFilename n]
                 = trace w1 ++ bufferingEvents fullFilename resp).
  { unfold bufferingEvents. simpl. rewrite Ht, Hn. simpl.
    by rewrite <- !app_assoc. }
  assert (Hbuf : Forall (@bufferedEvent H) (bufferingEvents fullFilename resp)).
  { unfold bufferingEvents. constructor; [done|]. apply Forall_app. split.
    - eapply Forall_impl; [exact Hcq|]. by intros ev [_ ?].
    - by repeat constructor. }
  rewrite Hpre in Hct.
  destruct (sinkCreate fullFilename n w4) as [[e|dst] w5]; cbn [snd] in Hct, Hcs.
  { intros [= <- <-].
    exists (bufferingEvents fullFilename resp
            ++ [EvTempClose; EvTempRemove; EvBodyClose]).
    rewrite bufferedCleanup_trace, Hct, <- app_assoc.
    repeat split; try discriminate.
    - apply Forall_app. split; [exact Hbuf|].
      eapply Forall_impl; [exact Hclean|]. by intros ev (_ & ? & _).
    - right. eexists. split; [reflexivity|].
      eapply Forall_impl; [exact Hclean|]. by intros ev (_ & _ & ?). }
  destruct (Hcw dst w5 eq_refl) as [h ->].
  assert (Hcontent : default [] (scratch w5) = received (Body resp)).
  { rewrite Hcs. simpl. exact Hscr. }
  rewrite Hcontent.
  pose proof (ioCopy_evolves env (SinkWriter h) false tmpf_Read
                (tmpf_Read_evolves (SinkWriter h))
                (tmpReader (received (Body resp))) 0 w5) as Hcopy2.
  pose proof (ioCopy_ok env (SinkWriter h) tmpf_Read EvTempRead
                tmpf_Read_trace (tmpReader (received (Body resp))) 0 w5) as Hok2.
  destruct (ioCopy env (SinkWriter h) tmpf_Read
              (tmpReader (received (Body resp))) 0 w5) as [[n2 err2] w6].
  simpl in Hcopy2. apply Evolves_events in Hcopy2 as (cevs2 & Hd1 & Hd2).
  intros [= <- <-].
  exists (bufferingEvents fullFilename resp
          ++ cevs2 ++ [EvCloseWriter h; EvTempClose; EvTempRemove; EvBodyClose]).
  rewrite bufferedCleanup_trace. cbn [wcClose emit trace setSink]. rewrite Hd1, Hct.
  rewrite <- !app_assoc. cbn [app].
  assert (Hrest : Forall (fun ev => afterCreate ev /\ bufferedEvent ev)
                    (cevs2 ++ [EvCloseWriter h; EvTempClose; EvTempRemove; EvBodyClose])).
  { apply Forall_app. split.
    - eapply Forall_impl; [exact Hd2 | apply copyEvent_sink_tmp].
    - by repeat constructor. }
  repeat split.
  - apply Forall_app. split; [exact Hbuf|].
    eapply Forall_impl; [exact Hrest|]. by intros ev [_ ?].
  - right. eexists. split; [reflexivity|].
    eapply Forall_impl; [exact Hrest|]. by intros ev [? _].
  - intros ->. exists h. unfold bufferedEvents.
    destruct (Hok2 n2 w6 isS64_0 eq_refl) as (Ht2 & _).
    rewrite Ht2 in Hd1. apply app_inv_head in Hd1. by rewrite <- Hd1.
Qed.

End BufferedFacts.

Section SlurpFacts.
Context {S H : Type} `{!FileOut S H}.
Variable env : @Env S H.
Implicit Types (w : @World S H) (evs : list (@Event H)) (o : order)
  (P : @Event H -> Prop).

Lemma copyEvent_ok dst b (ev : @Event H) : copyEvent dst b ev -> okEvent ev.
Proof. destruct ev; simpl; try done; intuition. Qed.

Lemma ioCopy_body_ok dst src n w :
  Evolves okEvent w (ioCopy env dst readWrapper_Read src n w).2.
Proof.
  eapply Evolves_weaken; [apply (copyEvent_ok dst true)|].
  apply ioCopy_evolves, readWrapper_Read_evolves.
Qed.

Lemma ioCopy_tmp_ok dst src n w :
  Evolves okEvent w (ioCopy env dst tmpf_Read src n w).2.
Proof.
  eapply Evolves_weaken; [apply (copyEvent_ok dst false)|].
  apply ioCopy_evolves, tmpf_Read_evolves.
Qed.

Lemma tmpSeek_evolves w : Evolves okEvent w (tmpSeek env w).2.
Proof.
  unfold tmpSeek. destruct (env_tmpSeek env); simpl; by apply Evolves_emit.
Qed.

Lemma tempFile_evolves w : Evolves okEvent w (tempFile env w).2.
Proof.
  unfold tempFile. destruct (env_tempFile env); simpl.
  - by apply Evolves_emit.
  - eapply Evolves_trans; [apply Evolves_setScratch | by apply Evolves_emit].
Qed.

Lemma bufferedCleanup_ok w : Evolves okEvent w (bufferedCleanup w).
Proof. by apply bufferedCleanup_evolves. Qed.

Lemma secondPass_evolves fullFilename n w3 :
  Evolves okEvent w3 (secondPass env fullFilename n w3).2.
Proof.
  unfold secondPass.
  pose proof (tmpSeek_evolves w3) as H1.
  destruct (tmpSeek env w3) as [[e|[]] w4]; simpl in H1.
  { eapply Evolves_trans; [exact H1 | apply bufferedCleanup_ok]. }
  pose proof (sinkCreate_evolves okEvent fullFilename n w4 I) as H2.
  destruct (sinkCreate fullFilename n w4) as [[e|dst] w5]; simpl in H2.
  { eapply Evolves_trans; [exact H1|].
    eapply Evolves_trans; [exact H2 | apply bufferedCleanup_ok]. }
  pose proof (ioCopy_tmp_ok dst (tmpReader (default [] (scratch w5))) 0 w5) as H3.
  destruct (ioCopy env dst tmpf_Read (tmpReader (default [] (scratch w5))) 0 w5)
    as [[n2 err] w6]; simpl in H3. simpl.
  eapply Evolves_trans; [exact H1|].
  eapply Evolves_trans; [exact H2|].
  eapply Evolves_trans; [exact H3|].
  eapply Evolves_trans; [apply (wcClose_evolves okEvent dst); by destruct dst|].
  apply bufferedCleanup_ok.
Qed.

Lemma bufferedTransfer_evolves fullFilename resp w1 :
  Evolves okEvent w1 (bufferedTransfer env fullFilename resp w1).2.
Proof.
  unfold bufferedTransfer.
  pose proof (tempFile_evolves w1) as H1.
  destruct (tempFile env w1) as [[e|tmpf] w2]; simpl in H1.
  { eapply Evolves_trans; [exact H1 | by apply Evolves_emit]. }
  pose proof (ioCopy_body_ok tmpf (Body resp) 0 w2) as H2.
  destruct (ioCopy env tmpf readWrapper_Read (Body resp) 0 w2)
    as [[n [e|]] w3]; simpl in H2.
  { eapply Evolves_trans; [exact H1|].
    eapply Evolves_trans; [exact H2 | apply bufferedCleanup_ok]. }
  eapply Evolves_trans; [exact H1|].
  eapply Evolves_trans; [exact H2 | apply secondPass_evolves].
Qed.

(** Every call of [slurp] is an evolution of the state. *)
Lemma slurp_evolves o w : Evolves okEvent w (slurp env o w).2.
Proof.
  assert (Hdo : forall req, Evolves okEvent w (emit (EvDo req) w)).
  { intros req. by apply Evolves_emit. }
  destruct (slurp_run env o w) as [ | | |req resp|req resp|req resp|req resp];
    cbn [snd].
  - apply Evolves_refl.
  - apply Evolves_refl.
  - apply Hdo.
  - eapply Evolves_trans; [apply Hdo | by apply Evolves_emit].
  - eapply Evolves_trans; [apply Hdo | by apply Evolves_emit].
  - eapply Evolves_trans; [apply Hdo|].
    destruct (directTransfer env (fullFilenameOf env o) resp
                (emit (EvDo (sentRequest env o w req)) w)) as [r' w'] eqn:E.
    by apply directTransfer_run in E as [E _].
  - eapply Evolves_trans; [apply Hdo | apply bufferedTransfer_evolves].
Qed.

Lemma afterOpen_afterRequest o (ev : @Event H) : afterOpen ev -> afterRequest env o ev.
Proof.
  intros (_ & Ho & _ & Hd). split; [done|].
  intros fn. destruct ev; simpl in *; congruence.
Qed.

Lemma afterCreate_afterRequest o (ev : @Event H) : afterCreate ev -> afterRequest env o ev.
Proof.
  intros (_ & Ho & Hd). split; [done|].
  intros fn. destruct ev; simpl in *; congruence.
Qed.

Lemma untouched_afterRequest o (ev : @Event H) :
  bufferedEvent ev -> touchesSink ev = false -> afterRequest env o ev.
Proof.
  intros (_ & _ & Hd) Ht. split; [done|].
  intros fn. destruct ev; simpl in *; congruence.
Qed.

End SlurpFacts.

Section WorkerFacts.
Context {S H : Type} `{!FileOut S H}.
Variable env : @Env S H.
Implicit Types (w : @World S H) (evs : list (@Event H)) (o : order)
  (P : @Event H -> Prop).

Lemma copyTrace_Forall P rd wr src :
  (forall n, P (rd n)) -> (forall p, P (wr p)) ->
  Forall P (copyTrace rd wr src).
Proof.
  intros Hr Hw. induction src as [|r src IH]; simpl.
  - by repeat constructor.
  - constructor; [apply Hr|]. apply Forall_app. split.
    + destruct (0 <? _); by repeat constructor.
    + by destruct (rr_err r).
Qed.

Lemma bufferingEvents_afterRequest o resp :
  Forall (afterRequest env o) (bufferingEvents (fullFilenameOf env o) resp).
Proof.
  unfold bufferingEvents. constructor; [by split|].
  apply Forall_app. split.
  - apply copyTrace_Forall; by split.
  - repeat constructor; simpl; congruence.
Qed.

(** The events of a call of [slurp] that sends its request: the request,
    followed by events that are no request and open nothing but the
    destination of the order. *)
Lemma slurp_events o w req :
  dryRun env = false ->
  newRequest env (url o) = inr req ->
  exists evs,
    trace (slurp env o w).2 = trace w ++ EvDo (sentRequest env o w req) :: evs
    /\ Forall (afterRequest env o) evs.
Proof.
  intros Hd Hn.
  destruct (slurp_run env o w)
    as [Hd'|e Hd' Hn'|req' e Hd' Hn' Hdo|req' resp Hd' Hn' Hdo Hs
       |req' resp Hd' Hn' Hdo H1 H2 H3|req' resp Hd' Hn' Hdo Hs Hv
       |req' resp Hd' Hn' Hdo Hs Hv];
    try congruence; assert (req' = req) as -> by congruence; cbn [snd].
  - exists []. simpl. auto.
  - exists [EvBodyClose]. simpl. rewrite <- app_assoc.
    split; auto. by repeat constructor.
  - exists [EvBodyClose]. simpl. rewrite <- app_assoc.
    split; auto. by repeat constructor.
  - destruct (directTransfer env (fullFilenameOf env o) resp
                (emit (EvDo (sentRequest env o w req)) w)) as [r' w'] eqn:E.
    apply directTransfer_run in E as (_ & rest & Ht & Hf & _).
    exists (openEvent (fullFilenameOf env o) resp :: rest).
    cbn [snd]. rewrite Ht. simpl. rewrite <- app_assoc.
    split; auto. constructor.
    + unfold openEvent. destruct (_ =? _); split; simpl; congruence.
    + eapply Forall_impl; [exact Hf | apply afterOpen_afterRequest].
  - destruct (bufferedTransfer env (fullFilenameOf env o) resp
                (emit (EvDo (sentRequest env o w req)) w)) as [r' w'] eqn:E.
    apply bufferedTransfer_run in E as (evs & Ht & Hb & Hc & _).
    exists evs. cbn [snd]. rewrite Ht. simpl. rewrite <- app_assoc.
    split; auto.
    destruct Hc as [Hn0|(rest & -> & Hrest)].
    + apply Forall_forall. intros ev Hin.
      apply untouched_afterRequest.
      * eapply Forall_forall in Hb; eauto.
      * eapply Forall_forall in Hn0; eauto.
    + apply Forall_app. split; [apply bufferingEvents_afterRequest|].
      eapply Forall_impl; [exact Hrest | apply afterCreate_afterRequest].
Qed.

Lemma slurper_app l1 l2 w :
  slurper env (l1 ++ l2) w = slurper env l2 (slurper env l1 w).
Proof. revert w. induction l1 as [|o l1 IH]; intros w; simpl; auto. Qed.

Lemma slurperStep_failed o w err w1 :
  slurp env o (started env o w) = (Some err, w1) ->
  slurperStep env o w
  = setErrorCount (GoInt.addU32 (errorCount w1) 1)
      (logPrint (failedLine o err) w1).
Proof. unfold slurperStep, started. by intros ->. Qed.

Lemma slurperStep_done o w w1 :
  slurp env o (started env o w) = (None, w1) ->
  slurperStep env o w = send (ui o) (msgFileDone (url o)) w1.
Proof. unfold slurperStep, started. by intros ->. Qed.

Lemma started_fields o w :
  sink (started env o w) = sink w /\ trace (started env o w) = trace w
  /\ counter (started env o w) = counter w
  /\ errorCount (started env o w) = errorCount w
  /\ sends (started env o w) = sends w
  /\ stdout (started env o w) = stdout w
  /\ scratch (started env o w) = scratch w.
Proof. unfold started. by destruct (verbose env). Qed.

Lemma sentRequest_started o w req :
  sentRequest env o (started env o w) req = sentRequest env o w req.
Proof. unfold sentRequest, started. by destruct (verbose env). Qed.

Lemma trace_started o w : trace (started env o w) = trace w.
Proof. unfold started. by destruct (verbose env). Qed.

Lemma isFailedLine_failedLine o err : isFailedLine (failedLine o err) = true.
Proof. reflexivity. Qed.

Lemma isFailedLine_startingLine o : isFailedLine (startingLine o) = false.
Proof. reflexivity. Qed.

Lemma failures_started o w : failures (started env o w) = failures w.
Proof.
  unfold started, failures. destruct (verbose env); [|done]. simpl.
  rewrite List.filter_app, length_app. cbn [List.filter].
  rewrite isFailedLine_startingLine. simpl. lia.
Qed.

(** One turn of the loop reports its order once: as done or as failed. *)
Lemma slurperStep_reports o w :
  (failures (slurperStep env o w) + dones (slurperStep env o w)
   = failures w + dones w + 1)%nat.
Proof.
  pose proof (slurp_evolves env o (started env o w)) as [_ Hs Hl _ _].
  destruct (started_fields o w) as (_ & _ & _ & _ & Hsd & _).
  pose proof (failures_started o w) as Hf.
  destruct (slurp env o (started env o w)) as [[err|] w1] eqn:E;
    cbn [snd] in Hs, Hl.
  - rewrite (slurperStep_failed _ _ _ _ E).
    unfold failures, dones in *. cbn [logs sends setErrorCount logPrint].
    rewrite Hl, Hs, Hsd.
    rewrite List.filter_app, length_app. cbn [List.filter].
    rewrite isFailedLine_failedLine. simpl. lia.
  - rewrite (slurperStep_done _ _ _ E).
    unfold failures, dones in *. simpl. rewrite Hl, Hs, Hsd.
    rewrite List.filter_app, length_app. simpl. lia.
Qed.

Lemma slurper_reports orders w :
  (failures (slurper env orders w) + dones (slurper env orders w)
   = failures w + dones w + length orders)%nat.
Proof.
  revert w. induction orders as [|o orders IH]; intros w; simpl; [lia|].
  rewrite IH. pose proof (slurperStep_reports o w). lia.
Qed.

Lemma pool_reports shares w :
  (failures (pool env shares w) + dones (pool env shares w)
   = failures w + dones w + length (concat shares))%nat.
Proof.
  unfold pool. revert w. induction shares as [|sh shares IH]; intros w; simpl; [lia|].
  rewrite IH, length_app. pose proof (slurper_reports sh w). lia.
Qed.

End WorkerFacts.

Section WrittenFacts.
Context {H : Type}.
Implicit Types (evs : list (@Event H)).

Lemma sinkWritten_app evs1 evs2 :
  sinkWritten (evs1 ++ evs2) = sinkWritten evs1 ++ sinkWritten evs2.
Proof. unfold sinkWritten. by rewrite omap_app, concat_app. Qed.

Lemma tempWritten_app evs1 evs2 :
  tempWritten (evs1 ++ evs2) = tempWritten evs1 ++ tempWritten evs2.
Proof. unfold tempWritten. by rewrite omap_app, concat_app. Qed.

Lemma sinkWritten_copy_to_sink (rd : Z -> @Event H) h src :
  (forall n, sinkWritten [rd n] = []) ->
  sinkWritten (copyTrace rd (EvWrite h) src) = received src.
Proof.
  intros Hrd. induction src as [|r src IH]; simpl.
  - apply Hrd.
  - change (?x :: ?l) with ([x] ++ l). rewrite !sinkWritten_app, Hrd. simpl.
    assert (Hw : sinkWritten
                   (if 0 <? Z.of_nat (length (rr_data r))
                    then [EvWrite h (rr_data r)] else []) = rr_data r).
    { destruct (rr_data r) as [|b l] eqn:E; [done|].
      unfold sinkWritten. simpl. by rewrite app_nil_r. }
    rewrite Hw. f_equal. destruct (rr_err r); [done | exact IH].
Qed.

Lemma sinkWritten_copy_to_temp src :
  sinkWritten (copyTrace (H:=H) EvBodyRead EvTempWrite src) = [].
Proof.
  induction src as [|r src IH]; simpl; [done|].
  change (?x :: ?l) with ([x] ++ l). rewrite !sinkWritten_app.
  destruct (0 <? _); destruct (rr_err r); simpl; by rewrite ?IH.
Qed.

Lemma tempWritten_copy_to_temp src :
  tempWritten (copyTrace (H:=H) EvBodyRead EvTempWrite src) = received src.
Proof.
  induction src as [|r src IH]; simpl; [done|].
  change (?x :: ?l) with ([x] ++ l). rewrite !tempWritten_app. simpl.
  assert (Hw : tempWritten (H:=H)
                 (if 0 <? Z.of_nat (length (rr_data r))
                  then [EvTempWrite (rr_data r)] else []) = rr_data r).
  { destruct (rr_data r) as [|b l] eqn:E; [done|].
    unfold tempWritten. simpl. by rewrite app_nil_r. }
  change (tempWritten [EvBodyRead (Z.of_nat (length (rr_data r)))]) with (@nil byte).
  rewrite Hw. simpl. f_equal. destruct (rr_err r); [done | exact IH].
Qed.

Lemma tempWritten_copy_to_sink (rd : Z -> @Event H) h src :
  (forall n, tempWritten [rd n] = []) ->
  tempWritten (copyTrace rd (EvWrite h) src) = [].
Proof.
  intros Hrd. induction src as [|r src IH]; simpl; [apply Hrd|].
  change (?x :: ?l) with ([x] ++ l). rewrite !tempWritten_app, Hrd.
  destruct (0 <? _); destruct (rr_err r); simpl; by rewrite ?IH.
Qed.

Lemma copyBuf_pos : (0 < copyBuf)%nat.
Proof. unfold copyBuf. lia. Qed.

Lemma concat_chunksFuel size fuel (l : list byte) :
  (0 < size)%nat -> (length l <= fuel)%nat ->
  concat (chunksFuel size fuel l) = l.
Proof.
  intros Hsize. revert l. induction fuel as [|fuel IH]; intros l Hl.
  - destruct l; [done | simpl in Hl; lia].
  - destruct l as [|b l]; [done|].
    change (chunksFuel size (Datatypes.S fuel) (b :: l))
      with (take size (b :: l) :: chunksFuel size fuel (drop size (b :: l))).
    cbn [concat]. rewrite IH.
    + apply take_drop.
    + rewrite length_drop. simpl in *. lia.
Qed.

Lemma received_tmpReader (content : list byte) :
  received (tmpReader content) = content.
Proof.
  unfold tmpReader.
  pose proof (concat_chunksFuel copyBuf (length content) content copyBuf_pos
                (le_n _)) as Hc.
  revert Hc. generalize (chunksFuel copyBuf (length content) content).
  intros cs <-. induction cs as [|c cs IH]; simpl; [done|].
  by rewrite IH.
Qed.

Lemma bufferedEvents_written fullFilename resp h :
  tempWritten (@bufferedEvents H fullFilename resp h) = received (Body resp)
  /\ sinkWritten (@bufferedEvents H fullFilename resp h) = received (Body resp).
Proof.
  unfold bufferedEvents, bufferingEvents.
  change (EvTempFile :: ?l) with ([@EvTempFile H] ++ l).
  split.
  - rewrite !tempWritten_app, tempWritten_copy_to_temp.
    rewrite tempWritten_copy_to_sink by done. simpl. by rewrite !app_nil_r.
  - rewrite !sinkWritten_app, sinkWritten_copy_to_temp.
    rewrite sinkWritten_copy_to_sink by done.
    rewrite received_tmpReader. simpl. by rewrite !app_nil_r.
Qed.

Lemma directEvents_written fullFilename resp h :
  sinkWritten (@directEvents H fullFilename resp h) = received (Body resp)
  /\ tempWritten (@directEvents H fullFilename resp h) = [].
Proof.
  unfold directEvents.
  change (openEvent ?f ?r :: ?l) with ([@openEvent H f r] ++ l).
  split.
  - rewrite !sinkWritten_app, sinkWritten_copy_to_sink by done.
    unfold openEvent. destruct (_ =? _); simpl; by rewrite !app_nil_r.
  - rewrite !tempWritten_app, tempWritten_copy_to_sink by done.
    unfold openEvent. by destruct (_ =? _).
Qed.

End WrittenFacts.

Section AcceptedFacts.
Context {S H : Type} `{!FileOut S H}.
Variable env : @Env S H.
Implicit Types (w : @World S H) (evs : list (@Event H)) (o : order).

Lemma afterOpen_quiet (ev : @Event H) :
  afterOpen ev -> usesTemp ev = false /\ opensSink ev = false.
Proof. by intros (_ & ? & ? & _). Qed.

Lemma afterCreate_closed (ev : @Event H) : afterCreate ev -> opensSink ev = false.
Proof. by intros (_ & ? & _). Qed.

Lemma bufferedEvent_noAppend (ev : @Event H) : bufferedEvent ev -> isAppend ev = false.
Proof. by intros (_ & ? & _). Qed.

(** The only event of the buffering that opens the destination is its
    last, the [Create] with the measured length. *)
Lemma bufferingEvents_open fullFilename resp (ev : @Event H) :
  ev ∈ bufferingEvents fullFilename resp ->
  opensSink ev = true ->
  ev = EvCreate fullFilename
         (GoInt.wrapS64 (Z.of_nat (length (received (Body resp))))).
Proof.
  unfold bufferingEvents. intros Hin Hopen.
  apply elem_of_cons in Hin as [->|Hin]; [discriminate|].
  apply elem_of_app in Hin as [Hin|Hin].
  - pose proof (copyTrace_Forall (fun ev => opensSink ev = false)
                  (@EvBodyRead H) EvTempWrite (Body resp)
                  (fun _ => eq_refl) (fun _ => eq_refl)) as Hf.
    rewrite Forall_forall in Hf. apply Hf in Hin. congruence.
  - apply elem_of_cons in Hin as [->|Hin]; [discriminate|].
    apply elem_of_cons in Hin as [->|Hin]; [done|].
    by apply elem_of_nil in Hin.
Qed.

(** A call of [slurp] whose request is answered with 200 or 206. *)
Lemma slurp_accepted o w req resp r w' :
  dryRun env = false ->
  newRequest env (url o) = inr req ->
  env_do env (trace w) (sentRequest env o w req) = inr resp ->
  StatusCode resp = StatusOK \/ StatusCode resp = StatusPartialContent ->
  slurp env o w = (r, w') ->
  exists evs,
    trace w' = trace w ++ EvDo (sentRequest env o w req) :: evs
    /\ (viaTemp resp = true ->
        Forall (fun ev => isAppend ev = false) evs
        /\ (Forall (fun ev => touchesSink ev = false) evs
            \/ exists rest,
                evs = bufferingEvents (fullFilenameOf env o) resp ++ rest
                /\ Forall (fun ev => opensSink ev = false) rest)
        /\ (r = None -> exists h, evs = bufferedEvents (fullFilenameOf env o) resp h))
    /\ (viaTemp resp = false ->
        exists rest,
          evs = openEvent (fullFilenameOf env o) resp :: rest
          /\ Forall (fun ev => usesTemp ev = false /\ opensSink ev = false) rest
          /\ (r = None -> exists h, evs = directEvents (fullFilenameOf env o) resp h)).
Proof.
  intros Hd Hn Hdo Hs Hrun.
  destruct (viaTemp resp) eqn:Hv.
  - rewrite (slurp_buffered env o w req resp Hd Hn Hdo Hs Hv) in Hrun.
    apply bufferedTransfer_run in Hrun as (evs & Ht & Hb & Hc & Hok).
    exists evs. simpl in Ht. rewrite <- app_assoc in Ht. split; [exact Ht|].
    split; [|discriminate]. intros _. repeat split.
    + eapply Forall_impl; [exact Hb | apply bufferedEvent_noAppend].
    + destruct Hc as [Hc|(rest & -> & Hrest)]; [by left|]. right.
      exists rest. split; [done|].
      eapply Forall_impl; [exact Hrest | apply afterCreate_closed].
    + exact Hok.
  - rewrite (slurp_direct env o w req resp Hd Hn Hdo Hs Hv) in Hrun.
    apply directTransfer_run in Hrun as (_ & rest & Ht & Hf & Hok).
    exists (openEvent (fullFilenameOf env o) resp :: rest).
    simpl in Ht. rewrite <- app_assoc in Ht. split; [exact Ht|].
    split; [discriminate|]. intros _. exists rest. repeat split.
    + eapply Forall_impl; [exact Hf | apply afterOpen_quiet].
    + intros Hr. destruct (Hok Hr) as [h ->]. by exists h.
Qed.

End AcceptedFacts.

Section CounterFacts.
Context {S H : Type} `{!FileOut S H}.
Variable env : @Env S H.
Implicit Types (w : @World S H) (evs : list (@Event H)) (o : order).

Lemma fold_addU64 (l : list Z) c :
  GoInt.isU64 c ->
  fold_left (fun c n => GoInt.addU64 c (GoInt.wrapU64 n)) l c
  = GoInt.wrapU64 (c + foldr Z.add 0 l).
Proof.
  revert c. induction l as [|n l IH]; intros c Hc; simpl.
  - by rewrite Z.add_0_r, IntFacts.wrapU64_small.
  - rewrite IH.
    + rewrite IntFacts.addU64_wrap_r.
      unfold GoInt.wrapU64. rewrite Zplus_mod_idemp_l. f_equal. lia.
    + rewrite IntFacts.addU64_wrap_r. apply IntFacts.wrapU64_range.
Qed.

Lemma countFrom_total c evs :
  GoInt.isU64 c -> countFrom c evs = GoInt.wrapU64 (c + readTotal evs).
Proof. intros Hc. unfold countFrom, readTotal. by apply fold_addU64. Qed.

Lemma readTotal_nonneg evs : Forall okEvent evs -> 0 <= readTotal evs.
Proof.
  induction 1 as [|ev evs Hev _ IH]; [done|].
  change (ev :: evs) with ([ev] ++ evs). rewrite readTotal_app.
  destruct ev; unfold readTotal in *; simpl in *; lia.
Qed.

(** Without wrap-around the counter is the sum, and grows along the
    trace. *)
Lemma countFrom_exact c evs :
  GoInt.isU64 c -> Forall okEvent evs -> c + readTotal evs < 2 ^ 64 ->
  countFrom c evs = c + readTotal evs.
Proof.
  intros Hc Hok Hlt. rewrite countFrom_total by done.
  apply IntFacts.wrapU64_small. pose proof (readTotal_nonneg evs Hok).
  unfold GoInt.isU64 in *. lia.
Qed.

Lemma countFrom_prefix_le c evs1 evs2 :
  GoInt.isU64 c -> Forall okEvent (evs1 ++ evs2) ->
  c + readTotal (evs1 ++ evs2) < 2 ^ 64 ->
  countFrom c evs1 <= countFrom c (evs1 ++ evs2).
Proof.
  intros Hc Hok Hlt. pose proof Hok as [H1 H2]%Forall_app.
  pose proof (readTotal_nonneg _ H1). pose proof (readTotal_nonneg _ H2).
  rewrite readTotal_app in Hlt.
  rewrite !countFrom_exact; rewrite ?readTotal_app; auto; lia.
Qed.

Lemma Grows_refl w : Grows w w.
Proof. exists []. by rewrite app_nil_r. Qed.

Lemma Grows_trans w1 w2 w3 : Grows w1 w2 -> Grows w2 w3 -> Grows w1 w3.
Proof.
  intros (e1 & t1 & f1 & c1) (e2 & t2 & f2 & c2). exists (e1 ++ e2).
  repeat split.
  - by rewrite t2, t1, <- app_assoc.
  - by apply Forall_app.
  - by rewrite countFrom_app, <- c1.
Qed.

Lemma Evolves_Grows w w' : Evolves okEvent w w' -> Grows w w'.
Proof. intros [_ _ _ _ (evs & Ht & Hf & Hc & _)]. by exists evs. Qed.

Lemma slurperStep_grows o w : Grows w (slurperStep env o w).
Proof.
  pose proof (Evolves_Grows _ _ (slurp_evolves env o (started env o w))) as Hg.
  destruct (started_fields env o w) as (_ & Ht & Hc & _).
  assert (Hs : Grows w (started env o w)).
  { exists []. by rewrite app_nil_r, Ht, Hc. }
  destruct (slurp env o (started env o w)) as [[err|] w1] eqn:E; cbn [snd] in Hg.
  - rewrite (slurperStep_failed _ _ _ _ _ E).
    eapply Grows_trans; [exact Hs|]. destruct Hg as (evs & ? & ? & ?).
    by exists evs.
  - rewrite (slurperStep_done _ _ _ _ E).
    eapply Grows_trans; [exact Hs|]. destruct Hg as (evs & ? & ? & ?).
    by exists evs.
Qed.

Lemma slurper_grows orders w : Grows w (slurper env orders w).
Proof.
  revert w. induction orders as [|o orders IH]; intros w; simpl.
  - apply Grows_refl.
  - eapply Grows_trans; [apply slurperStep_grows | apply IH].
Qed.

Lemma readTotal_copy_body (wr : list byte -> @Event H) src :
  (forall p, readTotal [wr p] = 0) ->
  readTotal (copyTrace EvBodyRead wr src) = Z.of_nat (length (received src)).
Proof.
  intros Hwr. induction src as [|r src IH]; [done|].
  cbn [copyTrace received].
  change (?x :: ?l) with ([x] ++ l). rewrite !readTotal_app.
  assert (Hw : readTotal (if 0 <? Z.of_nat (length (rr_data r))
                          then [wr (rr_data r)] else []) = 0).
  { destruct (0 <? _); [apply Hwr | done]. }
  rewrite Hw, length_app.
  change (readTotal [EvBodyRead (Z.of_nat (length (rr_data r)))])
    with (Z.of_nat (length (rr_data r)) + 0).
  destruct (rr_err r); [unfold readTotal; simpl|rewrite IH]; lia.
Qed.

Lemma readTotal_copy_temp (wr : list byte -> @Event H) src :
  (forall p, readTotal [wr p] = 0) ->
  readTotal (copyTrace EvTempRead wr src) = 0.
Proof.
  intros Hwr. induction src as [|r src IH]; [done|].
  cbn [copyTrace].
  change (?x :: ?l) with ([x] ++ l). rewrite !readTotal_app.
  assert (Hw : readTotal (if 0 <? Z.of_nat (length (rr_data r))
                          then [wr (rr_data r)] else []) = 0).
  { destruct (0 <? _); [apply Hwr | done]. }
  rewrite Hw.
  change (readTotal [EvTempRead (Z.of_nat (length (rr_data r)))]) with 0.
  destruct (rr_err r); [done | rewrite IH; lia].
Qed.

(** A transfer that succeeds counts each byte it delivers to the sink
    once, also when the bytes went through the scratch file. *)
Lemma slurp_counts_once o w w' :
  slurp env o w = (None, w') ->
  readTotal (eventsSince (trace w) (trace w'))
  = Z.of_nat (length (sinkWritten (eventsSince (trace w) (trace w')))).
Proof.
  intros Hrun. unfold eventsSince.
  destruct (dryRun env) eqn:Hd.
  { rewrite slurp_dry in Hrun by done. injection Hrun as <-.
    by rewrite drop_all. }
  destruct (newRequest env (url o)) as [e|req] eqn:Hn.
  { by rewrite (slurp_badRequest env o w e) in Hrun. }
  destruct (env_do env (trace w) (sentRequest env o w req)) as [e|resp] eqn:Hdo.
  { by rewrite (slurp_noResponse env o w req e) in Hrun. }
  destruct (decide (StatusCode resp = StatusRequestedRangeNotSatisfiable)) as [H416|H416].
  { rewrite (slurp_416 env o w req resp) in Hrun by done.
    injection Hrun as <-. simpl. rewrite <- app_assoc.
    by rewrite drop_app_length. }
  destruct (decide (StatusCode resp = StatusOK \/ StatusCode resp = StatusPartialContent))
    as [Hs|Hs].
  2: { rewrite (slurp_badStatus env o w req resp) in Hrun by tauto. done. }
  destruct (slurp_accepted env o w req resp None w' Hd Hn Hdo Hs Hrun)
    as (evs & Ht & Hbuf & Hdir).
  rewrite Ht, drop_app_length.
  change (EvDo ?r :: evs) with ([@EvDo H r] ++ evs).
  rewrite readTotal_app, sinkWritten_app. simpl.
  destruct (viaTemp resp) eqn:Hv.
  - destruct (Hbuf eq_refl) as (_ & _ & Hok). destruct (Hok eq_refl) as [h ->].
    destruct (bufferedEvents_written (H:=H) (fullFilenameOf env o) resp h) as [_ ->].
    unfold bufferedEvents, bufferingEvents.
    change (EvTempFile :: ?l) with ([@EvTempFile H] ++ l).
    rewrite !readTotal_app, readTotal_copy_body, readTotal_copy_temp by done.
    unfold readTotal. simpl. lia.
  - destruct (Hdir eq_refl) as (rest & _ & _ & Hok). destruct (Hok eq_refl) as [h ->].
    destruct (directEvents_written (H:=H) (fullFilenameOf env o) resp h) as [-> _].
    unfold directEvents.
    change (openEvent ?f ?r :: ?l) with ([@openEvent H f r] ++ l).
    rewrite !readTotal_app, readTotal_copy_body by done.
    unfold openEvent, readTotal. destruct (_ =? _); simpl; lia.
Qed.

Lemma errorCount_slurperStep o w :
  GoInt.isU32 (errorCount w) -> GoInt.isU32 (errorCount (slurperStep env o w)).
Proof.
  intros Hr.
  pose proof (slurp_evolves env o (started env o w)) as [He _ _ _ _].
  destruct (started_fields env o w) as (_ & _ & _ & Hec & _).
  destruct (slurp env o (started env o w)) as [[err|] w1] eqn:E; cbn [snd] in He.
  - rewrite (slurperStep_failed _ _ _ _ _ E). simpl. apply IntFacts.wrapU32_range.
  - rewrite (slurperStep_done _ _ _ _ E). simpl. by rewrite He, Hec.
Qed.

Lemma errorCount_slurper orders w :
  GoInt.isU32 (errorCount w) -> GoInt.isU32 (errorCount (slurper env orders w)).
Proof.
  revert w. induction orders as [|o orders IH]; intros w Hr; simpl; auto.
  apply IH, errorCount_slurperStep, Hr.
Qed.

End CounterFacts.

Section ListingFacts.
Context {S H : Type}.
Variable env : @Env S H.

Lemma qualify_spec d fs files :
  qualify env d fs files
  = files ++ map (fun fn => d +:+ fn) (List.filter (keeps env) fs).
Proof.
  revert files. induction fs as [|fn fs IH]; intros files; simpl.
  - by rewrite app_nil_r.
  - unfold keeps at 1. destruct (GoStrings.Contains fn "/"); simpl; [apply IH|].
    destruct (matchString env fn); simpl; [|apply IH].
    rewrite IH. by rewrite <- app_assoc.
Qed.

Lemma resolve_spec urls listings files :
  Forall2 (fun d fs => env_list env d = inr fs) urls listings ->
  resolve env urls files
  = inr (files ++ concat (zip_with (qualified env) urls listings)).
Proof.
  intros Hl. revert files.
  induction Hl as [|d fs urls listings Hd _ IH]; intros files; simpl.
  - by rewrite app_nil_r.
  - rewrite Hd, IH, qualify_spec. unfold qualified. by rewrite <- app_assoc.
Qed.

Lemma dropS_append (s t : string) : GoStrings.dropS (String.length s) (s +:+ t) = t.
Proof. induction s as [|c s IH]; simpl; [by destruct t | exact IH]. Qed.

Lemma HasSuffix_append (s t : string) : GoStrings.HasSuffix (s +:+ t) t = true.
Proof.
  unfold GoStrings.HasSuffix. rewrite length_append.
  apply andb_true_iff. split.
  - apply Nat.leb_le. lia.
  - replace (String.length s + String.length t - String.length t)%nat
      with (String.length s) by lia.
    rewrite dropS_append. apply String.eqb_refl.
Qed.

Lemma withSlash_spec d :
  GoStrings.HasSuffix (withSlash d) "/" = true
  /\ (withSlash d = d \/ withSlash d = d +:+ "/").
Proof.
  unfold withSlash. destruct (GoStrings.HasSuffix d "/") eqn:E; simpl.
  - auto.
  - split; [apply HasSuffix_append | auto].
Qed.

Lemma elem_of_qualified d fs addr :
  addr ∈ qualified env d fs
  <-> exists fn, fn ∈ fs
                 /\ GoStrings.Contains fn "/" = false
                 /\ matchString env fn = true
                 /\ addr = withSlash d +:+ fn.
Proof.
  unfold qualified. rewrite list_elem_of_fmap. split.
  - intros (fn & -> & Hin). exists fn.
    apply list_elem_of_In, List.filter_In in Hin as [Hin Hk].
    unfold keeps in Hk. apply andb_true_iff in Hk as [Hc Hm].
    apply negb_true_iff in Hc. by rewrite list_elem_of_In.
  - intros (fn & Hin & Hc & Hm & ->). exists fn. split; [done|].
    apply list_elem_of_In, List.filter_In. split; [by apply list_elem_of_In|].
    unfold keeps. by rewrite Hc, Hm.
Qed.

End ListingFacts.

(** * The claims *)

Section Claims.
Context {S H : Type} `{!FileOut S H}.
Variable env : @Env S H.
Implicit Types (w : @World S H) (evs : list (@Event H)) (o : order).

(** C8. When the request of an order is answered with status 416, [slurp]
    returns nil after the request and the closing of the body and nothing
    else: no [Create], no [Append], no write, no scratch file; the sink's
    store, and with it the size [os.Stat] reports for every path, is what it
    was, and so is the byte counter. The worker reports the order like a
    finished download: one [fileDone] message, no log line of failure, the
    error count unchanged. *)
Theorem C8_not_satisfiable_leaves_destination o w req resp :
  dryRun env = false ->
  newRequest env (url o) = inr req ->
  env_do env (trace w) (sentRequest env o w req) = inr resp ->
  StatusCode resp = StatusRequestedRangeNotSatisfiable ->
  let w' := (slurp env o w).2 in
  (slurp env o w).1 = None
  /\ trace w' = trace w ++ [EvDo (sentRequest env o w req); EvBodyClose]
  /\ Forall (fun ev => touchesSink ev = false /\ usesTemp ev = false)
            (eventsSince (trace w) (trace w'))
  /\ sink w' = sink w
  /\ (forall fn, env_stat env (sink w') fn = env_stat env (sink w) fn)
  /\ scratch w' = scratch w
  /\ counter w' = counter w
  /\ sends (slurperStep env o w) = sends w ++ [(ui o, msgFileDone (url o))]
  /\ errorCount (slurperStep env o w) = errorCount w
  /\ failures (slurperStep env o w) = failures w.
Proof.
  intros Hd Hn Hdo Hs w'.
  assert (Hrun : slurp env o w
                 = (None, emit EvBodyClose (emit (EvDo (sentRequest env o w req)) w)))
    by (by apply slurp_416 with resp).
  assert (Htr : trace w' = trace w ++ [EvDo (sentRequest env o w req); EvBodyClose]).
  { unfold w'. rewrite Hrun. simpl. by rewrite <- app_assoc. }
  destruct (started_fields env o w) as (_ & _ & _ & He & Hsd & _).
  assert (Hstep : slurp env o (started env o w)
                  = (None, emit EvBodyClose
                             (emit (EvDo (sentRequest env o w req))
                                (started env o w)))).
  { rewrite <- (sentRequest_started env o w req).
    apply slurp_416 with resp; auto.
    by rewrite trace_started, sentRequest_started. }
  repeat split.
  - by rewrite Hrun.
  - exact Htr.
  - unfold eventsSince. rewrite Htr, drop_app_length. by repeat constructor.
  - unfold w'. by rewrite Hrun.
  - intros fn. unfold w'. by rewrite Hrun.
  - unfold w'. by rewrite Hrun.
  - unfold w'. by rewrite Hrun.
  - rewrite (slurperStep_done _ _ _ _ Hstep). simpl. by rewrite Hsd.
  - rewrite (slurperStep_done _ _ _ _ Hstep). simpl. exact He.
  - rewrite (slurperStep_done _ _ _ _ Hstep). unfold failures. simpl.
    apply (failures_started env o w).
Qed.

(** C9. The worker sends a [fileDone] message for an order exactly when
    [slurp] returns nil for it, and the message carries nothing but the
    address of the order. So an order answered with 416 and every order of
    a dry run are reported by the very message of a finished download, and
    each counts as one file done. *)
Theorem C9_fileDone_iff_no_error o w :
  let r := (slurp env o (started env o w)).1 in
  (r = None <->
   sends (slurperStep env o w) = sends w ++ [(ui o, msgFileDone (url o))])
  /\ (r <> None -> sends (slurperStep env o w) = sends w)
  /\ (r = None -> dones (slurperStep env o w) = Datatypes.S (dones w))
  /\ (dryRun env = true -> r = None)
  /\ (forall req resp,
        dryRun env = false ->
        newRequest env (url o) = inr req ->
        env_do env (trace w) (sentRequest env o w req) = inr resp ->
        StatusCode resp = StatusRequestedRangeNotSatisfiable ->
        r = None).
Proof.
  intros r. unfold r.
  pose proof (slurp_evolves env o (started env o w)) as [_ Hs _ _ _].
  destruct (started_fields env o w) as (Hsk & Htc & _ & _ & Hsd & _).
  assert (Hne : forall (l : list (chan * uiMsg)) x, l ++ [x] <> l).
  { intros l x Hl. apply (f_equal length) in Hl. rewrite length_app in Hl.
    simpl in Hl. lia. }
  repeat split.
  - intros Hr. destruct (slurp env o (started env o w)) as [r' w1] eqn:E.
    simpl in Hr, Hs. subst r'. rewrite (slurperStep_done _ _ _ _ E). simpl.
    by rewrite Hs, Hsd.
  - intros Hsend. destruct (slurp env o (started env o w)) as [[err|] w1] eqn:E;
      [|done]. simpl in Hs.
    rewrite (slurperStep_failed _ _ _ _ _ E) in Hsend. simpl in Hsend.
    rewrite Hs, Hsd in Hsend. symmetry in Hsend. by apply Hne in Hsend.
  - intros Hr. destruct (slurp env o (started env o w)) as [[err|] w1] eqn:E;
      [|done]. simpl in Hs.
    rewrite (slurperStep_failed _ _ _ _ _ E). simpl. by rewrite Hs, Hsd.
  - intros Hr. destruct (slurp env o (started env o w)) as [r' w1] eqn:E.
    simpl in Hr, Hs. subst r'. rewrite (slurperStep_done _ _ _ _ E).
    unfold dones. simpl. rewrite Hs, Hsd, List.filter_app, length_app.
    simpl. lia.
  - intros Hd. by rewrite slurp_dry.
  - intros req resp Hd Hn Hdo H416.
    erewrite slurp_416; eauto.
    by rewrite trace_started, sentRequest_started.
Qed.

(** C2. When [slurp] sends the request of an order (no dry run, and the
    request could be built), it sends exactly one, a GET for the address of
    the order with the user agent of the program, and that request has the
    header [Range: bytes=S-] if and only if the sink has partial writes and
    [os.Stat] finds the destination, with size [S]; it has no [Range] header
    at all if and only if the sink has no partial writes or [os.Stat] does
    not find the destination. *)
Theorem C2_range_header_iff_resumable o w req :
  dryRun env = false ->
  newRequest env (url o) = inr req ->
  exists sent rest,
    trace (slurp env o w).2 = trace w ++ EvDo sent :: rest
    /\ Forall (fun ev => isDo ev = false) rest
    /\ req_method sent = "GET"
    /\ req_url sent = url o
    /\ req_header sent !! "User-Agent" = Some "rslurp 0.1"
    /\ (forall size,
          req_header sent !! "Range" = Some (rangeFrom size)
          <-> HasPartial = true
              /\ env_stat env (sink w) (fullFilenameOf env o) = Some size)
    /\ (req_header sent !! "Range" = None
        <-> HasPartial = false
            \/ env_stat env (sink w) (fullFilenameOf env o) = None).
Proof.
  intros Hd Hn.
  destruct (slurp_events env o w req Hd Hn) as (evs & Ht & Hf).
  exists (sentRequest env o w req), evs.
  split; [exact Ht|]. split.
  { eapply Forall_impl; [exact Hf|]. by intros ev [? _]. }
  assert (Hreq : req = mkRequest "GET" (url o) (<["User-Agent" := "rslurp 0.1"]> ∅)).
  { unfold newRequest in Hn. destruct (env_newRequest env (url o)); congruence. }
  subst req.
  set (base := <["User-Agent" := "rslurp 0.1"]> (∅ : gmap string string)).
  assert (Hua : base !! "User-Agent" = Some "rslurp 0.1")
    by apply lookup_insert_eq.
  assert (Hnone : base !! "Range" = None).
  { unfold base. rewrite lookup_insert_ne by done. apply lookup_empty. }
  unfold sentRequest.
  destruct HasPartial;
    [destruct (env_stat env (sink w) (fullFilenameOf env o)) as [size0|]|];
    cbn [setHeader req_method req_url req_header]; fold base.
  - split; [done|]. split; [done|]. split.
    { by rewrite lookup_insert_ne. }
    rewrite lookup_insert_eq. split.
    + intros size. split.
      * intros Heq. assert (Hr : rangeFrom size0 = rangeFrom size) by congruence.
        by apply rangeFrom_inj in Hr as ->.
      * by intros [_ [= ->]].
    + split; [done|]. intros [|]; discriminate.
  - split; [done|]. split; [done|]. split; [done|].
    rewrite Hnone. split.
    + intros size. split; [done|]. intros [_ ?]. discriminate.
    + split; [by right | done].
  - split; [done|]. split; [done|]. split; [done|].
    rewrite Hnone. split.
    + intros size. split; [done|]. intros [? _]. discriminate.
    + split; [by left | done].
Qed.


End Claims.

Section TransferClaims.
Context {S H : Type} `{!FileOut S H}.
Variable env : @Env S H.
Implicit Types (w : @World S H) (evs : list (@Event H)) (o : order).

(** C1, as the code has it. The answer's status decides what [slurp] does
    after the request. 200: the destination is opened by [Create] and never
    by [Append]. 206: the destination is opened by [Append] when the body
    is streamed directly (the sink takes any size, or the length is
    declared); when the sink needs the size and no length is declared, the
    body is buffered first and the destination is then opened by [Create],
    never by [Append], as for 200. On the direct way the opening call is
    the first call after the request; on the buffered way it comes after
    the whole body is in the scratch file, so not at all if buffering
    fails. 416: [slurp] returns nil with no call to the sink and the store
    unchanged. Any other status: [slurp] returns the status error, with no
    call to the sink and the store unchanged. *)
Theorem C1_status_decides_action o w req resp r w' :
  dryRun env = false ->
  newRequest env (url o) = inr req ->
  env_do env (trace w) (sentRequest env o w req) = inr resp ->
  slurp env o w = (r, w') ->
  let full := fullFilenameOf env o in
  let buffered evs :=
    Forall (fun ev => isAppend ev = false) evs
    /\ (Forall (fun ev => touchesSink ev = false) evs
        \/ exists rest,
            evs = bufferingEvents full resp ++ rest
            /\ Forall (fun ev => opensSink ev = false) rest) in
  exists evs,
    trace w' = trace w ++ EvDo (sentRequest env o w req) :: evs
    /\ (StatusCode resp = StatusOK ->
        Forall (fun ev => isAppend ev = false) evs
        /\ (viaTemp resp = false ->
            exists rest,
              evs = EvCreate full (ContentLength resp) :: rest
              /\ Forall (fun ev => opensSink ev = false) rest)
        /\ (viaTemp resp = true -> buffered evs))
    /\ (StatusCode resp = StatusPartialContent ->
        (viaTemp resp = false ->
         exists rest,
           evs = EvAppend full (ContentLength resp) :: rest
           /\ Forall (fun ev => opensSink ev = false) rest)
        /\ (viaTemp resp = true -> buffered evs))
    /\ (StatusCode resp = StatusRequestedRangeNotSatisfiable ->
        r = None /\ evs = [EvBodyClose] /\ sink w' = sink w)
    /\ (StatusCode resp <> StatusOK ->
        StatusCode resp <> StatusPartialContent ->
        StatusCode resp <> StatusRequestedRangeNotSatisfiable ->
        r = Some (ErrStatus (url o) (StatusCode resp))
        /\ evs = [EvBodyClose] /\ sink w' = sink w).
Proof.
  intros Hd Hn Hdo Hrun full buffered.
  assert (Hbuffered : forall evs,
            (viaTemp resp = true ->
             Forall (fun ev => isAppend ev = false) evs
             /\ (Forall (fun ev => touchesSink ev = false) evs
                 \/ exists rest,
                     evs = bufferingEvents full resp ++ rest
                     /\ Forall (fun ev => opensSink ev = false) rest)
             /\ (r = None -> exists h, evs = bufferedEvents full resp h)) ->
            viaTemp resp = true -> buffered evs).
  { intros evs Hb Hv. destruct (Hb Hv) as (? & ? & _). by split. }
  assert (Hdirect : forall evs,
            (viaTemp resp = false ->
             exists rest,
               evs = openEvent full resp :: rest
               /\ Forall (fun ev => usesTemp ev = false /\ opensSink ev = false) rest
               /\ (r = None -> exists h, evs = directEvents full resp h)) ->
            viaTemp resp = false ->
            exists rest,
              evs = openEvent full resp :: rest
              /\ Forall (fun ev => opensSink ev = false) rest).
  { intros evs Hdir Hv. destruct (Hdir Hv) as (rest & -> & Hrest & _).
    exists rest. split; [done|].
    eapply Forall_impl; [exact Hrest|]. by intros ev [_ ?]. }
  destruct (decide (StatusCode resp = StatusRequestedRangeNotSatisfiable)) as [H416|H416].
  { rewrite (slurp_416 env o w req resp Hd Hn Hdo H416) in Hrun.
    injection Hrun as <- <-. exists [EvBodyClose]. simpl. rewrite <- app_assoc.
    unfold StatusOK, StatusPartialContent, StatusRequestedRangeNotSatisfiable in *.
    split; [done|]. split; [intros; lia|]. split; [intros; lia|].
    split; [done | intros; lia]. }
  destruct (decide (StatusCode resp = StatusOK)) as [H200|H200].
  { destruct (slurp_accepted env o w req resp r w' Hd Hn Hdo (or_introl H200) Hrun)
      as (evs & Ht & Hbuf & Hdir).
    assert (Hopen : openEvent full resp = @EvCreate H full (ContentLength resp)).
    { unfold openEvent, StatusPartialContent. unfold StatusOK in H200.
      by rewrite H200. }
    exists evs. split; [exact Ht|].
    split; [intros _ | split; [|split]];
      try (unfold StatusOK, StatusPartialContent,
             StatusRequestedRangeNotSatisfiable in *; intros; lia).
    split; [|split].
    - destruct (viaTemp resp) eqn:Hv.
      + by destruct (Hbuf eq_refl) as (? & _).
      + destruct (Hdirect evs Hdir eq_refl) as (rest & -> & Hrest).
        rewrite Hopen. constructor; [done|].
        eapply Forall_impl; [exact Hrest|]. intros ev Ho.
        destruct ev; simpl in *; congruence.
    - intros Hv. rewrite <- Hopen. by apply Hdirect.
    - by apply Hbuffered. }
  destruct (decide (StatusCode resp = StatusPartialContent)) as [H206|H206].
  { destruct (slurp_accepted env o w req resp r w' Hd Hn Hdo (or_intror H206) Hrun)
      as (evs & Ht & Hbuf & Hdir).
    assert (Hopen : openEvent full resp = @EvAppend H full (ContentLength resp)).
    { unfold openEvent. rewrite H206. reflexivity. }
    exists evs. split; [exact Ht|].
    split; [|split; [intros _|split]];
      try (unfold StatusOK, StatusPartialContent,
             StatusRequestedRangeNotSatisfiable in *; intros; lia).
    split.
    - intros Hv. rewrite <- Hopen. by apply Hdirect.
    - by apply Hbuffered. }
  rewrite (slurp_badStatus env o w req resp Hd Hn Hdo H200 H206 H416) in Hrun.
  injection Hrun as <- <-. exists [EvBodyClose]. simpl. rewrite <- app_assoc.
  split; [done|]. split; [done|]. split; [done|]. split; [done|]. done.
Qed.

(** C3. After a 200 or a 206: when the sink needs the size beforehand and
    the answer declares no length, [slurp] never appends, and the sink is
    not reached before the whole body has been read into the scratch file:
    either no call reaches the sink at all (the buffering failed), or the
    events start with the buffering and the [Create] of the destination
    with the measured length, and nothing after opens a destination; that
    [Create] is the only opening call. When the transfer succeeds its events
    are exactly: scratch file, body into scratch file, seek, [Create] with
    the measured length, scratch file into the sink's writer, the closing
    calls; the bytes written to the scratch file and the bytes written to
    the sink are both the received body. In every other case the first call
    after the request opens the destination with the declared length, no
    scratch file is used, and when the transfer succeeds every read of the
    body is followed by its write to the sink's writer. The measured length
    is the number of bytes received, as an [int64]. *)
Theorem C3_unknown_size_goes_through_scratch o w req resp r w' :
  dryRun env = false ->
  newRequest env (url o) = inr req ->
  env_do env (trace w) (sentRequest env o w req) = inr resp ->
  StatusCode resp = StatusOK \/ StatusCode resp = StatusPartialContent ->
  slurp env o w = (r, w') ->
  let full := fullFilenameOf env o in
  let measured := GoInt.wrapS64 (Z.of_nat (length (received (Body resp)))) in
  exists evs,
    trace w' = trace w ++ EvDo (sentRequest env o w req) :: evs
    /\ (FixedSizeOnly = true /\ ContentLength resp < 0 ->
        Forall (fun ev => isAppend ev = false) evs
        /\ (Forall (fun ev => touchesSink ev = false) evs
            \/ exists rest,
                evs = bufferingEvents full resp ++ rest
                /\ Forall (fun ev => opensSink ev = false) rest)
        /\ (forall ev, ev ∈ evs -> opensSink ev = true ->
                       ev = EvCreate full measured)
        /\ (r = None ->
            exists h,
              evs = bufferedEvents full resp h
              /\ tempWritten evs = received (Body resp)
              /\ sinkWritten evs = received (Body resp)))
    /\ (~ (FixedSizeOnly = true /\ ContentLength resp < 0) ->
        exists rest,
          evs = openEvent full resp :: rest
          /\ Forall (fun ev => usesTemp ev = false /\ opensSink ev = false) rest
          /\ (r = None ->
              exists h,
                evs = directEvents full resp h
                /\ sinkWritten evs = received (Body resp)))
    /\ (Z.of_nat (length (received (Body resp))) < 2 ^ 63 ->
        measured = Z.of_nat (length (received (Body resp)))).
Proof.
  intros Hd Hn Hdo Hs Hrun full measured.
  destruct (slurp_accepted env o w req resp r w' Hd Hn Hdo Hs Hrun)
    as (evs & Ht & Hbuf & Hdir).
  assert (Hvia : viaTemp resp = true <-> FixedSizeOnly = true /\ ContentLength resp < 0).
  { unfold viaTemp. rewrite andb_true_iff, Z.ltb_lt. reflexivity. }
  exists evs. split; [exact Ht|]. split; [|split].
  - intros Hc. apply Hvia in Hc. destruct (Hbuf Hc) as (Hna & Hshape & Hok).
    split; [exact Hna|]. split; [exact Hshape|]. split.
    + intros ev Hin Hopen.
      destruct Hshape as [Hquiet|(rest & -> & Hrest)].
      * rewrite Forall_forall in Hquiet. apply Hquiet in Hin.
        destruct ev; simpl in *; congruence.
      * apply elem_of_app in Hin as [Hin|Hin].
        -- by apply (bufferingEvents_open full resp).
        -- rewrite Forall_forall in Hrest. apply Hrest in Hin. congruence.
    + intros Hr. destruct (Hok Hr) as [h ->]. exists h.
      split; [done|]. apply bufferedEvents_written.
  - intros Hc. assert (Hv : viaTemp resp = false).
    { destruct (viaTemp resp); [|done]. exfalso. apply Hc. by apply Hvia. }
    destruct (Hdir Hv) as (rest & -> & Hrest & Hok).
    exists rest. split; [done|]. split; [exact Hrest|].
    intros Hr. destruct (Hok Hr) as [h Heq]. exists h. rewrite Heq.
    split; [done|]. apply directEvents_written.
  - intros Hlt. apply IntFacts.wrapS64_small. unfold GoInt.isS64. lia.
Qed.

End TransferClaims.

Section WorkerClaims.
Context {S H : Type} `{!FileOut S H}.
Variable env : @Env S H.
Implicit Types (w : @World S H) (evs : list (@Event H)) (o : order).

(** C4, as the code has it. When [slurp] returns an error for an order,
    the worker writes one line to the log, made of the last element of the
    order's address (not the address) and the error, adds one to the error
    count ([uint32]), sends no [fileDone] message, and goes on with the
    orders that follow from the state the failed order left. Whatever
    fails, a worker reports each of its orders once, and so does every
    worker of a pool. *)
Theorem C4_failed_order_is_logged_and_counted pre o post w err w1 :
  slurp env o (started env o (slurper env pre w)) = (Some err, w1) ->
  let before := slurper env pre w in
  let after := slurperStep env o before in
  logs after = logs (started env o before) ++ [failedLine o err]
  /\ failedLine o err
     = "Failed downloading " +:+ GoFmt.q (GoPath.Base (url o)) +:+ ": "
       +:+ errorString err
  /\ failures after = Datatypes.S (failures before)
  /\ errorCount after = GoInt.addU32 (errorCount before) 1
  /\ (0 <= errorCount before -> errorCount before + 1 < 2 ^ 32 ->
      errorCount after = errorCount before + 1)
  /\ sends after = sends before
  /\ slurper env (pre ++ o :: post) w = slurper env post after
  /\ (failures (slurper env (pre ++ o :: post) w)
      + dones (slurper env (pre ++ o :: post) w)
      = failures after + dones after + length post)%nat
  /\ (forall shares w0,
        (failures (pool env shares w0) + dones (pool env shares w0)
         = failures w0 + dones w0 + length (concat shares))%nat).
Proof.
  intros Hrun. cbv zeta.
  set (before := slurper env pre w) in *.
  set (after := slurperStep env o before).
  pose proof (slurp_evolves env o (started env o before)) as [He Hs Hl _ _].
  rewrite Hrun in He, Hs, Hl. cbn [snd] in He, Hs, Hl.
  destruct (started_fields env o before) as (_ & _ & _ & Hec & Hsd & _).
  assert (Hafter : after = setErrorCount (GoInt.addU32 (errorCount w1) 1)
                             (logPrint (failedLine o err) w1)).
  { unfold after. by apply slurperStep_failed. }
  assert (Hloop : slurper env (pre ++ o :: post) w = slurper env post after).
  { by rewrite slurper_app. }
  split; [|split; [|split; [|split; [|split; [|split; [|split; [|split]]]]]]].
  - rewrite Hafter. simpl. by rewrite Hl.
  - reflexivity.
  - rewrite Hafter. unfold failures. cbn [logs setErrorCount logPrint].
    rewrite List.filter_app, length_app. cbn [List.filter].
    rewrite isFailedLine_failedLine, Hl. simpl.
    pose proof (failures_started env o before) as Hf. unfold failures in Hf.
    rewrite Hf. lia.
  - rewrite Hafter. simpl. by rewrite He, Hec.
  - intros H0 Hlt. rewrite Hafter. simpl. rewrite He, Hec.
    apply IntFacts.addU32_small; [unfold GoInt.isU32; lia | done].
  - rewrite Hafter. simpl. by rewrite Hs, Hsd.
  - exact Hloop.
  - rewrite Hloop. apply slurper_reports.
  - intros shares w0. apply pool_reports.
Qed.

(** C7, as the code has it. Along the run of a worker, every change of
    the byte counter is the addition, modulo 2^64, of the number of bytes
    a read of a response body has just delivered, a number that is never
    negative; the counter ends at its first value plus the bytes read,
    modulo 2^64. As long as that sum stays below 2^64, the counter never
    decreases: not between two points of the trace, and not between two
    orders. A transfer that succeeds counts as many bytes as it delivers
    to the sink, also when the bytes went through the scratch file. *)
Theorem C7_counter_grows_until_it_wraps orders w evs :
  GoInt.isU64 (counter w) ->
  trace (slurper env orders w) = trace w ++ evs ->
  Forall okEvent evs
  /\ counter (slurper env orders w) = countFrom (counter w) evs
  /\ counter (slurper env orders w) = GoInt.wrapU64 (counter w + readTotal evs)
  /\ (counter w + readTotal evs < 2 ^ 64 ->
      forall p1 p2 rest,
        evs = p1 ++ p2 ++ rest ->
        countFrom (counter w) p1 <= countFrom (counter w) (p1 ++ p2))
  /\ (counter w + readTotal evs < 2 ^ 64 ->
      forall pre post,
        orders = pre ++ post ->
        counter (slurper env pre w) <= counter (slurper env orders w))
  /\ (forall o w0 w1,
        slurp env o w0 = (None, w1) ->
        readTotal (eventsSince (trace w0) (trace w1))
        = Z.of_nat (length (sinkWritten (eventsSince (trace w0) (trace w1))))).
Proof.
  intros Hc Ht.
  destruct (slurper_grows env orders w) as (evs' & Ht' & Hok & Hcount).
  assert (evs' = evs) as -> by (rewrite Ht in Ht'; by apply app_inv_head in Ht').
  split; [exact Hok|]. split; [exact Hcount|].
  split; [by rewrite Hcount, countFrom_total|].
  split; [|split].
  - intros Hlt p1 p2 rest ->.
    rewrite app_assoc in Hok, Hlt.
    apply Forall_app in Hok as [Hok12 Hok3].
    rewrite readTotal_app in Hlt. pose proof (readTotal_nonneg _ Hok3).
    apply countFrom_prefix_le; auto. lia.
  - intros Hlt pre post ->.
    destruct (slurper_grows env pre w) as (e1 & T1 & O1 & C1).
    destruct (slurper_grows env post (slurper env pre w)) as (e2 & T2 & O2 & C2).
    rewrite slurper_app in Ht, Hcount |- *.
    assert (evs = e1 ++ e2) as ->.
    { rewrite T2, T1, <- app_assoc in Ht. by apply app_inv_head in Ht. }
    rewrite Hcount, C1. apply countFrom_prefix_le; auto.
  - intros o w0 w1. apply slurp_counts_once.
Qed.

(** C5. When the run comes to its end (the listing pages were read and
    [downloadFiles] returned), the exit status is 0 and nothing is printed
    if the error count is zero; if it is not zero, the line
    [Number of errors: n] is printed and the exit status is 1. *)
Theorem C5_exit_status_from_error_count args w wd :
  GoInt.isU32 (errorCount w) ->
  (tarOut env = true -> env_tarCreate env = None) ->
  args <> [] ->
  downloadDirs env args w = Some (None, wd) ->
  (errorCount wd = 0 ->
   exists w', main env args w = Some (0, w') /\ stdout w' = stdout wd)
  /\ (errorCount wd <> 0 ->
      exists w', main env args w = Some (1, w')
                 /\ stdout w' = stdout wd ++ [errorsLine (errorCount wd)])
  /\ errorsLine (errorCount wd)
     = "Number of errors: " +:+ pretty (errorCount wd) +:+ GoFmt.newline.
Proof.
  intros Hr Htar Hargs Hdl.
  assert (Hrange : GoInt.isU32 (errorCount wd)).
  { unfold downloadDirs in Hdl.
    destruct (resolve env args []) as [e|files]; [discriminate|].
    unfold downloadFiles in Hdl. destruct (0 <? numWorkers env); [|discriminate].
    injection Hdl as <-. simpl. by apply errorCount_slurper. }
  assert (Hmain : main env args w
                  = if 0 <? errorCount wd
                    then Some (1, printOut (errorsLine (errorCount wd)) wd)
                    else Some (0, setSink (CloseSink (sink wd)) wd)).
  { unfold main.
    assert (Ht : (if tarOut env then env_tarCreate env else None) = None).
    { destruct (tarOut env); [by apply Htar | done]. }
    rewrite Ht. destruct args as [|a args]; [done|]. by rewrite Hdl. }
  split; [|split].
  - intros H0. rewrite Hmain, H0. simpl. eauto.
  - intros Hne. rewrite Hmain.
    assert (Hpos : (0 <? errorCount wd) = true).
    { apply Z.ltb_lt. unfold GoInt.isU32 in Hrange. lia. }
    rewrite Hpos. eauto.
  - reflexivity.
Qed.

(** C6. The links of the listing pages are resolved page by page, in
    order: a link becomes a download address if and only if it has no
    slash in it and the filter matches it, and its address is the address
    of the page, with a slash added at the end unless there is one,
    followed by the link. *)
Theorem C6_links_without_slash_that_match urls listings :
  Forall2 (fun d fs => env_list env d = inr fs) urls listings ->
  resolve env urls [] = inr (concat (zip_with (qualified env) urls listings))
  /\ (forall d fs addr,
        addr ∈ qualified env d fs
        <-> exists fn, fn ∈ fs
                       /\ GoStrings.Contains fn "/" = false
                       /\ matchString env fn = true
                       /\ addr = withSlash d +:+ fn)
  /\ (forall d fs fn,
        fn ∈ fs ->
        (withSlash d +:+ fn ∈ qualified env d fs
         <-> GoStrings.Contains fn "/" = false /\ matchString env fn = true))
  /\ (forall d,
        GoStrings.HasSuffix (withSlash d) "/" = true
        /\ (withSlash d = d \/ withSlash d = d +:+ "/")).
Proof.
  intros Hl. split; [|split; [|split]].
  - by rewrite (resolve_spec env urls listings []).
  - intros d fs addr. apply elem_of_qualified.
  - intros d fs fn Hin. rewrite elem_of_qualified. split.
    + intros (fn' & _ & Hc & Hm & Heq). apply String.app_inj in Heq. by subst fn'.
    + intros [Hc Hm]. by exists fn.
  - apply withSlash_spec.
Qed.

End WorkerClaims.

(** * The claims on concrete runs *)

Section DirectRuns.
Import Scenario.
#[local] Existing Instance DirectSink.fileOut.

(** C1 on a run: a 206 on a sink that streams; the first call after the
    request is [Append]. *)
Lemma C1_witness :
  let env := directEnv (inr partial206) in
  let w := worldOf halfDone 0 in
  dryRun env = false
  /\ newRequest env (url a_txt) = inr req_a_txt
  /\ env_do env (trace w) (sentRequest env a_txt w req_a_txt) = inr partial206
  /\ exists evs rest,
      trace (slurp env a_txt w).2
      = trace w ++ EvDo (sentRequest env a_txt w req_a_txt) :: evs
      /\ evs = EvAppend "a.txt" (-1) :: rest.
Proof.
  intros env w. split; [reflexivity|]. split; [reflexivity|].
  split; [reflexivity|].
  destruct (C1_status_decides_action env a_txt w req_a_txt partial206
              (slurp env a_txt w).1 (slurp env a_txt w).2
              eq_refl eq_refl eq_refl (surjective_pairing _))
    as (evs & Ht & _ & H206 & _).
  destruct H206 as [Hdir _]; [reflexivity|].
  destruct Hdir as (rest & Hevs & _); [reflexivity|].
  exists evs, rest. split; [exact Ht | exact Hevs].
Defined.

(** C2 on a run: a file of two bytes is there, and the request asks for
    the bytes from 2 on. *)
Lemma C2_witness :
  let env := directEnv (inr partial206) in
  let w := worldOf halfDone 0 in
  dryRun env = false
  /\ newRequest env (url a_txt) = inr req_a_txt
  /\ exists sent rest,
      trace (slurp env a_txt w).2 = trace w ++ EvDo sent :: rest
      /\ req_header sent !! "Range" = Some "bytes=2-".
Proof.
  intros env w. split; [reflexivity|]. split; [reflexivity|].
  destruct (C2_range_header_iff_resumable env a_txt w req_a_txt eq_refl eq_refl)
    as (sent & rest & Ht & _ & _ & _ & _ & Hrange & _).
  exists sent, rest. split; [exact Ht|].
  apply (Hrange 2). split; reflexivity.
Defined.

(** C4 on a run: the first order, with a body that breaks off, fails; the
    order after it is handled all the same. *)
Lemma C4_witness :
  let env := directEnv (inr broken200) in
  let w := worldOf ∅ 0 in
  let err := ErrExt "unexpected EOF" in
  let w1 := (slurp env a_txt (started env a_txt (slurper env [] w))).2 in
  slurp env a_txt (started env a_txt (slurper env [] w)) = (Some err, w1)
  /\ errorCount (slurperStep env a_txt (slurper env [] w)) = 1
  /\ slurper env ([] ++ a_txt :: [other_a_txt]) w
     = slurper env [other_a_txt] (slurperStep env a_txt (slurper env [] w)).
Proof.
  intros env w err w1.
  assert (Hrun : slurp env a_txt (started env a_txt (slurper env [] w))
                 = (Some err, w1)) by (vm_compute; reflexivity).
  split; [exact Hrun|].
  destruct (C4_failed_order_is_logged_and_counted env [] a_txt [other_a_txt]
              w err w1 Hrun)
    as (_ & _ & _ & _ & Hcount & _ & Hloop & _).
  split; [|exact Hloop].
  apply Hcount; simpl; lia.
Defined.

(** C5 on a run: two files, both not found; the run ends with status 1. *)
Lemma C5_witness :
  let env := directEnv (inr missing404) in
  let w := worldOf ∅ 0 in
  let args := ["http://example/dir/"] in
  let wd := match downloadDirs env args w with
            | Some (_, wd) => wd
            | None => w
            end in
  GoInt.isU32 (errorCount w)
  /\ args <> []
  /\ downloadDirs env args w = Some (None, wd)
  /\ errorCount wd = 2
  /\ exists w', main env args w = Some (1, w').
Proof.
  intros env w args wd.
  assert (Hr : GoInt.isU32 (errorCount w)) by (unfold GoInt.isU32; simpl; lia).
  assert (Ha : args <> []) by discriminate.
  assert (Hdl : downloadDirs env args w = Some (None, wd))
    by (vm_compute; reflexivity).
  assert (He : errorCount wd = 2) by (vm_compute; reflexivity).
  split; [exact Hr|]. split; [exact Ha|]. split; [exact Hdl|].
  split; [exact He|].
  destruct (C5_exit_status_from_error_count env args w wd Hr
              (fun H => eq_refl) Ha Hdl) as (_ & Hne & _).
  destruct Hne as (w' & Hmain & _); [rewrite He; discriminate|].
  by exists w'.
Defined.

(** C6 on the scenario of the spec: the page lists two files and a link
    into a subdirectory. *)
Lemma C6_witness :
  let env := directEnv (inr ok200) in
  Forall2 (fun d fs => env_list env d = inr fs)
    ["http://example/dir/"] [["a.txt"; "b.txt"; "sub/c.txt"]]
  /\ resolve env ["http://example/dir/"] []
     = inr ["http://example/dir/a.txt"; "http://example/dir/b.txt"].
Proof.
  intros env.
  assert (Hl : Forall2 (fun d fs => env_list env d = inr fs)
                 ["http://example/dir/"] [["a.txt"; "b.txt"; "sub/c.txt"]]).
  { constructor; [reflexivity | constructor]. }
  split; [exact Hl|].
  destruct (C6_links_without_slash_that_match env _ _ Hl) as [Hres _].
  rewrite Hres. reflexivity.
Defined.

(** C7 on a run: two files of three bytes; the counter goes from 0 to 6. *)
Lemma C7_witness :
  let env := directEnv (inr ok200) in
  let w := worldOf ∅ 0 in
  let orders := [a_txt; other_a_txt] in
  let evs := trace (slurper env orders w) in
  GoInt.isU64 (counter w)
  /\ trace (slurper env orders w) = trace w ++ evs
  /\ readTotal evs = 6
  /\ counter (slurper env orders w) = 6.
Proof.
  intros env w orders evs.
  assert (Hc : GoInt.isU64 (counter w)) by (unfold GoInt.isU64; simpl; lia).
  assert (Ht : trace (slurper env orders w) = trace w ++ evs)
    by (vm_compute; reflexivity).
  assert (Hsum : readTotal evs = 6) by (vm_compute; reflexivity).
  split; [exact Hc|]. split; [exact Ht|]. split; [exact Hsum|].
  destruct (C7_counter_grows_until_it_wraps env orders w evs Hc Ht)
    as (_ & _ & Hcount & _).
  rewrite Hcount, Hsum. reflexivity.
Defined.

(** C8 on a run: the server says 416 and nothing is touched. *)
Lemma C8_witness :
  let env := directEnv (inr done416) in
  let w := worldOf halfDone 0 in
  dryRun env = false
  /\ newRequest env (url a_txt) = inr req_a_txt
  /\ env_do env (trace w) (sentRequest env a_txt w req_a_txt) = inr done416
  /\ StatusCode done416 = StatusRequestedRangeNotSatisfiable
  /\ (slurp env a_txt w).1 = None
  /\ sink (slurp env a_txt w).2 = halfDone.
Proof.
  intros env w. split; [reflexivity|]. split; [reflexivity|].
  split; [reflexivity|]. split; [reflexivity|].
  destruct (C8_not_satisfiable_leaves_destination env a_txt w req_a_txt done416
              eq_refl eq_refl eq_refl eq_refl)
    as (Hr & _ & _ & Hs & _).
  split; [exact Hr | exact Hs].
Defined.


(** C4 as stated fails: the body of [a.txt] breaks off; the one line the
    worker logs names [a.txt] and the cause, and the address of the order
    is nowhere in it. *)
Lemma C4_counterexample :
  let env := directEnv (inr broken200) in
  let w' := slurperStep env a_txt (worldOf ∅ 0) in
  (slurp env a_txt (worldOf ∅ 0)).1 = Some (ErrExt "unexpected EOF")
  /\ logs w'
     = ["Failed downloading " +:+ GoFmt.q "a.txt" +:+ ": unexpected EOF"]
  /\ forallb (fun line => negb (GoStrings.Contains line (url a_txt))) (logs w')
     = true.
Proof. vm_compute. repeat split; reflexivity. Qed.

(** C7 as stated fails: with the counter at 2^64 - 1, a transfer of three
    bytes leaves it at 2. *)
Lemma C7_counterexample :
  let env := directEnv (inr ok200) in
  let w := worldOf ∅ (2 ^ 64 - 1) in
  let w' := (slurp env a_txt w).2 in
  GoInt.isU64 (counter w)
  /\ bodyReads (trace w') = [3; 0]
  /\ counter w' = 2
  /\ ~ counter w <= counter w'.
Proof.
  intros env w w'.
  assert (Hc : counter w' = 2) by (vm_compute; reflexivity).
  split; [unfold GoInt.isU64; simpl; lia|].
  split; [vm_compute; reflexivity|].
  split; [exact Hc|]. rewrite Hc. simpl. lia.
Qed.

(** Runs of the model on the loose-file sink. *)
Example run_fresh_download :
  let run := slurp (directEnv (inr ok200)) a_txt (worldOf ∅ 0) in
  run.1 = None
  /\ sink run.2 !! "a.txt" = Some abc
  /\ counter run.2 = 3
  /\ omap openedPath (trace run.2) = ["a.txt"]
  /\ existsb isAppend (trace run.2) = false.
Proof. vm_compute. repeat split; reflexivity. Qed.

Example run_resumed_download :
  let run := slurp (directEnv (inr partial206)) a_txt (worldOf halfDone 0) in
  run.1 = None
  /\ sink run.2 !! "a.txt" = Some ([x61; x62] ++ abc)
  /\ existsb isAppend (trace run.2) = true.
Proof. vm_compute. repeat split; reflexivity. Qed.

Example run_not_found :
  let run := slurp (directEnv (inr missing404)) a_txt (worldOf ∅ 0) in
  run.1 = Some (ErrStatus "http://example/dir/a.txt" 404)
  /\ sink run.2 = ∅
  /\ existsb touchesSink (trace run.2) = false.
Proof. vm_compute. repeat split; reflexivity. Qed.

Example run_dry :
  let run := slurp (envWith true DirectSink.stat (inr ok200)) a_txt
                   (worldOf halfDone 0) in
  run = (None, worldOf halfDone 0).
Proof. reflexivity. Qed.

Example run_worker_two_orders :
  let w' := slurper (directEnv (inr ok200)) [a_txt; other_a_txt] (worldOf ∅ 0) in
  sends w' = [(0%nat, msgFileDone "http://example/dir/a.txt");
              (0%nat, msgFileDone "http://mirror/pub/a.txt")]
  /\ errorCount w' = 0
  /\ counter w' = 6
  /\ omap openedPath (trace w') = ["a.txt"; "a.txt"].
Proof. vm_compute. repeat split; reflexivity. Qed.

End DirectRuns.

Section ArchiveRuns.
Import Scenario.
#[local] Existing Instance ArchiveSink.fileOut.

(** C1 as stated fails: the container needs the size, the answer is a 206
    without a declared length; the transfer succeeds, the destination is
    opened by [Create] with the measured length, and [Append] is never
    called. *)
Lemma C1_counterexample :
  let env := archiveEnv (inr partial206) in
  let run := slurp env a_txt (worldOf [] 0) in
  StatusCode partial206 = StatusPartialContent
  /\ run.1 = None
  /\ existsb isAppend (trace run.2) = false
  /\ omap openedPath (trace run.2) = ["a.txt"]
  /\ existsb (fun ev => match ev with
                        | EvCreate fn n => String.eqb fn "a.txt" && (n =? 3)
                        | _ => false
                        end) (trace run.2) = true
  /\ sink run.2 = [ArchiveSink.mkEntry "a.txt" 3 abc].
Proof. vm_compute. repeat split; reflexivity. Qed.

(** C3 on a run: a 206 without a length into the container; buffered,
    then created with the three bytes measured. *)
Lemma C3_witness :
  let env := archiveEnv (inr partial206) in
  let w := worldOf [] 0 in
  dryRun env = false
  /\ newRequest env (url a_txt) = inr req_a_txt
  /\ env_do env (trace w) (sentRequest env a_txt w req_a_txt) = inr partial206
  /\ (StatusCode partial206 = StatusOK
      \/ StatusCode partial206 = StatusPartialContent)
  /\ exists evs h,
      trace (slurp env a_txt w).2
      = trace w ++ EvDo (sentRequest env a_txt w req_a_txt) :: evs
      /\ evs = bufferedEvents "a.txt" partial206 h
      /\ sinkWritten evs = abc.
Proof.
  intros env w. split; [reflexivity|]. split; [reflexivity|].
  split; [reflexivity|]. split; [by right|].
  destruct (C3_unknown_size_goes_through_scratch env a_txt w req_a_txt partial206
              (slurp env a_txt w).1 (slurp env a_txt w).2
              eq_refl eq_refl eq_refl (or_intror eq_refl) (surjective_pairing _))
    as (evs & Ht & Hbuf & _).
  destruct Hbuf as (_ & _ & _ & Hok); [split; [reflexivity | simpl; lia]|].
  destruct Hok as (h & Hevs & _ & Hw); [vm_compute; reflexivity|].
  exists evs, h. split; [exact Ht|]. split; [exact Hevs | exact Hw].
Defined.

(** A run of the model on the container sink, the length declared: no
    scratch file. *)
Example run_archive_known_length :
  let run := slurp (archiveEnv (inr ok200)) a_txt (worldOf [] 0) in
  run.1 = None
  /\ sink run.2 = [ArchiveSink.mkEntry "a.txt" 3 abc]
  /\ existsb usesTemp (trace run.2) = false.
Proof. vm_compute. repeat split; reflexivity. Qed.

End ArchiveRuns.

(** * Further properties: the listing page *)

Section LinkFacts.
Import Links.

Lemma String_app_cons (c : ascii) (a b : string) :
  String c a +:+ b = String c (a +:+ b).
Proof. reflexivity. Qed.

Lemma String_app_nil_l (b : string) : EmptyString +:+ b = b.
Proof. reflexivity. Qed.

Lemma String_app_assoc (a b c : string) : (a +:+ b) +:+ c = a +:+ (b +:+ c).
Proof.
  induction a as [|x a IH]; [done|]. rewrite !String_app_cons. by rewrite IH.
Qed.

Lemma hasQuote_app (a b : string) :
  hasQuote (a +:+ b) = hasQuote a || hasQuote b.
Proof.
  induction a as [|x a IH]; [done|]. rewrite String_app_cons. simpl.
  rewrite IH. by rewrite orb_assoc.
Qed.

Lemma HasPrefix_split (s p : string) :
  GoStrings.HasPrefix s p = true ->
  s = p +:+ GoStrings.dropS (String.length p) s.
Proof.
  revert s. induction p as [|c p IH]; intros s Hp; simpl in *.
  { rewrite String_app_nil_l. by destruct s. }
  destruct s as [|d s]; simpl in Hp; [done|].
  destruct (Ascii.eqb c d) eqn:E; [|done].
  apply Ascii.eqb_eq in E as ->. rewrite String_app_cons. f_equal. by apply IH.
Qed.

Lemma HasPrefix_app_refl (p t : string) : GoStrings.HasPrefix (p +:+ t) p = true.
Proof.
  induction p as [|c p IH]; [rewrite String_app_nil_l; by destruct t|].
  rewrite String_app_cons. simpl.
  by rewrite Ascii.eqb_refl.
Qed.

(** A text that starts with the opening of the pattern has a quote among
    its first six bytes. *)
Lemma HasPrefix_hrefOpen_quote (u v : string) :
  (6 <= String.length u)%nat ->
  GoStrings.HasPrefix (u +:+ v) hrefOpen = true ->
  hasQuote u = true.
Proof.
  intros Hlen Hp.
  destruct u as [|c0 [|c1 [|c2 [|c3 [|c4 [|c5 u]]]]]]; simpl in Hlen; try lia.
  unfold hrefOpen in Hp. rewrite !String_app_cons, String_app_nil_l in Hp.
  cbn [GoStrings.HasPrefix] in Hp.
  repeat match type of Hp with
         | (if ?b then _ else _) = true => destruct b eqn:?; [|discriminate]
         end.
  cbn [hasQuote]. rewrite !orb_true_iff.
  do 5 right. left.
  match goal with
  | E : Ascii.eqb GoFmt.dquote c5 = true |- _ =>
      apply Ascii.eqb_eq in E; subst c5
  end.
  apply Ascii.eqb_refl.
Qed.

Lemma spanNonQuote_spec (s : string) :
  s = (spanNonQuote s).1 +:+ (spanNonQuote s).2
  /\ hasQuote (spanNonQuote s).1 = false
  /\ ((spanNonQuote s).2 = EmptyString
      \/ exists t, (spanNonQuote s).2 = String GoFmt.dquote t).
Proof.
  induction s as [|c s IH]; simpl.
  - auto.
  - destruct (Ascii.eqb c GoFmt.dquote) eqn:E; simpl.
    + apply Ascii.eqb_eq in E as ->. eauto.
    + destruct (spanNonQuote s) as [a b]. simpl in *.
      destruct IH as (Hs & Hq & Hb). rewrite E, String_app_cons, <- Hs. auto.
Qed.

Lemma spanNonQuote_run (x t : string) :
  hasQuote x = false ->
  spanNonQuote (x +:+ String GoFmt.dquote t) = (x, String GoFmt.dquote t).
Proof.
  induction x as [|c x IH]; intros Hq.
  - rewrite String_app_nil_l. reflexivity.
  - simpl in Hq. apply orb_false_iff in Hq as [Hc Hx].
    rewrite String_app_cons. simpl. rewrite Hc, IH; done.
Qed.

(** What a match consists of. *)
Lemma matchHref_spec (s g rest : string) :
  matchHref s = Some (g, rest) ->
  s = hrefOpen +:+ g +:+ String GoFmt.dquote rest
  /\ g <> EmptyString
  /\ hasQuote g = false.
Proof.
  unfold matchHref. destruct (GoStrings.HasPrefix s hrefOpen) eqn:Hp; [|done].
  apply HasPrefix_split in Hp.
  set (t := GoStrings.dropS (String.length hrefOpen) s) in *.
  destruct (spanNonQuote_spec t) as (Hs & Hq & Hb).
  destruct (spanNonQuote t) as [[|c a] [|d b]]; try done.
  intros [= <- <-]. cbn [fst snd] in Hs, Hq, Hb.
  destruct Hb as [|[t' [= -> ->]]]; [done|].
  split; [|done]. rewrite Hp. by rewrite Hs.
Qed.

Lemma matchHref_found (x post : string) :
  x <> EmptyString -> hasQuote x = false ->
  matchHref (hrefOpen +:+ x +:+ String GoFmt.dquote post) = Some (x, post).
Proof.
  intros Hx Hq. unfold matchHref. rewrite HasPrefix_app_refl.
  replace (GoStrings.dropS (String.length hrefOpen)
             (hrefOpen +:+ x +:+ String GoFmt.dquote post))
    with (x +:+ String GoFmt.dquote post) by reflexivity.
  rewrite spanNonQuote_run by done. by destruct x.
Qed.

Lemma matchHref_shorter (s g rest : string) :
  matchHref s = Some (g, rest) -> (String.length rest < String.length s)%nat.
Proof.
  intros (-> & _ & _)%matchHref_spec.
  rewrite !length_append. simpl. lia.
Qed.

(** Any fuel from the length of the text on gives the same matches. *)
Lemma hrefsFuel_enough (n m : nat) (s : string) :
  (String.length s <= n)%nat -> (String.length s <= m)%nat ->
  hrefsFuel n s = hrefsFuel m s.
Proof.
  revert m s. induction n as [|n IH]; intros m s Hn Hm.
  - destruct s; [by destruct m | simpl in Hn; lia].
  - destruct m as [|m]; [destruct s; [done | simpl in Hm; lia]|].
    destruct s as [|c s]; [done|]. cbn [hrefsFuel].
    destruct (matchHref (String c s)) as [[g rest]|] eqn:E.
    + apply matchHref_shorter in E. simpl in *. f_equal. apply IH; lia.
    + simpl in *. apply IH; lia.
Qed.

Lemma hrefs_match (s g rest : string) :
  matchHref s = Some (g, rest) -> hrefs s = g :: hrefs rest.
Proof.
  intros E. unfold hrefs. pose proof (matchHref_shorter _ _ _ E) as Hlt.
  destruct s as [|c s]; [simpl in Hlt; lia|].
  cbn [String.length hrefsFuel]. rewrite E. f_equal.
  apply hrefsFuel_enough; simpl in *; lia.
Qed.

Lemma hrefs_skip (c : ascii) (s : string) :
  matchHref (String c s) = None -> hrefs (String c s) = hrefs s.
Proof.
  intros E. unfold hrefs. cbn [String.length hrefsFuel]. by rewrite E.
Qed.

(** No match starts inside a text without quote that runs up to the
    quote of the next opening. *)
Lemma matchHref_before (c : ascii) (pre t : string) :
  hasQuote (String c pre) = false ->
  matchHref (String c pre +:+ hrefOpen +:+ t) = None.
Proof.
  intros Hq. unfold matchHref.
  destruct (GoStrings.HasPrefix (String c pre +:+ hrefOpen +:+ t) hrefOpen) eqn:Hp;
    [|done].
  exfalso.
  assert (Heq : String c pre +:+ hrefOpen +:+ t
                = (String c pre +:+ "href=") +:+ String GoFmt.dquote t).
  { unfold hrefOpen. by rewrite !String_app_assoc. }
  rewrite Heq in Hp. apply HasPrefix_hrefOpen_quote in Hp.
  - rewrite hasQuote_app, Hq in Hp. discriminate.
  - rewrite length_append. simpl. lia.
Qed.

Lemma hrefs_first (pre x post : string) :
  hasQuote pre = false -> x <> EmptyString -> hasQuote x = false ->
  hrefs (pre +:+ hrefOpen +:+ x +:+ String GoFmt.dquote post) = x :: hrefs post.
Proof.
  intros Hpre Hx Hq. induction pre as [|c pre IH].
  - apply hrefs_match. by apply (matchHref_found x post).
  - change ((String c pre) +:+ ?t) with (String c (pre +:+ t)).
    rewrite hrefs_skip.
    + apply IH. simpl in Hpre. by apply orb_false_iff in Hpre as [_ ?].
    + change (String c (pre +:+ ?t)) with (String c pre +:+ t).
      by apply matchHref_before.
Qed.

Lemma hrefs_sound_fuel (fuel : nat) (s x : string) :
  x ∈ hrefsFuel fuel s ->
  x <> EmptyString /\ hasQuote x = false
  /\ exists pre post, s = pre +:+ hrefOpen +:+ x +:+ String GoFmt.dquote post.
Proof.
  revert s. induction fuel as [|fuel IH]; intros s Hin; simpl in Hin.
  { by apply elem_of_nil in Hin. }
  destruct s as [|c s]; [by apply elem_of_nil in Hin|].
  destruct (matchHref (String c s)) as [[g rest]|] eqn:E.
  - pose proof (matchHref_spec _ _ _ E) as (Hs & Hg & Hq).
    apply elem_of_cons in Hin as [->|Hin].
    + split; [done|]. split; [done|]. by exists EmptyString, rest.
    + destruct (IH _ Hin) as (Hx & Hxq & pre & post & ->).
      split; [done|]. split; [done|].
      exists (hrefOpen +:+ g +:+ String GoFmt.dquote pre), post.
      rewrite Hs, !String_app_assoc, String_app_cons. reflexivity.
  - destruct (IH _ Hin) as (Hx & Hxq & pre & post & ->).
    split; [done|]. split; [done|]. by exists (String c pre), post.
Qed.

End LinkFacts.

Section PageFacts.
Import Links.

Lemma hrefs_no_quote (s : string) : hasQuote s = false -> hrefs s = [].
Proof.
  intros Hq. destruct (hrefs s) as [|x l] eqn:E; [done|]. exfalso.
  assert (Hin : x ∈ hrefsFuel (String.length s) s).
  { unfold hrefs in E. rewrite E. by left. }
  apply hrefs_sound_fuel in Hin as (_ & _ & pre & post & ->).
  rewrite hasQuote_app, (hasQuote_app hrefOpen) in Hq.
  replace (hasQuote hrefOpen) with true in Hq by reflexivity.
  rewrite orb_true_l, orb_true_r in Hq. discriminate.
Qed.

Lemma hrefs_page (items : list (string * string)) (tail : string) :
  Forall (fun it => hasQuote it.1 = false
                    /\ it.2 <> EmptyString /\ hasQuote it.2 = false) items ->
  hasQuote tail = false ->
  hrefs (page items tail) = items.*2.
Proof.
  intros Hitems Htail. induction Hitems as [|[before x] items (Hb & Hx & Hq) _ IH].
  - by apply hrefs_no_quote.
  - cbn [page fmap list_fmap snd]. simpl in Hb, Hx, Hq.
    rewrite hrefs_first by done. by rewrite IH.
Qed.

Lemma NoDup_List_filter {A : Type} (p : A -> bool) (l : list A) :
  NoDup l -> NoDup (List.filter p l).
Proof.
  induction 1 as [|x l Hx _ IH]; simpl; [constructor|].
  destruct (p x); [|done]. constructor; [|done].
  rewrite list_elem_of_In, List.filter_In, <- list_elem_of_In. tauto.
Qed.

End PageFacts.

Section PathFacts.
Import GoStrings GoPath.

Lemma rev_app_spec (s t : string) :
  String.rev_app s t = String.rev_app s EmptyString +:+ t.
Proof.
  revert t. induction s as [|c s IH]; intros t; simpl; [done|].
  rewrite IH, (IH (String c EmptyString)), String_app_assoc. reflexivity.
Qed.

Lemma rev_cons (c : ascii) (s : string) :
  String.rev (String c s) = String.rev s +:+ String c EmptyString.
Proof. unfold String.rev. simpl. apply rev_app_spec. Qed.

Lemma String_app_nil_r (a : string) : a +:+ EmptyString = a.
Proof.
  induction a as [|x a IH]; [done|]. by rewrite String_app_cons, IH.
Qed.

Lemma rev_append (a b : string) :
  String.rev (a +:+ b) = String.rev b +:+ String.rev a.
Proof.
  induction a as [|c a IH].
  - rewrite String_app_nil_l. by rewrite String_app_nil_r.
  - rewrite String_app_cons, !rev_cons, IH. apply String_app_assoc.
Qed.

Lemma rev_involutive (s : string) : String.rev (String.rev s) = s.
Proof.
  induction s as [|c s IH]; [done|].
  rewrite rev_cons, rev_append, IH. reflexivity.
Qed.

(** [strings.Contains] for the slash, byte by byte. *)
Lemma Contains_slash_cons (c : ascii) (s : string) :
  Contains (String c s) "/" = Ascii.eqb c slash || Contains s "/".
Proof.
  cbn [Contains HasPrefix]. rewrite Ascii.eqb_sym. unfold slash.
  destruct (Ascii.eqb c "/"); [by destruct s | done].
Qed.

Lemma Contains_slash_app (a b : string) :
  Contains (a +:+ b) "/" = Contains a "/" || Contains b "/".
Proof.
  induction a as [|c a IH].
  - rewrite String_app_nil_l. by destruct b.
  - rewrite String_app_cons, !Contains_slash_cons, IH. by rewrite orb_assoc.
Qed.

Lemma Contains_slash_rev (s : string) :
  Contains (String.rev s) "/" = Contains s "/".
Proof.
  induction s as [|c s IH]; [done|].
  rewrite rev_cons, Contains_slash_app, IH, !Contains_slash_cons.
  cbn [Contains HasPrefix]. rewrite !orb_false_r. apply orb_comm.
Qed.

Lemma untilSlash_run (u v : string) :
  Contains u "/" = false -> untilSlash (u +:+ String slash v) = u.
Proof.
  induction u as [|c u IH]; intros Hu.
  - reflexivity.
  - rewrite Contains_slash_cons in Hu. apply orb_false_iff in Hu as [Hc Hu].
    rewrite String_app_cons. cbn [untilSlash]. rewrite Hc. by rewrite IH.
Qed.

Lemma HasSuffix_split (s t : string) :
  HasSuffix s t = true -> exists s0, s = s0 +:+ t.
Proof.
  unfold HasSuffix. intros [_ Heq%String.eqb_eq]%andb_true_iff.
  assert (Hd : forall n (x : string), exists a, x = a +:+ dropS n x).
  { induction n as [|n IH]; intros x.
    - exists EmptyString. by destruct x.
    - destruct x as [|c x]; [by exists EmptyString|].
      destruct (IH x) as [a Ha]. exists (String c a).
      rewrite String_app_cons. simpl. by rewrite <- Ha. }
  destruct (Hd (String.length s - String.length t)%nat s) as [a Ha].
  exists a. by rewrite <- Heq.
Qed.

(** The last element of a path that ends in a slash followed by a name
    without slash is that name. *)
Lemma Base_after_slash (d fn : string) :
  fn <> EmptyString -> Contains fn "/" = false ->
  Base ((d +:+ "/") +:+ fn) = fn.
Proof.
  intros Hne Hfn.
  assert (Hrev : String.rev ((d +:+ "/") +:+ fn)
                 = String.rev fn +:+ String slash (String.rev d)).
  { rewrite !rev_append. reflexivity. }
  assert (Hr : String.rev fn <> EmptyString).
  { intros E. apply Hne. by rewrite <- (rev_involutive fn), E. }
  assert (Hrs : Contains (String.rev fn) "/" = false)
    by (by rewrite Contains_slash_rev).
  unfold Base.
  destruct ((d +:+ "/") +:+ fn) as [|c0 p0] eqn:Ep.
  { destruct d; discriminate. }
  cbv zeta. rewrite Hrev.
  assert (Hstrip : stripSlashes (String.rev fn +:+ String slash (String.rev d))
                   = String.rev fn +:+ String slash (String.rev d)).
  { destruct (String.rev fn) as [|c r]; [done|].
    rewrite Contains_slash_cons in Hrs. apply orb_false_iff in Hrs as [Hc _].
    rewrite String_app_cons. cbn [stripSlashes]. by rewrite Hc. }
  rewrite Hstrip, untilSlash_run, rev_involutive by done.
  by destruct fn.
Qed.

End PathFacts.

Section QueueFacts.
Context {S H : Type}.
Variable env : @Env S H.
Import Links.

Lemma list_links (web : Web) (url : string) (ret : list string) :
  keysOnce web -> list_ web url = inr ret ->
  exists body, web_get web url = inr body /\ ret ≡ₚ remove_dups (hrefs body).
Proof.
  unfold list_. intros Hk Hl.
  destruct (web_get web url) as [e|body]; [discriminate|].
  injection Hl as <-. exists body. split; [done | apply Hk].
Qed.

Lemma list_link (web : Web) (url : string) (ret : list string) (x : string) :
  keysOnce web -> list_ web url = inr ret -> x ∈ ret ->
  x <> EmptyString /\ hasQuote x = false.
Proof.
  intros Hk Hl Hin. destruct (list_links web url ret Hk Hl) as (body & _ & Hp).
  rewrite Hp, elem_of_remove_dups in Hin.
  by apply hrefs_sound_fuel in Hin as (? & ? & _).
Qed.

Lemma resolve_listings urls files0 files :
  resolve env urls files0 = inr files ->
  exists listings, Forall2 (fun d fs => env_list env d = inr fs) urls listings.
Proof.
  revert files0. induction urls as [|d urls IH]; intros files0 Hr; simpl in Hr.
  - exists []. constructor.
  - destruct (env_list env d) as [e|fs] eqn:E; [discriminate|].
    destruct (IH _ Hr) as [listings Hl]. exists (fs :: listings).
    by constructor.
Qed.

(** An address made of a page that ends in a slash and a name without
    slash splits in one way only. *)
Lemma address_split (d1 d2 f1 f2 : string) :
  f1 <> EmptyString -> GoStrings.Contains f1 "/" = false ->
  f2 <> EmptyString -> GoStrings.Contains f2 "/" = false ->
  withSlash d1 +:+ f1 = withSlash d2 +:+ f2 ->
  withSlash d1 = withSlash d2 /\ f1 = f2.
Proof.
  intros H1 C1 H2 C2 Heq.
  destruct (withSlash_spec d1) as [S1 _]. destruct (withSlash_spec d2) as [S2 _].
  apply HasSuffix_split in S1 as [a1 E1]. apply HasSuffix_split in S2 as [a2 E2].
  assert (Hf : f1 = f2).
  { rewrite <- (Base_after_slash a1 f1), <- (Base_after_slash a2 f2) by done.
    by rewrite <- E1, <- E2, Heq. }
  subst f2. split; [|done]. by apply append_inj_r in Heq.
Qed.

Lemma elem_of_queue urls listings addr :
  Forall2 (fun d fs => env_list env d = inr fs) urls listings ->
  addr ∈ concat (zip_with (qualified env) urls listings) ->
  exists d fs, d ∈ urls /\ env_list env d = inr fs /\ addr ∈ qualified env d fs.
Proof.
  induction 1 as [|d fs urls listings Hd _ IH]; simpl; intros Hin.
  - by apply elem_of_nil in Hin.
  - apply elem_of_app in Hin as [Hin|Hin].
    + exists d, fs. split; [by left | done].
    + destruct (IH Hin) as (d' & fs' & Hd' & Hl' & Hq).
      exists d', fs'. split; [by right | done].
Qed.

End QueueFacts.

(** * Further properties: listing pages and the queue *)

Section QueueClaims.
Context {S H : Type} `{!FileOut S H}.
Variable env : @Env S H.
Import Links.

(** X1. What [list] returns for a page that could be read: every string
    that the page holds between [href=], a double quote, and the next
    double quote, taken from left to right without overlap; each of them
    once, however often the page has it; never the empty string, never a
    string with a double quote in it; and nothing else. *)
Theorem X1_list_returns_each_link_once (web : Web) (url : string)
    (ret : list string) :
  keysOnce web ->
  list_ web url = inr ret ->
  NoDup ret
  /\ exists body,
      web_get web url = inr body
      /\ (forall x, x ∈ ret <-> x ∈ hrefs body)
      /\ forall x, x ∈ ret ->
           x <> EmptyString /\ hasQuote x = false
           /\ exists pre post,
               body = pre +:+ hrefOpen +:+ x +:+ String GoFmt.dquote post.
Proof.
  intros Hk Hl. destruct (list_links web url ret Hk Hl) as (body & Hb & Hp).
  split.
  { rewrite Hp. apply NoDup_remove_dups. }
  exists body. split; [done|]. split.
  - intros x. by rewrite Hp, elem_of_remove_dups.
  - intros x Hin. rewrite Hp, elem_of_remove_dups in Hin.
    by apply hrefs_sound_fuel in Hin.
Qed.

(** X2. Reading back a page that was written link by link: when the text
    around the links has no double quote in it, and every link is not
    empty and has none either, [list] returns exactly the links that were
    written, each once. *)
Theorem X2_list_reads_back_written_links (web : Web) (url : string)
    (items : list (string * string)) (tail : string) :
  keysOnce web ->
  web_get web url = inr (page items tail) ->
  Forall (fun it => hasQuote it.1 = false
                    /\ it.2 <> EmptyString /\ hasQuote it.2 = false) items ->
  hasQuote tail = false ->
  exists ret,
    list_ web url = inr ret
    /\ ret ≡ₚ remove_dups items.*2
    /\ forall x, x ∈ ret <-> x ∈ items.*2.
Proof.
  intros Hk Hg Hitems Htail. unfold list_. rewrite Hg.
  rewrite (hrefs_page items tail Hitems Htail).
  eexists. split; [done|]. split; [apply Hk|].
  intros x. by rewrite (Hk _), elem_of_remove_dups.
Qed.

(** X3. No address is put on the queue twice, as long as no two of the
    pages given have the same address once the slash is added at its
    end: the links of a page are taken once each, and an address tells
    its page and its link. *)
Theorem X3_no_address_queued_twice (web : Web) (urls files : list string) :
  keysOnce web ->
  (forall d, d ∈ urls -> env_list env d = list_ web d) ->
  NoDup (withSlash <$> urls) ->
  resolve env urls [] = inr files ->
  NoDup files.
Proof.
  intros Hk Hlist Hnd Hr.
  destruct (resolve_listings env urls [] files Hr) as [listings Hl].
  rewrite (resolve_spec env urls listings [] Hl) in Hr. injection Hr as <-.
  simpl.
  induction Hl as [|d fs urls listings Hd Hl IH]; simpl; [constructor|].
  rewrite fmap_cons in Hnd. apply NoDup_cons in Hnd as [Hd1 Hnd].
  assert (Hfs : list_ web d = inr fs).
  { rewrite <- Hd. symmetry. apply Hlist. by left. }
  apply NoDup_app. split; [|split].
  - unfold qualified. apply NoDup_fmap_2.
    + intros a b Hab. by apply String.app_inj in Hab.
    + apply NoDup_List_filter.
      destruct (list_links web d fs Hk Hfs) as (body & _ & Hp).
      rewrite Hp. apply NoDup_remove_dups.
  - intros addr H1 H2.
    apply (elem_of_qualified env) in H1 as (f1 & Hf1 & C1 & _ & E1).
    destruct (elem_of_queue env urls listings addr Hl H2)
      as (d2 & fs2 & Hd2 & Hl2 & Hq).
    apply (elem_of_qualified env) in Hq as (f2 & Hf2 & C2 & _ & E2).
    assert (Hfs2 : list_ web d2 = inr fs2).
    { rewrite <- Hl2. symmetry. apply Hlist. by right. }
    destruct (list_link web d fs f1 Hk Hfs Hf1) as [N1 _].
    destruct (list_link web d2 fs2 f2 Hk Hfs2 Hf2) as [N2 _].
    subst addr. apply address_split in E2 as [Ed _]; try done.
    apply Hd1. rewrite Ed. apply list_elem_of_fmap. by exists d2.
  - apply IH; [|done]. intros d' Hd'. apply Hlist. by right.
Qed.

(** X4. Every address on the queue is the address of one of the pages,
    a slash, and a link of that page that the filter matches; the link
    is the last element of the address, so the file is saved in the
    output directory under the name the link has on the page. *)
Theorem X4_file_saved_under_link_name (web : Web) (urls files : list string)
    (addr : string) (c : chan) :
  keysOnce web ->
  (forall d, d ∈ urls -> env_list env d = list_ web d) ->
  resolve env urls [] = inr files ->
  addr ∈ files ->
  exists d fs fn,
    d ∈ urls /\ list_ web d = inr fs /\ fn ∈ fs
    /\ matchString env fn = true
    /\ addr = withSlash d +:+ fn
    /\ GoPath.Base addr = fn
    /\ fullFilenameOf env (mkOrder addr c) = GoPath.Join [out env; fn].
Proof.
  intros Hk Hlist Hr Hin.
  destruct (resolve_listings env urls [] files Hr) as [listings Hl].
  rewrite (resolve_spec env urls listings [] Hl) in Hr. injection Hr as <-.
  simpl in Hin.
  destruct (elem_of_queue env urls listings addr Hl Hin) as (d & fs & Hd & Hfs & Hq).
  apply (elem_of_qualified env) in Hq as (fn & Hfn & Hc & Hm & ->).
  rewrite (Hlist d Hd) in Hfs.
  destruct (list_link web d fs fn Hk Hfs Hfn) as [Hne _].
  assert (Hbase : GoPath.Base (withSlash d +:+ fn) = fn).
  { destruct (withSlash_spec d) as [Hs _].
    apply HasSuffix_split in Hs as [a ->]. by apply Base_after_slash. }
  exists d, fs, fn. repeat split; try done.
  unfold fullFilenameOf. simpl. by rewrite Hbase.
Qed.

End QueueClaims.

(** * Further properties: the calls of one transfer *)

Section ShapeFacts.
Context {S H : Type} `{!FileOut S H}.
Variable env : @Env S H.
Implicit Types (w : @World S H) (evs : list (@Event H)) (o : order).

(** A relation that every read and every write keeps is kept by a copy. *)
Lemma ioCopy_keeps (R : @World S H -> @World S H -> Prop) dst onRead :
  (forall w, R w w) ->
  (forall w1 w2 w3, R w1 w2 -> R w2 w3 -> R w1 w3) ->
  (forall r w, R w (onRead r w)) ->
  (forall p w, R w (wcWrite env dst p w).2) ->
  forall src n w, R w (ioCopy env dst onRead src n w).2.
Proof.
  intros Hrefl Htrans Hread Hwrite src.
  induction src as [|r src IH]; intros n w; simpl.
  - apply Hread.
  - eapply Htrans; [apply Hread|].
    set (w1 := onRead r w).
    assert (Hafter : forall n' w',
      R w1 w' ->
      R w1 (match rr_err r with
            | Some EOF => ((n', None), w')
            | Some (ReadFailed e) => ((n', Some e), w')
            | None => ioCopy env dst onRead src n' w'
            end).2).
    { intros n' w' Hw'. destruct (rr_err r) as [[|e]|]; simpl; auto.
      eapply Htrans; [exact Hw' | apply IH]. }
    destruct (0 <? Z.of_nat (length (rr_data r))).
    + pose proof (Hwrite (rr_data r) w1) as Hw.
      destruct (wcWrite env dst (rr_data r) w1) as [[nw ew] w2]; simpl in Hw.
      destruct ((nw <? 0) || (Z.of_nat (length (rr_data r)) <? nw)).
      * destruct (default ErrInvalidWrite ew); simpl; exact Hw.
      * destruct ew as [e|]; simpl; [exact Hw|].
        destruct (negb (Z.of_nat (length (rr_data r)) =? nw)); simpl; [exact Hw|].
        apply Hafter, Hw.
    + apply Hafter, Hrefl.
Qed.

Lemma ioCopy_sink_scratch h onRead src n w :
  (forall r w, scratch (onRead r w) = scratch w) ->
  scratch (ioCopy env (SinkWriter h) onRead src n w).2 = scratch w.
Proof.
  intros Hread.
  apply (ioCopy_keeps (fun w w' => scratch w' = scratch w)); auto.
  - intros w1 w2 w3 H12 H23. by rewrite H23.
  - intros p w0. apply wcWrite_scratch_sink.
Qed.

Lemma sinkAppend_scratch fn size w :
  scratch (sinkAppend fn size w).2 = scratch w.
Proof. unfold sinkAppend. by destruct (Append fn size (sink w)). Qed.

(** A direct transfer, whatever its outcome: the opening call, and, if
    it gave a writer, the copy into it and its closing; the body is
    closed last. The scratch file is not touched. *)
Lemma directTransfer_shape fullFilename resp w1 r w' :
  directTransfer env fullFilename resp w1 = (r, w') ->
  scratch w' = scratch w1
  /\ ((r <> None
       /\ trace w' = trace w1 ++ [openEvent fullFilename resp; EvBodyClose])
      \/ exists h cevs,
          trace w' = trace w1 ++ openEvent fullFilename resp
                       :: cevs ++ [EvCloseWriter h; EvBodyClose]
          /\ Forall (copyEvent (SinkWriter h) true) cevs).
Proof.
  unfold directTransfer, openEvent.
  set (opened := if StatusCode resp =? StatusPartialContent
                 then sinkAppend fullFilename (ContentLength resp) w1
                 else sinkCreate fullFilename (ContentLength resp) w1).
  assert (Hopen : scratch opened.2 = scratch w1
                  /\ trace opened.2
                     = trace w1 ++ [if StatusCode resp =? StatusPartialContent
                                    then EvAppend fullFilename (ContentLength resp)
                                    else EvCreate fullFilename (ContentLength resp)]
                  /\ forall dst, opened.1 = inr dst -> exists h, dst = SinkWriter h).
  { unfold opened. destruct (StatusCode resp =? StatusPartialContent).
    - split; [apply sinkAppend_scratch|]. split; [apply sinkAppend_trace|].
      intros dst Hd. eapply sinkAppend_writer.
      apply injective_projections; simpl; eauto.
    - split; [apply sinkCreate_scratch|]. split; [apply sinkCreate_trace|].
      intros dst Hd. eapply sinkCreate_writer.
      apply injective_projections; simpl; eauto. }
  destruct opened as [[e|dst] w2]; cbn [fst snd] in Hopen;
    destruct Hopen as (Hsc & Htr & Hdst).
  - intros [= <- <-]. split; [done|]. left. split; [done|].
    simpl. by rewrite Htr, <- app_assoc.
  - destruct (Hdst dst eq_refl) as [h ->].
    pose proof (ioCopy_evolves env (SinkWriter h) true readWrapper_Read
                  (readWrapper_Read_evolves (SinkWriter h)) (Body resp) 0 w2) as Hcopy.
    pose proof (ioCopy_sink_scratch h readWrapper_Read (Body resp) 0 w2
                  (fun _ _ => eq_refl)) as Hcs.
    destruct (ioCopy env (SinkWriter h) readWrapper_Read (Body resp) 0 w2)
      as [[n err] w3]. cbn [snd] in Hcopy, Hcs.
    apply Evolves_events in Hcopy as (cevs & Hc1 & Hc2).
    intros [= <- <-]. split; [simpl; congruence|]. right.
    exists h, cevs. split; [|done].
    simpl. rewrite Hc1, Htr, <- !app_assoc. reflexivity.
Qed.

(** A buffered transfer, whatever its outcome: if the scratch file
    cannot be made, nothing but the closing of the body follows;
    otherwise the body is copied into it, the second pass goes as far as
    it gets, and the scratch file is closed and removed before the body
    is closed. *)
Lemma bufferedTransfer_shape fullFilename resp w1 r w' :
  bufferedTransfer env fullFilename resp w1 = (r, w') ->
  (env_tempFile env <> None /\ r <> None /\ scratch w' = scratch w1
   /\ trace w' = trace w1 ++ [EvTempFile; EvBodyClose])
  \/ (env_tempFile env = None /\ scratch w' = None
      /\ exists cevs tail,
          trace w' = trace w1 ++ EvTempFile :: cevs ++ tail
                       ++ [EvTempClose; EvTempRemove; EvBodyClose]
          /\ Forall (copyEvent TmpFile true) cevs
          /\ secondPassEvents fullFilename tail).
Proof.
  unfold bufferedTransfer, tempFile.
  destruct (env_tempFile env) as [e|] eqn:Etmp.
  { intros [= <- <-]. left. simpl. rewrite <- app_assoc. by repeat split. }
  set (w2 := emit EvTempFile (setScratch (Some []) w1)).
  pose proof (ioCopy_evolves env TmpFile true readWrapper_Read
                (readWrapper_Read_evolves TmpFile) (Body resp) 0 w2) as Hcopy.
  destruct (ioCopy env TmpFile readWrapper_Read (Body resp) 0 w2)
    as [[n err] w3]. cbn [snd] in Hcopy.
  apply Evolves_events in Hcopy as (cevs & Hc1 & Hc2).
  assert (Hbase : trace w3 = trace w1 ++ EvTempFile :: cevs).
  { rewrite Hc1. simpl. by rewrite <- app_assoc. }
  intros Hrun. right. split; [done|].
  assert (Hgoal : scratch w' = None
                  /\ exists tail,
                      trace w' = trace w3 ++ tail
                                   ++ [EvTempClose; EvTempRemove; EvBodyClose]
                      /\ secondPassEvents fullFilename tail).
  { destruct err as [e|].
    { injection Hrun as <- <-. split; [done|]. exists [].
      rewrite bufferedCleanup_trace. split; [done|]. by left. }
    unfold secondPass, tmpSeek in Hrun.
    destruct (env_tmpSeek env) as [e|].
    { injection Hrun as <- <-. split; [done|]. exists [EvTempSeek].
      rewrite bufferedCleanup_trace. simpl. rewrite <- !app_assoc.
      split; [done|]. right. by left. }
    set (w4 := emit EvTempSeek w3) in *.
    pose proof (sinkCreate_trace fullFilename n w4) as Hct.
    pose proof (sinkCreate_writer fullFilename n w4) as Hcw.
    destruct (sinkCreate fullFilename n w4) as [[e|dst] w5]; cbn [snd] in Hct.
    { injection Hrun as <- <-. split; [done|].
      exists [EvTempSeek; EvCreate fullFilename n].
      rewrite bufferedCleanup_trace, Hct. simpl. rewrite <- !app_assoc.
      split; [done|]. right. right. left. by exists n. }
    destruct (Hcw dst w5 eq_refl) as [h ->].
    pose proof (ioCopy_evolves env (SinkWriter h) false tmpf_Read
                  (tmpf_Read_evolves (SinkWriter h))
                  (tmpReader (default [] (scratch w5))) 0 w5) as Hcopy2.
    destruct (ioCopy env (SinkWriter h) tmpf_Read
                (tmpReader (default [] (scratch w5))) 0 w5) as [[n2 err2] w6].
    cbn [snd] in Hcopy2. apply Evolves_events in Hcopy2 as (cevs2 & Hd1 & Hd2).
    injection Hrun as <- <-. split; [done|].
    exists ([EvTempSeek; EvCreate fullFilename n] ++ cevs2 ++ [EvCloseWriter h]).
    rewrite bufferedCleanup_trace. cbn [wcClose emit trace setSink].
    rewrite Hd1, Hct. simpl. rewrite <- !app_assoc. simpl.
    split; [done|]. right. right. right. by exists n, h, cevs2. }
  destruct Hgoal as (Hs & tail & Ht & Htail). split; [done|].
  exists cevs, tail. split; [|done].
  rewrite Ht, Hbase, <- app_assoc. reflexivity.
Qed.

End ShapeFacts.

Section CountFacts.
Context {H : Type}.
Implicit Types (p : @Event H -> bool) (evs : list (@Event H)).

Lemma eventsSince_app evs1 evs2 : eventsSince evs1 (evs1 ++ evs2) = evs2.
Proof. unfold eventsSince. apply drop_app_length. Qed.

Lemma eventsSince_same evs : eventsSince evs evs = [].
Proof. unfold eventsSince. apply drop_all. Qed.

Lemma count_app p evs1 evs2 :
  count p (evs1 ++ evs2) = (count p evs1 + count p evs2)%nat.
Proof. unfold count. by rewrite List.filter_app, length_app. Qed.

Lemma count_cons p ev evs :
  count p (ev :: evs) = ((if p ev then 1 else 0) + count p evs)%nat.
Proof. unfold count. simpl. by destruct (p ev). Qed.

Lemma count_nil p : count p [] = 0%nat.
Proof. done. Qed.

Lemma count_none p evs :
  Forall (fun ev => p ev = false) evs -> count p evs = 0%nat.
Proof.
  induction 1 as [|ev evs Hev _ IH]; [done|].
  by rewrite count_cons, Hev, IH.
Qed.

(** A copy leaves reads and writes, and nothing else. *)
Lemma count_copy p dst b evs :
  lifecycle p -> Forall (copyEvent dst b) evs -> count p evs = 0%nat.
Proof.
  intros Hp Hevs. apply count_none.
  eapply Forall_impl; [exact Hevs|].
  intros ev Hev. destruct (p ev) eqn:E; [|done].
  destruct (Hp ev E) as [?|[?|[?|[?|[?|?]]]]]; by destruct ev.
Qed.

Lemma count_requests p evs :
  lifecycle p -> Forall (fun ev => isDo ev = true) evs -> count p evs = 0%nat.
Proof.
  intros Hp Hevs. apply count_none.
  eapply Forall_impl; [exact Hevs|].
  intros ev Hev. destruct (p ev) eqn:E; [|done].
  destruct (Hp ev E) as [?|[?|[?|[?|[?|?]]]]]; by destruct ev.
Qed.

Lemma lifecycle_opensSink : lifecycle (@opensSink H).
Proof. intros ev; auto. Qed.
Lemma lifecycle_isBodyClose : lifecycle (@isBodyClose H).
Proof. intros ev; auto. Qed.
Lemma lifecycle_isTempFile : lifecycle (@isTempFile H).
Proof. intros ev; auto. Qed.
Lemma lifecycle_isTempClose : lifecycle (@isTempClose H).
Proof. intros ev; auto 6. Qed.
Lemma lifecycle_isTempRemove : lifecycle (@isTempRemove H).
Proof. intros ev; auto 6. Qed.
Lemma lifecycle_isCloseWriter : lifecycle (@isCloseWriter H).
Proof. intros ev; auto 7. Qed.

End CountFacts.

Create HintDb lifecycle.

#[local] Hint Resolve lifecycle_opensSink lifecycle_isBodyClose
  lifecycle_isTempFile lifecycle_isTempClose lifecycle_isTempRemove
  lifecycle_isCloseWriter : lifecycle.

(** Counting through the events of an attempt: split at the appends,
    evaluate the test on the events that are written out, and drop the
    reads and writes of the copies. *)
Ltac count_events :=
  repeat (rewrite ?count_app, ?count_cons, ?count_nil;
          repeat match goal with
          | Hc : Forall (copyEvent _ _) ?cevs |- context [count ?p ?cevs] =>
              rewrite (count_copy p _ _ cevs ltac:(auto with lifecycle) Hc)
          end);
  cbn [opensSink isBodyClose isTempFile isTempClose isTempRemove
       isCloseWriter].

Section AttemptFacts.
Context {S H : Type} `{!FileOut S H}.
Variable env : @Env S H.
Implicit Types (w : @World S H) (evs : list (@Event H)) (o : order).

Lemma openEvent_opens fullFilename resp :
  opensSink (openEvent (H:=H) fullFilename resp) = true.
Proof. unfold openEvent. by destruct (StatusCode resp =? StatusPartialContent). Qed.

Lemma secondPass_counts fullFilename (tail : list (@Event H)) :
  secondPassEvents fullFilename tail ->
  count isBodyClose tail = 0%nat /\ count isTempFile tail = 0%nat
  /\ count isTempClose tail = 0%nat /\ count isTempRemove tail = 0%nat
  /\ (count isCloseWriter tail <= 1)%nat.
Proof.
  intros [->|[->|[(n & ->)|(n & h & cevs & -> & Hc)]]];
    count_events; repeat split; lia.
Qed.

(** The events of an answered request, whatever comes of it; the scratch
    file is gone afterwards, or was not touched. *)
Lemma slurp_answered o w req resp :
  dryRun env = false ->
  newRequest env (url o) = inr req ->
  env_do env (trace w) (sentRequest env o w req) = inr resp ->
  exists evs,
    trace (slurp env o w).2 = trace w ++ EvDo (sentRequest env o w req) :: evs
    /\ AfterResponse (fullFilenameOf env o) evs
    /\ (scratch (slurp env o w).2 = scratch w \/ scratch (slurp env o w).2 = None)
    /\ (env_tempFile env = None ->
        count isTempRemove evs = count isTempFile evs).
Proof.
  intros Hd Hn Hdo.
  pose proof (slurp_run env o w) as Hrun.
  destruct (slurp env o w) as [r w'] eqn:Hs. cbn [snd].
  set (w1 := emit (EvDo (sentRequest env o w req)) w).
  assert (Hw1 : forall evs, trace w' = trace w1 ++ evs ->
                  trace w' = trace w ++ EvDo (sentRequest env o w req) :: evs).
  { intros evs ->. simpl. by rewrite <- app_assoc. }
  inversion Hrun as
    [Hd'|e Hd' Hn'|req' e Hd' Hn' Hdo'|req' resp' Hd' Hn' Hdo' Hst
    |req' resp' Hd' Hn' Hdo' H1 H2 H3|req' resp' Hd' Hn' Hdo' Hst Hv Heq
    |req' resp' Hd' Hn' Hdo' Hst Hv Heq]; try congruence.
  all: assert (req' = req) as -> by congruence.
  all: try (assert (resp' = resp) as -> by congruence).
  - subst. exists [EvBodyClose]. split; [by apply Hw1|].
    split; [apply TurnedDown|]. split; [by left | done].
  - subst. exists [EvBodyClose]. split; [by apply Hw1|].
    split; [apply TurnedDown|]. split; [by left | done].
  - fold w1 in Heq.
    apply (directTransfer_shape env) in Heq as (Hsc & [(_ & Htr)|(h & cevs & Htr & Hc)]).
    + eexists. split; [apply Hw1, Htr|].
      split; [apply NotOpened, openEvent_opens|]. split; [by left|].
      intros _. count_events. unfold openEvent.
      by destruct (StatusCode resp =? StatusPartialContent).
    + eexists. split; [apply Hw1, Htr|].
      split; [apply Streamed; [apply openEvent_opens | done]|].
      split; [by left|].
      intros _. count_events. unfold openEvent.
      by destruct (StatusCode resp =? StatusPartialContent).
  - fold w1 in Heq.
    apply (bufferedTransfer_shape env) in Heq
      as [(Hno & _ & Hsc & Htr)|(_ & Hsc & cevs & tail & Htr & Hc & Ht)].
    + eexists. split; [apply Hw1, Htr|]. split; [apply NoScratch|].
      split; [by left | done].
    + eexists. split; [apply Hw1, Htr|]. split; [by apply Buffered|].
      split; [by right|].
      intros _. destruct (secondPass_counts _ _ Ht) as (_ & T2 & _ & T4 & _).
      count_events. rewrite T2, T4. reflexivity.
Qed.

(** Without an answer there is at most the request. *)
Lemma slurp_unanswered o w :
  (dryRun env = true
   \/ (exists e, newRequest env (url o) = inl e)
   \/ (exists req e, newRequest env (url o) = inr req
         /\ env_do env (trace w) (sentRequest env o w req) = inl e)) ->
  Forall (fun ev => isDo ev = true) (eventsSince (trace w) (trace (slurp env o w).2))
  /\ scratch (slurp env o w).2 = scratch w.
Proof.
  intros [Hd|Hno].
  { rewrite slurp_dry by done. simpl. by rewrite eventsSince_same. }
  destruct (dryRun env) eqn:Hd.
  { rewrite slurp_dry by done. simpl. by rewrite eventsSince_same. }
  destruct Hno as [[e Hn]|(req & e & Hn & Hdo)].
  - rewrite (slurp_badRequest env o w e) by done. simpl.
    by rewrite eventsSince_same.
  - rewrite (slurp_noResponse env o w req e) by done. simpl.
    rewrite eventsSince_app. by repeat constructor.
Qed.

(** A request is answered or it is not. *)
Lemma answered_or_not o w :
  (dryRun env = false
   /\ exists req resp, newRequest env (url o) = inr req
        /\ env_do env (trace w) (sentRequest env o w req) = inr resp)
  \/ (dryRun env = true
      \/ (exists e, newRequest env (url o) = inl e)
      \/ (exists req e, newRequest env (url o) = inr req
            /\ env_do env (trace w) (sentRequest env o w req) = inl e)).
Proof.
  destruct (dryRun env); [right; by left|].
  destruct (newRequest env (url o)) as [e|req] eqn:Hn; [right; right; left; eauto|].
  destruct (env_do env (trace w) (sentRequest env o w req)) as [e|resp] eqn:Hdo.
  - right. right. right. eauto.
  - left. eauto.
Qed.

Lemma AfterResponse_counts fullFilename evs :
  AfterResponse fullFilename evs ->
  count isBodyClose evs = 1%nat
  /\ last evs = Some EvBodyClose
  /\ (count isTempFile evs <= 1)%nat
  /\ count isTempClose evs = count isTempRemove evs
  /\ (count isTempRemove evs <= count isTempFile evs)%nat.
Proof.
  intros [|ev Hev|ev h cevs Hev Hc| |cevs tail Hc Ht].
  - count_events. simpl. repeat split; lia.
  - count_events. destruct ev; try done; simpl; repeat split; lia.
  - count_events.
    change (ev :: cevs ++ [EvCloseWriter h; EvBodyClose])
      with ((ev :: cevs) ++ [EvCloseWriter h] ++ [EvBodyClose]).
    rewrite app_assoc, last_snoc.
    destruct ev; try done; simpl; repeat split; lia.
  - count_events. simpl. repeat split; lia.
  - destruct (secondPass_counts _ _ Ht) as (T1 & T2 & T3 & T4 & T5).
    count_events. rewrite T1, T2, T3, T4.
    replace (EvTempFile :: cevs ++ tail ++ [EvTempClose; EvTempRemove; EvBodyClose])
      with ((EvTempFile :: cevs ++ tail ++ [EvTempClose; EvTempRemove]) ++ [EvBodyClose]).
    2: { simpl. f_equal. rewrite <- !app_assoc. reflexivity. }
    rewrite last_snoc. simpl. repeat split; lia.
Qed.

End AttemptFacts.

Section WriterFacts.
Context {H : Type}.
Implicit Types (evs : list (@Event H)).

Lemma copy_write_sink (h h' : H) b p cevs :
  Forall (copyEvent (SinkWriter h) b) cevs -> EvWrite h' p ∈ cevs -> h' = h.
Proof.
  intros Hc Hin. rewrite Forall_forall in Hc.
  specialize (Hc _ Hin). simpl in Hc. congruence.
Qed.

Lemma copy_write_tmp b (h : H) p cevs :
  Forall (copyEvent TmpFile b) cevs -> EvWrite h p ∉ cevs.
Proof.
  intros Hc Hin. rewrite Forall_forall in Hc.
  specialize (Hc _ Hin). simpl in Hc. discriminate.
Qed.

(** After an answer: at most one destination is opened and at most one
    writer closed; a write goes to the writer that is closed later, and
    after that close nothing reaches the sink. *)
Lemma AfterResponse_writes fullFilename evs :
  AfterResponse fullFilename evs ->
  (count opensSink evs <= 1)%nat
  /\ (count isCloseWriter evs <= count opensSink evs)%nat
  /\ forall h p, EvWrite h p ∈ evs ->
       exists pre post,
         evs = pre ++ EvCloseWriter h :: post
         /\ EvWrite h p ∈ pre
         /\ Forall (fun ev => touchesSink ev = false) post.
Proof.
  intros [|ev Hev|ev h cevs Hev Hc| |cevs tail Hc Ht].
  - count_events. simpl. split; [lia|]. split; [lia|].
    intros h p Hin. by apply list_elem_of_singleton in Hin.
  - count_events. rewrite Hev. simpl.
    assert (isCloseWriter ev = false) as -> by (by destruct ev).
    split; [lia|]. split; [lia|].
    intros h p Hin. apply elem_of_cons in Hin as [<-|Hin]; [done|].
    by apply list_elem_of_singleton in Hin.
  - count_events. rewrite Hev. simpl.
    assert (isCloseWriter ev = false) as -> by (by destruct ev).
    split; [lia|]. split; [lia|].
    intros h' p Hin. apply elem_of_cons in Hin as [<-|Hin]; [done|].
    apply elem_of_app in Hin as [Hin|Hin].
    + pose proof (copy_write_sink _ _ _ _ _ Hc Hin) as ->.
      exists (ev :: cevs), [EvBodyClose]. split; [done|].
      split; [by right | by repeat constructor].
    + apply elem_of_cons in Hin as [?|Hin]; [done|].
      by apply list_elem_of_singleton in Hin.
  - count_events. simpl. split; [lia|]. split; [lia|].
    intros h p Hin. apply elem_of_cons in Hin as [?|Hin]; [done|].
    by apply list_elem_of_singleton in Hin.
  - assert (Hlast : forall h p,
        EvWrite h p ∉ [@EvTempClose H; EvTempRemove; EvBodyClose]).
    { intros h p Hin. repeat (apply elem_of_cons in Hin as [?|Hin]; [done|]).
      by apply elem_of_nil in Hin. }
    destruct Ht as [->|[->|[(n & ->)|(n & h & cevs2 & -> & Hc2)]]].
    + count_events. simpl. split; [lia|]. split; [lia|].
      intros h p Hin. apply elem_of_cons in Hin as [?|Hin]; [done|].
      apply elem_of_app in Hin as [Hin|Hin];
        [by apply (copy_write_tmp _ _ _ _ Hc) in Hin|].
      by apply Hlast in Hin.
    + count_events. simpl. split; [lia|]. split; [lia|].
      intros h p Hin. apply elem_of_cons in Hin as [?|Hin]; [done|].
      apply elem_of_app in Hin as [Hin|Hin];
        [by apply (copy_write_tmp _ _ _ _ Hc) in Hin|].
      apply elem_of_cons in Hin as [?|Hin]; [done|].
      by apply Hlast in Hin.
    + count_events. simpl. split; [lia|]. split; [lia|].
      intros h p Hin. apply elem_of_cons in Hin as [?|Hin]; [done|].
      apply elem_of_app in Hin as [Hin|Hin];
        [by apply (copy_write_tmp _ _ _ _ Hc) in Hin|].
      do 2 (apply elem_of_cons in Hin as [?|Hin]; [done|]).
      by apply Hlast in Hin.
    + count_events. simpl. split; [lia|]. split; [lia|].
      intros h' p Hin. apply elem_of_cons in Hin as [?|Hin]; [done|].
      apply elem_of_app in Hin as [Hin|Hin];
        [by apply (copy_write_tmp _ _ _ _ Hc) in Hin|].
      do 2 (apply elem_of_cons in Hin as [?|Hin]; [done|]).
      apply elem_of_app in Hin as [Hin|Hin]; [|by apply Hlast in Hin].
      apply elem_of_app in Hin as [Hin|Hin];
        [|by apply list_elem_of_singleton in Hin].
      pose proof (copy_write_sink _ _ _ _ _ Hc2 Hin) as ->.
      exists (EvTempFile :: cevs ++ [EvTempSeek; EvCreate fullFilename n] ++ cevs2),
        [EvTempClose; EvTempRemove; EvBodyClose].
      split; [|split].
      * simpl. rewrite <- ?app_assoc. simpl. rewrite <- ?app_assoc. reflexivity.
      * right. apply elem_of_app. right. by do 2 right.
      * by repeat constructor.
Qed.

End WriterFacts.

(** * Further properties: what a transfer opens, it closes *)

Section LifecycleClaims.
Context {S H : Type} `{!FileOut S H}.
Variable env : @Env S H.
Implicit Types (w : @World S H) (evs : list (@Event H)) (o : order).

(** X5. The body of the answer is closed exactly once by a call of
    [slurp] that got an answer, whatever the status and whatever fails
    afterwards, and that is the last thing the call does; a call that got
    no answer (a dry run, a request that could not be made or sent)
    closes nothing. *)
Theorem X5_body_closed_once_and_last o w :
  let evs := eventsSince (trace w) (trace (slurp env o w).2) in
  (count isBodyClose evs <= 1)%nat
  /\ (count isBodyClose evs = 1%nat
      <-> dryRun env = false
          /\ exists req resp,
              newRequest env (url o) = inr req
              /\ env_do env (trace w) (sentRequest env o w req) = inr resp)
  /\ (count isBodyClose evs = 1%nat -> last evs = Some EvBodyClose).
Proof.
  cbv zeta.
  destruct (answered_or_not env o w) as [(Hd & req & resp & Hn & Hdo)|Hno].
  - destruct (slurp_answered env o w req resp Hd Hn Hdo) as (evs & Ht & Ha & _).
    rewrite Ht, eventsSince_app.
    destruct (AfterResponse_counts _ _ Ha) as (Hc & Hl & _).
    rewrite count_cons. cbn [isBodyClose]. rewrite Hc.
    split; [simpl; lia|]. split; [split; [by eauto 6 | simpl; lia]|].
    intros _. rewrite last_cons, Hl. reflexivity.
  - destruct (slurp_unanswered env o w Hno) as [Hdos _].
    rewrite (count_requests isBodyClose _ lifecycle_isBodyClose Hdos).
    split; [lia|]. split; [|done]. split; [done|].
    intros (Hd & req & resp & Hn & Hdo).
    destruct Hno as [?|[[e He]|(req' & e & Hn' & Hdo')]]; congruence.
Qed.



End LifecycleClaims.

Section TallyFacts.
Context {S H : Type} `{!FileOut S H}.
Variable env : @Env S H.
Implicit Types (w : @World S H) (o : order).

(** One turn of the loop: the order is logged as failed and counted, or
    reported as done; nothing is printed. *)
Lemma slurperStep_outcome o w :
  stdout (slurperStep env o w) = stdout w
  /\ ((failures (slurperStep env o w) = Datatypes.S (failures w)
       /\ dones (slurperStep env o w) = dones w
       /\ errorCount (slurperStep env o w) = GoInt.addU32 (errorCount w) 1)
      \/ (failures (slurperStep env o w) = failures w
          /\ dones (slurperStep env o w) = Datatypes.S (dones w)
          /\ errorCount (slurperStep env o w) = errorCount w)).
Proof.
  pose proof (slurp_evolves env o (started env o w)) as [He Hs Hl Ho _].
  destruct (started_fields env o w) as (_ & _ & _ & Hec & Hsd & Hso & _).
  pose proof (failures_started env o w) as Hf.
  destruct (slurp env o (started env o w)) as [[err|] w1] eqn:E;
    cbn [snd] in He, Hs, Hl, Ho.
  - rewrite (slurperStep_failed _ _ _ _ _ E).
    split; [simpl; congruence|]. left.
    unfold failures, dones in *. cbn [logs sends errorCount setErrorCount logPrint].
    rewrite Hl, Hs, Hsd, He, Hec.
    rewrite List.filter_app, length_app. cbn [List.filter].
    rewrite isFailedLine_failedLine. simpl. repeat split; lia.
  - rewrite (slurperStep_done _ _ _ _ E).
    split; [simpl; congruence|]. right.
    unfold failures, dones in *. simpl. rewrite Hl, Hs, Hsd, He, Hec.
    rewrite List.filter_app, length_app. simpl. repeat split; lia.
Qed.

Lemma wrapU32_add_l a b :
  GoInt.wrapU32 (GoInt.wrapU32 a + b) = GoInt.wrapU32 (a + b).
Proof. unfold GoInt.wrapU32. apply Zplus_mod_idemp_l. Qed.

Lemma wrapU32_small z : GoInt.isU32 z -> GoInt.wrapU32 z = z.
Proof. unfold GoInt.wrapU32, GoInt.isU32. intros. apply Z.mod_small. lia. Qed.

(** The tally of a worker: orders never leave the two counts, and the
    error count follows the failures modulo 2^32. *)
Lemma slurper_tally orders w :
  stdout (slurper env orders w) = stdout w
  /\ (failures w <= failures (slurper env orders w))%nat
  /\ (dones w <= dones (slurper env orders w))%nat
  /\ GoInt.wrapU32 (errorCount (slurper env orders w))
     = GoInt.wrapU32 (errorCount w
         + Z.of_nat (failures (slurper env orders w) - failures w)).
Proof.
  revert w. induction orders as [|o orders IH]; intros w; simpl.
  - rewrite Nat.sub_diag, Z.add_0_r. repeat split; lia.
  - destruct (IH (slurperStep env o w)) as (I1 & I2 & I3 & I4).
    destruct (slurperStep_outcome o w) as (O1 & [(F & D & Ec)|(F & D & Ec)]).
    + split; [congruence|]. split; [lia|]. split; [lia|].
      rewrite I4, Ec, F. unfold GoInt.addU32. rewrite wrapU32_add_l.
      f_equal. lia.
    + split; [congruence|]. split; [lia|]. split; [lia|].
      rewrite I4, Ec, F. reflexivity.
Qed.

Lemma slurper_dry orders w :
  dryRun env = true ->
  slurper env orders w
  = fold_left (fun w o => send (ui o) (msgFileDone (url o)) (started env o w))
      orders w.
Proof.
  intros Hd. revert w. induction orders as [|o orders IH]; intros w; simpl; [done|].
  rewrite IH. f_equal. unfold slurperStep. fold (started env o w).
  by rewrite slurp_dry.
Qed.

Lemma resolve_fails pre d post files err :
  Forall (fun u => exists fs, env_list env u = inr fs) pre ->
  env_list env d = inl err ->
  resolve env (pre ++ d :: post) files = inl err.
Proof.
  intros Hpre Hd. revert files.
  induction Hpre as [|u pre [fs Hu] _ IH]; intros files; simpl.
  - by rewrite Hd.
  - rewrite Hu. apply IH.
Qed.

End TallyFacts.

(** * Further properties: the worker and the whole run *)

Section RunClaims.
Context {S H : Type} `{!FileOut S H}.
Variable env : @Env S H.
Implicit Types (w : @World S H) (o : order).

(** X8. The error count of a worker is its first value plus the number
    of orders it logged as failed, modulo 2^32 (the count is a
    [uint32]); an order reported as done leaves it alone. As long as the
    first value and the number of orders together stay below 2^32 it is
    that sum itself. *)
Theorem X8_error_count_is_failures_logged orders w :
  GoInt.isU32 (errorCount w) ->
  let w' := slurper env orders w in
  let failed := (failures w' - failures w)%nat in
  errorCount w' = GoInt.wrapU32 (errorCount w + Z.of_nat failed)
  /\ (failed + (dones w' - dones w) = length orders)%nat
  /\ (errorCount w + Z.of_nat (length orders) < 2 ^ 32 ->
      errorCount w' = errorCount w + Z.of_nat failed).
Proof.
  intros Hr. cbv zeta.
  destruct (slurper_tally env orders w) as (_ & Hf & Hd & Hec).
  pose proof (slurper_reports env orders w) as Hrep.
  pose proof (errorCount_slurper env orders w Hr) as Hr'.
  rewrite (wrapU32_small _ Hr') in Hec.
  split; [done|]. split; [lia|].
  intros Hsmall. rewrite Hec. apply wrapU32_small.
  unfold GoInt.isU32 in *. lia.
Qed.


(** X10. One listing page that cannot be read stops the run before any
    transfer. Whatever pages came before it and were read, and whatever
    comes after it, nothing is requested or written, no order is
    reported, the sink is not closed; the error is logged with the
    arguments and the run ends with status 1. *)
Theorem X10_unreadable_page_stops_the_run pre d post err w :
  (tarOut env = true -> env_tarCreate env = None) ->
  Forall (fun u => exists fs, env_list env u = inr fs) pre ->
  env_list env d = inl err ->
  exists w',
    main env (pre ++ d :: post) w = Some (1, w')
    /\ logs w' = logs w ++ ["Failed to start download of "
                             +:+ GoFmt.qs (pre ++ d :: post) +:+ ": "
                             +:+ errorString err]
    /\ trace w' = trace w /\ sink w' = sink w /\ sends w' = sends w
    /\ stdout w' = stdout w /\ errorCount w' = errorCount w
    /\ counter w' = counter w.
Proof.
  intros Htar Hpre Hd.
  assert (Ht : (if tarOut env then env_tarCreate env else None) = None).
  { destruct (tarOut env); [by apply Htar | done]. }
  eexists. split.
  - unfold main. rewrite Ht.
    destruct (pre ++ d :: post) as [|a args] eqn:E; [by destruct pre|].
    rewrite <- E. unfold downloadDirs.
    rewrite (resolve_fails env pre d post [] err Hpre Hd). reflexivity.
  - by repeat split.
Qed.

(** X11. A dry run asks for nothing and writes nothing: for every order
    the worker makes no request, leaves sink, scratch file, byte counter
    and error count as they are, and reports the order as done; with
    [-v] it logs the starting line of each order, and nothing else. *)
Theorem X11_dry_run_touches_nothing orders w :
  dryRun env = true ->
  let w' := slurper env orders w in
  trace w' = trace w /\ sink w' = sink w /\ scratch w' = scratch w
  /\ counter w' = counter w /\ errorCount w' = errorCount w
  /\ stdout w' = stdout w
  /\ sends w' = sends w ++ map (fun o => (ui o, msgFileDone (url o))) orders
  /\ logs w' = logs w ++ (if verbose env then map (startingLine) orders else []).
Proof.
  intros Hd. cbv zeta. rewrite (slurper_dry env orders w Hd).
  revert w. induction orders as [|o orders IH]; intros w.
  - simpl. rewrite !app_nil_r. destruct (verbose env); by rewrite ?app_nil_r.
  - cbn [fold_left map].
    destruct (IH (send (ui o) (msgFileDone (url o)) (started env o w)))
      as (I1 & I2 & I3 & I4 & I5 & I6 & I7 & I8).
    rewrite I1, I2, I3, I4, I5, I6, I7, I8. unfold started.
    destruct (verbose env); simpl; rewrite <- ?app_assoc; by repeat split.
Qed.

End RunClaims.

(** * The further properties on concrete runs *)

Section FurtherRuns.
Import Scenario PageScenario Links.
#[local] Existing Instance DirectSink.fileOut.

Lemma keysOnce_web : keysOnce web.
Proof. intros keys. apply reverse_Permutation. Qed.

(** X1 on the page of the scenario: three links come back, the one that
    is there twice only once. *)
Lemma X1_witness :
  keysOnce web
  /\ list_ web "http://example/dir/" = inr ["a.txt"; "sub/c.txt"; "b.txt"]
  /\ NoDup ["a.txt"; "sub/c.txt"; "b.txt"].
Proof.
  assert (Hl : list_ web "http://example/dir/"
               = inr ["a.txt"; "sub/c.txt"; "b.txt"]) by (vm_compute; reflexivity).
  split; [exact keysOnce_web|]. split; [exact Hl|].
  exact (proj1 (X1_list_returns_each_link_once web _ _ keysOnce_web Hl)).
Defined.

(** X2 on the page of the scenario, which is written link by link. *)
Lemma X2_witness :
  let items := [("<html><a ", "a.txt"); (">a</a> <a ", "b.txt");
                (">b</a> <a ", "sub/c.txt"); (">c</a> <a ", "a.txt")] in
  let tail := ">again</a></html>" in
  web_get web "http://example/dir/" = inr (page items tail)
  /\ exists ret,
      list_ web "http://example/dir/" = inr ret
      /\ ret ≡ₚ remove_dups items.*2
      /\ forall x, x ∈ ret <-> x ∈ items.*2.
Proof.
  intros items tail.
  assert (Hg : web_get web "http://example/dir/" = inr (page items tail))
    by reflexivity.
  split; [exact Hg|].
  apply (X2_list_reads_back_written_links web _ items tail keysOnce_web Hg).
  - repeat constructor; simpl; discriminate.
  - reflexivity.
Defined.

(** X3 on a run over the page of the scenario: the link that is there
    twice is queued once. *)
Lemma X3_witness :
  let env := withWeb web (directEnv (inr ok200)) in
  let urls := ["http://example/dir/"] in
  let files := ["http://example/dir/a.txt"; "http://example/dir/b.txt"] in
  resolve env urls [] = inr files /\ NoDup files.
Proof.
  intros env urls files.
  assert (Hr : resolve env urls [] = inr files) by (vm_compute; reflexivity).
  split; [exact Hr|].
  apply (X3_no_address_queued_twice env web urls files keysOnce_web).
  - intros d _. reflexivity.
  - vm_compute. repeat constructor. by intros ?%elem_of_nil.
  - exact Hr.
Defined.

(** X4 on the same run: [b.txt] of the page is saved as [b.txt]. *)
Lemma X4_witness :
  let env := withWeb web (directEnv (inr ok200)) in
  let urls := ["http://example/dir/"] in
  let files := ["http://example/dir/a.txt"; "http://example/dir/b.txt"] in
  resolve env urls [] = inr files
  /\ exists d fs fn,
      d ∈ urls /\ list_ web d = inr fs /\ fn ∈ fs
      /\ matchString env fn = true
      /\ "http://example/dir/b.txt" = withSlash d +:+ fn
      /\ GoPath.Base "http://example/dir/b.txt" = fn
      /\ fullFilenameOf env (mkOrder "http://example/dir/b.txt" 0%nat)
         = GoPath.Join [out env; fn].
Proof.
  intros env urls files.
  assert (Hr : resolve env urls [] = inr files) by (vm_compute; reflexivity).
  split; [exact Hr|].
  apply (X4_file_saved_under_link_name env web urls files _ 0%nat keysOnce_web).
  - intros d _. reflexivity.
  - exact Hr.
  - right. by left.
Defined.

(** X8 on a run: two orders, both answered with 404; the error count
    goes from 0 to 2. *)
Lemma X8_witness :
  let env := directEnv (inr missing404) in
  let w := worldOf ∅ 0 in
  let orders := [a_txt; other_a_txt] in
  GoInt.isU32 (errorCount w)
  /\ errorCount (slurper env orders w)
     = GoInt.wrapU32 (errorCount w
         + Z.of_nat (failures (slurper env orders w) - failures w)).
Proof.
  intros env w orders.
  assert (Hr : GoInt.isU32 (errorCount w)) by (unfold GoInt.isU32; simpl; lia).
  split; [exact Hr|].
  exact (proj1 (X8_error_count_is_failures_logged env orders w Hr)).
Defined.


(** X10 on a run: the first page is read, the second is not there. *)
Lemma X10_witness :
  let env := directEnv (inr ok200) in
  let w := worldOf ∅ 0 in
  env_list env "http://nowhere/" = inl (ErrExt "404 Not Found")
  /\ exists w',
      main env ["http://example/dir/"; "http://nowhere/"] w = Some (1, w')
      /\ trace w' = trace w /\ sends w' = sends w.
Proof.
  intros env w.
  assert (Hd : env_list env "http://nowhere/" = inl (ErrExt "404 Not Found"))
    by reflexivity.
  split; [exact Hd|].
  destruct (X10_unreadable_page_stops_the_run env ["http://example/dir/"]
              "http://nowhere/" [] (ErrExt "404 Not Found") w)
    as (w' & Hmain & _ & Ht & _ & Hs & _).
  - intros _. reflexivity.
  - repeat constructor. by eexists.
  - exact Hd.
  - exists w'. by repeat split.
Defined.

(** X11 on a dry run of two orders. *)
Lemma X11_witness :
  let env := envWith true DirectSink.stat (inr ok200) in
  let w := worldOf ∅ 0 in
  let orders := [a_txt; other_a_txt] in
  dryRun env = true
  /\ trace (slurper env orders w) = trace w
  /\ sends (slurper env orders w)
     = sends w ++ map (fun o => (ui o, msgFileDone (url o))) orders.
Proof.
  intros env w orders.
  split; [reflexivity|].
  destruct (X11_dry_run_touches_nothing env orders w eq_refl)
    as (Ht & _ & _ & _ & _ & _ & Hs & _).
  by split.
Defined.

End FurtherRuns.
